(** * script/gemini-review.js: the diff position resolver, the response
    sanitizer and the review orchestrator

    A shallow embedding of [getDiffPosition], of the clean-and-parse block
    of [main] and of [main] itself, with the properties of the written
    specification stated over them.  The definitions come first, module
    by module; the properties follow.

    Conventions of the embedding.
    - A JavaScript string is the list of its UTF-16 code units ([N]).
    - [fileLine] and [targetLine] are JavaScript numbers that hold
      integers.  [Resolver] takes them in [Z]; [Doubles] has the same
      loop on doubles, which are exact on the integers up to 2^53, far
      beyond any line number of a file, and round beyond.  The two loops
      return the same on every patch whose line numbers stay within 2^53
      ([ResolverSpec.exact_numbers], [ResolverProofs.integers_agree]).
      (A target that is no integer and no infinity is never strictly
      equal to [fileLine].)  [position] counts lines up from 0 and is
      taken in [nat].
    - [undefined] / [null] where a string is expected is [None].
    - [main] awaits one request after the other; a run is modelled as
      the list of what it logs and requests, in order, and its exit
      status.  What the collaborators answer is a parameter of the run. *)

From Stdlib Require Import List ZArith NArith Lia Bool String Ascii.
Import ListNotations.

(* ================================================================== *)
(** ** JavaScript strings *)
(* ================================================================== *)

Module JsString.

Local Open Scope N_scope.

Definition char := N.
Definition jsstring := list char.

(** An ASCII literal as a JavaScript string. *)
Definition lit (s : string) : jsstring :=
  map N_of_ascii (list_ascii_of_string s).

Definition LF : char := 10.

(** [lines] joined by "\n": how the patches of the examples are written. *)
Fixpoint unlines (ls : list jsstring) : jsstring :=
  match ls with
  | [] => []
  | [l] => l
  | l :: ls' => l ++ LF :: unlines ls'
  end.

Fixpoint jseqb (a b : jsstring) : bool :=
  match a, b with
  | [], [] => true
  | x :: a', y :: b' => (x =? y) && jseqb a' b'
  | _, _ => false
  end.

(** [strip_prefix pre s] is the rest of [s] after [pre] when [s] starts
    with [pre]. *)
Fixpoint strip_prefix (pre s : jsstring) : option jsstring :=
  match pre, s with
  | [], _ => Some s
  | p :: pre', c :: s' => if p =? c then strip_prefix pre' s' else None
  | _ :: _, [] => None
  end.

(** [String.prototype.startsWith]. *)
Definition startsWith (s pre : jsstring) : bool :=
  match strip_prefix pre s with Some _ => true | None => false end.

(** [String.prototype.split] with a one-character separator: the pieces
    between the separators, empty pieces kept; the empty string gives one
    empty piece. *)
Fixpoint split (sep : char) (s : jsstring) : list jsstring :=
  match s with
  | [] => [[]]
  | c :: s' =>
      if c =? sep then [] :: split sep s'
      else match split sep s' with
           | l :: ls => (c :: l) :: ls
           | [] => [[c]]
           end
  end.

(** [\d] *)
Definition is_digit (c : char) : bool := (48 <=? c) && (c <=? 57).

(** The longest run of digits at the head of [s], and what follows it:
    what a greedy [\d+] or [\d*] consumes. *)
Fixpoint span_digits (s : jsstring) : jsstring * jsstring :=
  match s with
  | c :: s' =>
      if is_digit c
      then let (d, r) := span_digits s' in (c :: d, r)
      else ([], s)
  | [] => ([], [])
  end.

(** [parseInt(d, 10)] on a string of decimal digits: the integer that
    the digits write.  (The script has the double nearest to it, which is
    that integer up to 2^53.) *)
Definition parseInt (d : jsstring) : Z :=
  fold_left (fun acc c => (10 * acc + (Z.of_N c - 48))%Z) d 0%Z.

End JsString.

(* ================================================================== *)
(** ** The diff position resolver: [getDiffPosition] *)
(* ================================================================== *)

Module Resolver.

Import JsString.
Local Open Scope Z_scope.

Definition s_atat : jsstring := Eval cbv in lit "@@".
Definition s_plus : jsstring := Eval cbv in lit "+".
Definition s_minus : jsstring := Eval cbv in lit "-".
Definition s_hdr_open : jsstring := Eval cbv in lit "@@ -".
Definition s_sp_plus : jsstring := Eval cbv in lit " +".
Definition c_comma : char := 44%N.

(** One attempt of [/@@ -\d+(?:,\d+)? \+(\d+)/] at the head of [s]; the
    result is capture group 1.

    Every quantifier of the pattern is greedy and is followed by something
    that is not a digit, so backtracking into a [\d+] never helps: a
    shorter run is followed by a digit, where the pattern wants [,] or a
    space.  In the same way the optional group, once it has matched a
    comma and digits, cannot be given up: the pattern would then want a
    space where the comma is.  The group is skipped exactly when no comma
    or no digit after the comma is there. *)
Definition match_here (s : jsstring) : option jsstring :=
  match strip_prefix s_hdr_open s with
  | None => None
  | Some s1 =>
      match span_digits s1 with
      | ([], _) => None
      | (_ :: _, s2) =>
          let s3 :=
            match s2 with
            | c :: t =>
                if (c =? c_comma)%N
                then match span_digits t with
                     | ([], _) => s2
                     | (_ :: _, t') => t'
                     end
                else s2
            | [] => s2
            end in
          match strip_prefix s_sp_plus s3 with
          | None => None
          | Some s4 =>
              match span_digits s4 with
              | ([], _) => None
              | (d, _) => Some d
              end
          end
      end
  end.

(** [regex.exec(line)] for a regex without the [g] flag: the match at the
    leftmost start index that has one.  The result is [match[1]]. *)
Fixpoint exec (s : jsstring) : option jsstring :=
  match match_here s with
  | Some d => Some d
  | None => match s with
            | [] => None
            | _ :: s' => exec s'
            end
  end.

(** The two loop variables. *)
Record state := { fileLine : Z; position : nat }.

(** What one iteration of the [for ... of] loop does: go on with a new
    state, or leave the function with a value. *)
Inductive outcome :=
| Continue (st : state)
| Return (p : nat).

Definition step (targetLine : Z) (st : state) (line : jsstring) : outcome :=
  let position := S (position st) in
  if startsWith line s_atat then
    match exec line with
    | Some d => Continue {| fileLine := parseInt d - 1; position := position |}
    | None => Continue {| fileLine := fileLine st; position := position |}
    end
  else if startsWith line s_plus then
    let fileLine := fileLine st + 1 in
    if fileLine =? targetLine then Return position
    else Continue {| fileLine := fileLine; position := position |}
  else if negb (startsWith line s_minus) then
    Continue {| fileLine := fileLine st + 1; position := position |}
  else
    Continue {| fileLine := fileLine st; position := position |}.

(** The loop over the remaining lines; [None] is the [return null] after
    the loop. *)
Fixpoint scan (targetLine : Z) (st : state) (lines : list jsstring)
  : option nat :=
  match lines with
  | [] => None
  | line :: rest =>
      match step targetLine st line with
      | Return p => Some p
      | Continue st' => scan targetLine st' rest
      end
  end.

Definition init : state := {| fileLine := 0; position := 0 |}.

(** [getDiffPosition(patch, targetLine)].  [!patch] holds of an absent
    patch and of the empty string. *)
Definition getDiffPosition (patch : option jsstring) (targetLine : Z)
  : option nat :=
  match patch with
  | None => None
  | Some [] => None
  | Some ((_ :: _) as p) => scan targetLine init (split LF p)
  end.

(** Scenario A of the specification. *)
Definition scenarioA : jsstring :=
  unlines [lit "@@ -1,2 +1,3 @@"; lit " line1"; lit "+line2"; lit " line3"].

End Resolver.

(* ================================================================== *)
(** ** The resolver on the numbers of the script *)
(* ================================================================== *)

(** [Resolver] takes [fileLine] and [targetLine] as integers.  In the
    script they are doubles: [parseInt] gives the double nearest to the
    integer that the digits write, and [- 1] and [++] give the double
    nearest to the exact result.  This module has the same loop on these
    numbers; [ResolverProofs.integers_agree] shows that the two loops
    return the same on every patch whose line numbers stay within 2^53.
    ([position] counts the lines of a string, which has fewer than 2^53
    characters, and stays in [nat].) *)
Module Doubles.

Import JsString Resolver.
Local Open Scope Z_scope.

(** A double that holds an integer, or an infinity.  (The loop meets no
    other number: no fraction and no NaN.) *)
Inductive num :=
| Finite (z : Z)
| Infinity (negative : bool).

(** The double nearest to an integer, ties going to the even
    significand.  Below 2^53 every integer is a double; from there on
    the doubles are the multiples of [2 ^ e] in the binade of the
    integer; from 2^1024 on the result is an infinity. *)
Definition round (z : Z) : num :=
  let a := Z.abs z in
  if a <? 2 ^ 53 then Finite z
  else
    let e := Z.log2 a - 52 in
    let q := a / 2 ^ e in
    let r := a mod 2 ^ e in
    let q' := if 2 * r <? 2 ^ e then q
              else if 2 ^ e <? 2 * r then q + 1
              else if Z.even q then q else q + 1 in
    if 2 ^ 1024 <=? q' * 2 ^ e then Infinity (z <? 0)
    else Finite (Z.sgn z * (q' * 2 ^ e)).

(** [parseInt(d, 10)] on a string of decimal digits: the double nearest
    to the integer that the digits write.  (So the engine of Node
    computes it; the language lets an engine be less exact after the
    20th digit.) *)
Definition parseInt (d : jsstring) : num := round (JsString.parseInt d).

(** [x - 1] and [x + 1] *)
Definition sub1 (x : num) : num :=
  match x with
  | Finite z => round (z - 1)
  | Infinity s => Infinity s
  end.

Definition add1 (x : num) : num :=
  match x with
  | Finite z => round (z + 1)
  | Infinity s => Infinity s
  end.

(** [x === y] *)
Definition strict_eq (x y : num) : bool :=
  match x, y with
  | Finite a, Finite b => a =? b
  | Infinity s, Infinity s' => Bool.eqb s s'
  | _, _ => false
  end.

Record state := { fileLine : num; position : nat }.

Inductive outcome :=
| Continue (st : state)
| Return (p : nat).

Definition step (targetLine : num) (st : state) (line : jsstring) : outcome :=
  let position := S (position st) in
  if startsWith line s_atat then
    match exec line with
    | Some d =>
        Continue {| fileLine := sub1 (parseInt d); position := position |}
    | None => Continue {| fileLine := fileLine st; position := position |}
    end
  else if startsWith line s_plus then
    let fileLine := add1 (fileLine st) in
    if strict_eq fileLine targetLine then Return position
    else Continue {| fileLine := fileLine; position := position |}
  else if negb (startsWith line s_minus) then
    Continue {| fileLine := add1 (fileLine st); position := position |}
  else
    Continue {| fileLine := fileLine st; position := position |}.

Fixpoint scan (targetLine : num) (st : state) (lines : list jsstring)
  : option nat :=
  match lines with
  | [] => None
  | line :: rest =>
      match step targetLine st line with
      | Return p => Some p
      | Continue st' => scan targetLine st' rest
      end
  end.

Definition init : state := {| fileLine := Finite 0; position := 0 |}.

(** [getDiffPosition(patch, targetLine)], for a target that is an
    integer or an infinity. *)
Definition getDiffPosition (patch : option jsstring) (targetLine : num)
  : option nat :=
  match patch with
  | None => None
  | Some [] => None
  | Some ((_ :: _) as p) => scan targetLine init (split LF p)
  end.

(** A hunk header whose new range starts at 2^53 + 1, and an added line
    under it: line 2^53 + 1 of the new file. *)
Definition patch_beyond_2_53 : jsstring :=
  unlines [lit "@@ -1 +9007199254740993 @@"; lit "+x"].

End Doubles.

(* ================================================================== *)
(** ** The resolver's contract, in the words of the specification *)
(* ================================================================== *)

Module ResolverSpec.

Import JsString Resolver.
Local Open Scope Z_scope.

(** The four entries of a patch (specification, section 3), told apart by
    their leading marker.  A hunk header carries the start of its new
    range when it declares one. *)
Inductive kind :=
| KHeader (start : option Z)
| KAdded
| KRemoved
| KContext.

Definition kind_of (line : jsstring) : kind :=
  if startsWith line s_atat then KHeader (option_map parseInt (exec line))
  else if startsWith line s_plus then KAdded
  else if startsWith line s_minus then KRemoved
  else KContext.

(** Lines of the new version of the file: added and context lines. *)
Definition in_new_file (line : jsstring) : bool :=
  match kind_of line with
  | KAdded | KContext => true
  | _ => false
  end.

Definition count_new (ls : list jsstring) : nat :=
  List.length (filter in_new_file ls).

(** Index and new-range start of the last hunk header of [pre] that
    declares a start. *)
Fixpoint last_header (pre : list jsstring) : option (nat * Z) :=
  match pre with
  | [] => None
  | l :: r =>
      match last_header r with
      | Some (h, s) => Some (S h, s)
      | None =>
          match kind_of l with
          | KHeader (Some s) => Some (O, s)
          | _ => None
          end
      end
  end.

(** *** The patch as the specification has it

    Specification, section 3: the entries of a patch are hunk headers,
    added lines, removed lines and context lines.  In the unified diff
    format a hunk header is "@@ -a[,b] +c" and what follows, [c] being
    where the new range starts; an added line begins with "+", a removed
    line with "-", a context line with a space.  A line of another form,
    such as the marker "\ No newline at end of file", is no entry: it is
    a line of neither version of the file. *)
Inductive entry :=
| EHeader (start : Z)
| EAdded
| ERemoved
| EContext
| EOther.

Definition s_space : jsstring := Eval cbv in lit " ".

Definition entry_of (line : jsstring) : entry :=
  match match_here line with
  | Some c => EHeader (parseInt c)
  | None =>
      if startsWith line s_plus then EAdded
      else if startsWith line s_minus then ERemoved
      else if startsWith line s_space then EContext
      else EOther
  end.

(** Lines of the new version of the file. *)
Definition shown (line : jsstring) : bool :=
  match entry_of line with
  | EAdded | EContext => true
  | _ => false
  end.

(** Index and start of the last hunk header of [pre]. *)
Fixpoint hunk_start (pre : list jsstring) : option (nat * Z) :=
  match pre with
  | [] => None
  | l :: r =>
      match hunk_start r with
      | Some (h, s) => Some (S h, s)
      | None =>
          match entry_of l with
          | EHeader s => Some (O, s)
          | _ => None
          end
      end
  end.

(** The number in the new file of the line at index [i] (from 0) of a
    patch, for an added or context line: the start that its hunk header
    declares, plus the number of lines of the new file between that
    header and the line.  A line that no hunk header precedes has no
    number. *)
Definition new_line_number (lines : list jsstring) (i : nat) : option Z :=
  let pre := firstn i lines in
  match hunk_start pre with
  | Some (h, s) =>
      Some (s + Z.of_nat (List.length (filter shown (skipn (S h) pre))))
  | None => None
  end.

(** Target line [L] corresponds to the added line at index [i]. *)
Definition corresponds (lines : list jsstring) (L : Z) (i : nat) : Prop :=
  exists l, nth_error lines i = Some l /\ entry_of l = EAdded
            /\ new_line_number lines i = Some L.

(** The first testable property of the specification, for patch [P] and
    target [L], of the resolver on the numbers of the script.  Position
    [p] names line [p] of [P], the first line being line 1; several added
    lines with one number (overlapping hunks) are settled by the first. *)
Definition resolver_contract (P : jsstring) (L : Z) : Prop :=
  let lines := split LF P in
  let found := Doubles.getDiffPosition (Some P) (Doubles.Finite L) in
  ((exists i, corresponds lines L i) ->
   exists p, found = Some p
             /\ (1 <= p)%nat
             /\ corresponds lines L (p - 1)
             /\ forall j, corresponds lines L j -> (p - 1 <= j)%nat)
  /\ ((forall i, ~ corresponds lines L i) -> found = None).

(** A patch of entries only, that begins with a hunk header, as the
    patches of the hosting API do when no marker line is in them. *)
Definition well_formed (lines : list jsstring) : Prop :=
  match lines with
  | l :: _ => exists s, entry_of l = EHeader s
  | [] => False
  end
  /\ Forall (fun l => entry_of l <> EOther) lines.

(** The line numbers of the patch stay within the integers that a double
    holds exactly: the patch has no more than 2^53 lines (a string has
    fewer characters), and no hunk header starts its new range so high
    that the lines of the patch, counted on from it, could pass 2^53.
    Up to there [fileLine], a double in the script, is the integer of
    the model ([ResolverExtras.exact_numbers_fileLine]). *)
Definition exact_numbers (lines : list jsstring) : Prop :=
  Z.of_nat (List.length lines) <= 2 ^ 53
  /\ forall l s, In l lines -> kind_of l = KHeader (Some s) ->
                 s + Z.of_nat (List.length lines) <= 2 ^ 53.


(** No line of the patch is a hunk header that declares a start. *)
Definition headerless (lines : list jsstring) : Prop :=
  forall l, In l lines -> forall s, kind_of l <> KHeader (Some s).

(** The lines that [getDiffPosition] scans. *)
Definition lines_of (patch : option jsstring) : list jsstring :=
  match patch with
  | None | Some [] => []
  | Some p => split LF p
  end.

(** Specification, section 3: a DiffPosition counts "every line (headers,
    added, context) but excluding removed lines".  The offset of the line
    at index [i] under that reading. *)
Definition is_removed (line : jsstring) : bool :=
  match kind_of line with KRemoved => true | _ => false end.

Definition DiffPosition_excluding_removed (lines : list jsstring) (i : nat)
  : nat :=
  List.length (filter (fun l => negb (is_removed l)) (firstn (S i) lines)).

(** Number of lines of one kind. *)
Definition is_header (line : jsstring) : bool :=
  match kind_of line with KHeader _ => true | _ => false end.
Definition is_added (line : jsstring) : bool :=
  match kind_of line with KAdded => true | _ => false end.
Definition is_context (line : jsstring) : bool :=
  match kind_of line with KContext => true | _ => false end.

Definition count (f : jsstring -> bool) (ls : list jsstring) : nat :=
  List.length (filter f ls).

(** The loop run over some lines, keeping the state it ends in. *)
Fixpoint steps (targetLine : Z) (st : state) (lines : list jsstring)
  : outcome :=
  match lines with
  | [] => Continue st
  | line :: rest =>
      match step targetLine st line with
      | Return p => Return p
      | Continue st' => steps targetLine st' rest
      end
  end.

Definition outcome_position (o : outcome) : nat :=
  match o with
  | Continue st => position st
  | Return p => p
  end.

(** The text of a hunk header: "@@ -a[,b] +c" and whatever follows. *)
Definition all_digits (d : jsstring) : Prop :=
  d <> [] /\ forallb is_digit d = true.

Definition no_digit_ahead (rest : jsstring) : Prop :=
  match rest with
  | c :: _ => is_digit c = false
  | [] => True
  end.

Definition header_text (a : jsstring) (b : option jsstring) (c rest : jsstring)
  : jsstring :=
  s_hdr_open ++ a
    ++ match b with Some b' => c_comma :: b' | None => [] end
    ++ s_sp_plus ++ c ++ rest.

(** Specification, section 4.1, step 3, of the resolver on the numbers
    of the script: a hunk header sets [fileLine] to the start of its new
    range minus 1. *)
Definition header_seeds_start_minus_1 : Prop :=
  forall L st a b c tail,
    all_digits a -> (forall b', b = Some b' -> all_digits b') ->
    all_digits c -> no_digit_ahead tail ->
    Doubles.step L st (header_text a b c tail)
    = Doubles.Continue
        {| Doubles.fileLine := Doubles.Finite (parseInt c - 1);
           Doubles.position := S (Doubles.position st) |}.

(** *** The loop, seen from outside *)

(** The effect of a line of kind [k] on [fileLine]. *)
Definition advance (fl : Z) (k : kind) : Z :=
  match k with
  | KHeader (Some s) => s - 1
  | KHeader None => fl
  | KAdded | KContext => fl + 1
  | KRemoved => fl
  end.

(** [fileLine] when the loop reaches the line at index [i], if it has not
    returned before. *)
Definition fl_before (fl0 : Z) (lines : list jsstring) (i : nat) : Z :=
  fold_left advance (map kind_of (firstn i lines)) fl0.

(** The loop returns at index [i] if it gets there. *)
Definition hit (L fl0 : Z) (lines : list jsstring) (i : nat) : Prop :=
  exists l, nth_error lines i = Some l /\ kind_of l = KAdded
            /\ fl_before fl0 lines i + 1 = L.

(** The value of [fileLine] once the loop has taken the line at index
    [i], an added or a context line: counted on from the start of the
    last hunk header above the line, or from 1 when there is none. *)
Definition numbered (lines : list jsstring) (i : nat) : Z :=
  match last_header (firstn i lines) with
  | Some (h, s) => s + Z.of_nat (count_new (skipn (S h) (firstn i lines)))
  | None => 1 + Z.of_nat (count_new (firstn i lines))
  end.

(** The line at index [i] is an added line, and [fileLine] is [L] when
    the loop has taken it. *)
Definition found_at (lines : list jsstring) (L : Z) (i : nat) : Prop :=
  exists l, nth_error lines i = Some l /\ kind_of l = KAdded
            /\ numbered lines i = L.

(** A patch of two hunks. *)
Definition two_hunks : jsstring :=
  unlines [lit "@@ -1 +1,2 @@"; lit "+a"; lit " b";
           lit "@@ -10,2 +12,2 @@ f()"; lit "-c"; lit "+d"].

(** A patch with the marker of a file that ends without a newline: line
    1 of the new file is the added line, the marker is no line of it. *)
Definition patch_with_marker : jsstring :=
  unlines [lit "@@ -1 +1 @@"; lit "-a"; lit "\ No newline at end of file";
           lit "+b"].


(** Specification, section 3, of the resolver: the offset returned
    leaves removed lines out. *)
Definition position_excludes_removed (P : jsstring) (L : Z) : Prop :=
  forall p, getDiffPosition (Some P) L = Some p ->
            p = DiffPosition_excluding_removed (split LF P) (p - 1).

(** A patch with a removed line above its added line. *)
Definition patch_with_removal : jsstring :=
  unlines [lit "@@ -1,2 +1,2 @@"; lit " keep"; lit "-old"; lit "+new"].

End ResolverSpec.

(* ================================================================== *)
(** ** JavaScript values and [JSON.parse] *)
(* ================================================================== *)

Module Json.

Import JsString.
Local Open Scope N_scope.

(** A number read from a decimal literal: [mantissa * 10 ^ exp10]. *)
Record number := { mantissa : Z; exp10 : Z }.

(** The values [JSON.parse] builds, and [undefined], which property
    access adds. *)
#[local] Set Warnings "-register-all".
Inductive value :=
| JUndefined
| JNull
| JBool (b : bool)
| JNum (n : number)
| JStr (s : jsstring)
| JArr (items : list value)
| JObj (members : list (jsstring * value)).

(** JSON white space: tab, line feed, carriage return, space. *)
Definition is_json_ws (c : char) : bool :=
  (c =? 9) || (c =? 10) || (c =? 13) || (c =? 32).

Fixpoint skip_ws (s : jsstring) : jsstring :=
  match s with
  | c :: s' => if is_json_ws c then skip_ws s' else s
  | [] => []
  end.

Definition hex_val (c : char) : option N :=
  if (48 <=? c) && (c <=? 57) then Some (c - 48)
  else if (65 <=? c) && (c <=? 70) then Some (c - 55)
  else if (97 <=? c) && (c <=? 102) then Some (c - 87)
  else None.

Definition hex4 (a b c d : char) : option char :=
  match hex_val a, hex_val b, hex_val c, hex_val d with
  | Some x, Some y, Some z, Some w => Some (((x * 16 + y) * 16 + z) * 16 + w)
  | _, _, _, _ => None
  end.

(** The character a one-letter escape stands for. *)
Definition simple_escape (e : char) : option char :=
  if e =? 34 then Some 34          (* quote *)
  else if e =? 92 then Some 92     (* backslash *)
  else if e =? 47 then Some 47     (* slash *)
  else if e =? 98 then Some 8      (* b: backspace *)
  else if e =? 102 then Some 12    (* f: form feed *)
  else if e =? 110 then Some 10    (* n: line feed *)
  else if e =? 114 then Some 13    (* r: carriage return *)
  else if e =? 116 then Some 9     (* t: tab *)
  else None.

Definition push (c : char) (r : option (jsstring * jsstring))
  : option (jsstring * jsstring) :=
  match r with
  | Some (str, rest) => Some (c :: str, rest)
  | None => None
  end.

(** A string, after its opening quote: its characters and what follows
    the closing quote.  Control characters are not allowed unescaped. *)
Fixpoint parse_string (s : jsstring) : option (jsstring * jsstring) :=
  match s with
  | [] => None
  | c :: r =>
      if c =? 34 then Some ([], r)
      else if c =? 92 then
        match r with
        | [] => None
        | e :: r1 =>
            if e =? 117 then
              match r1 with
              | h1 :: h2 :: h3 :: h4 :: r2 =>
                  match hex4 h1 h2 h3 h4 with
                  | Some u => push u (parse_string r2)
                  | None => None
                  end
              | _ => None
              end
            else
              match simple_escape e with
              | Some ch => push ch (parse_string r1)
              | None => None
              end
        end
      else if c <? 32 then None
      else push c (parse_string r)
  end.

(** A number: an optional minus sign; the integer part, one 0 or a run
    of digits that does not begin with 0; an optional fraction, a point
    and one digit or more; an optional exponent, e or E, an optional sign
    and one digit or more.  A 0 followed by a digit is refused at once:
    no text of JSON has a digit right after a value. *)
Definition parse_number (s : jsstring) : option (number * jsstring) :=
  let (neg, s1) :=
    match s with
    | c :: r => if c =? 45 then (true, r) else (false, s)
    | [] => (false, s)
    end in
  match span_digits s1 with
  | ([], _) => None
  | (d :: ds, s2) =>
      if (d =? 48) && negb (match ds with [] => true | _ => false end)
      then None
      else
        let frac :=
          match s2 with
          | c :: r =>
              if c =? 46 then
                match span_digits r with
                | ([], _) => None
                | (fd, s3) => Some (fd, s3)
                end
              else Some ([], s2)
          | [] => Some ([], s2)
          end in
        match frac with
        | None => None
        | Some (fd, s3) =>
            let expo :=
              match s3 with
              | c :: r =>
                  if (c =? 101) || (c =? 69) then
                    let (eneg, r1) :=
                      match r with
                      | sg :: r' =>
                          if sg =? 45 then (true, r')
                          else if sg =? 43 then (false, r')
                          else (false, r)
                      | [] => (false, r)
                      end in
                    match span_digits r1 with
                    | ([], _) => None
                    | (ed, s4) =>
                        Some (if eneg then (- parseInt ed)%Z else parseInt ed,
                              s4)
                    end
                  else Some (0%Z, s3)
              | [] => Some (0%Z, s3)
              end in
            match expo with
            | None => None
            | Some (e, s4) =>
                let m := parseInt ((d :: ds) ++ fd) in
                Some ({| mantissa := if neg then (- m)%Z else m;
                         exp10 := (e - Z.of_nat (List.length fd))%Z |},
                      s4)
            end
        end
  end.

Definition s_true : jsstring := Eval cbv in lit "true".
Definition s_false : jsstring := Eval cbv in lit "false".
Definition s_null : jsstring := Eval cbv in lit "null".

(** Recursive descent over the JSON grammar.  [parse_value] reads one
    value after optional white space; [parse_elements] and
    [parse_members] read what follows "[" and "{" or a comma inside them.
    Every call uses up one unit of [fuel] and at least one character. *)
Fixpoint parse_value (fuel : nat) (s : jsstring) {struct fuel}
  : option (value * jsstring) :=
  match fuel with
  | O => None
  | S f =>
      match skip_ws s with
      | [] => None
      | c :: r =>
          if c =? 34 then
            match parse_string r with
            | Some (str, rest) => Some (JStr str, rest)
            | None => None
            end
          else if c =? 91 then
            match skip_ws r with
            | c' :: r' =>
                if c' =? 93 then Some (JArr [], r')
                else match parse_elements f r with
                     | Some (items, rest) => Some (JArr items, rest)
                     | None => None
                     end
            | [] => None
            end
          else if c =? 123 then
            match skip_ws r with
            | c' :: r' =>
                if c' =? 125 then Some (JObj [], r')
                else match parse_members f r with
                     | Some (ms, rest) => Some (JObj ms, rest)
                     | None => None
                     end
            | [] => None
            end
          else if c =? 116 then
            match strip_prefix s_true (c :: r) with
            | Some rest => Some (JBool true, rest)
            | None => None
            end
          else if c =? 102 then
            match strip_prefix s_false (c :: r) with
            | Some rest => Some (JBool false, rest)
            | None => None
            end
          else if c =? 110 then
            match strip_prefix s_null (c :: r) with
            | Some rest => Some (JNull, rest)
            | None => None
            end
          else
            match parse_number (c :: r) with
            | Some (n, rest) => Some (JNum n, rest)
            | None => None
            end
      end
  end

with parse_elements (fuel : nat) (s : jsstring) {struct fuel}
  : option (list value * jsstring) :=
  match fuel with
  | O => None
  | S f =>
      match parse_value f s with
      | None => None
      | Some (v, rest) =>
          match skip_ws rest with
          | c :: r =>
              if c =? 93 then Some ([v], r)
              else if c =? 44 then
                match parse_elements f r with
                | Some (vs, rest') => Some (v :: vs, rest')
                | None => None
                end
              else None
          | [] => None
          end
      end
  end

with parse_members (fuel : nat) (s : jsstring) {struct fuel}
  : option (list (jsstring * value) * jsstring) :=
  match fuel with
  | O => None
  | S f =>
      match skip_ws s with
      | q :: r0 =>
          if q =? 34 then
            match parse_string r0 with
            | None => None
            | Some (key, r1) =>
                match skip_ws r1 with
                | col :: r2 =>
                    if col =? 58 then
                      match parse_value f r2 with
                      | None => None
                      | Some (v, rest) =>
                          match skip_ws rest with
                          | c :: r =>
                              if c =? 125 then Some ([(key, v)], r)
                              else if c =? 44 then
                                match parse_members f r with
                                | Some (ms, rest') =>
                                    Some ((key, v) :: ms, rest')
                                | None => None
                                end
                              else None
                          | [] => None
                          end
                      end
                    else None
                | [] => None
                end
            end
          else None
      | [] => None
      end
  end.

(** [JSON.parse(text)]: one value, white space around it and nothing
    else; [None] is the SyntaxError.  The fuel is more than the parsers
    can use on [text]: more of it gives the same result
    ([JsonProofs.JSON_parse_fuel]). *)
Definition JSON_parse (text : jsstring) : option value :=
  match parse_value (2 * List.length text + 2) text with
  | Some (v, rest) =>
      match skip_ws rest with
      | [] => Some v
      | _ :: _ => None
      end
  | None => None
  end.

(** The double nearest to a number is 0 when its mantissa is 0 or its
    size is at most 2^-1075, half the least positive double. *)
Definition is_zero (n : number) : bool :=
  ((mantissa n =? 0)
   || ((exp10 n <? 0)
       && (Z.abs (mantissa n) * 2 ^ 1075 <=? 10 ^ (- exp10 n))))%Z.

(** ToBoolean. *)
Definition truthy (v : value) : bool :=
  match v with
  | JUndefined | JNull => false
  | JBool b => b
  | JNum n => negb (is_zero n)
  | JStr s => match s with [] => false | _ => true end
  | JArr _ | JObj _ => true
  end.

(** The last member of an object with key [k]: a later duplicate of a
    key replaces an earlier one. *)
Fixpoint lookup (k : jsstring) (ms : list (jsstring * value)) : option value :=
  match ms with
  | [] => None
  | (k', v) :: ms' =>
      match lookup k ms' with
      | Some v' => Some v'
      | None => if jseqb k k' then Some v else None
      end
  end.

Definition of_nat (n : nat) : value :=
  JNum {| mantissa := Z.of_nat n; exp10 := 0 |}.

Definition s_length : jsstring := Eval cbv in lit "length".

(** [v.k] for the property names the script reads: "length", "file",
    "line" and "comment".  The prototypes define none of the last three,
    and "length" for arrays and strings only.  [None] is the TypeError of
    reading a property of [null] or [undefined]. *)
Definition get (v : value) (k : jsstring) : option value :=
  match v with
  | JUndefined | JNull => None
  | JBool _ | JNum _ => Some JUndefined
  | JStr s => Some (if jseqb k s_length then of_nat (List.length s)
                    else JUndefined)
  | JArr items => Some (if jseqb k s_length then of_nat (List.length items)
                        else JUndefined)
  | JObj ms => Some (match lookup k ms with Some x => x | None => JUndefined end)
  end.

End Json.

(* ================================================================== *)
(** ** Conversion of a value to a string: [ToString] *)
(* ================================================================== *)

Module Conversion.

Import JsString Json.
Local Open Scope Z_scope.

(** *** The Number value of a literal

    [JSON.parse] gives a number literal the double nearest to what it
    denotes, ties going to the even significand; a literal too large
    gives [Infinity], one too small gives 0.  A double is 0, or
    [m * 2 ^ e] with a sign, where [2^52 <= m < 2^53] and [e <= 971], or
    [0 < m < 2^52] and [e = -1074]; or it is infinite. *)
Inductive double :=
| Zero
| Finite (negative : bool) (m e : Z)
| Infinite (negative : bool).

(** The double nearest to [p / q], for [p] and [q] above 0.  [e1] is the
    exponent that brings [p / q] into the range of the significands, or
    one more. *)
Definition nearest (negative : bool) (p q : Z) : double :=
  let e1 := Z.log2 p - Z.log2 q - 52 in
  let below :=
    if 0 <=? e1 then p / (q * 2 ^ e1) <? 2 ^ 52
    else (p * 2 ^ (- e1)) / q <? 2 ^ 52 in
  let e := Z.max (-1074) (if below then e1 - 1 else e1) in
  let a := if 0 <=? e then p else p * 2 ^ (- e) in
  let b := if 0 <=? e then q * 2 ^ e else q in
  let m0 := a / b in
  let r := a mod b in
  let m := if 2 * r <? b then m0
           else if b <? 2 * r then m0 + 1
           else if Z.even m0 then m0 else m0 + 1 in
  if m =? 0 then Zero
  else if m =? 2 ^ 53
       then (if 971 <? e + 1 then Infinite negative
             else Finite negative (2 ^ 52) (e + 1))
       else (if 971 <? e then Infinite negative else Finite negative m e).

Definition to_double (n : number) : double :=
  if mantissa n =? 0 then Zero
  else if 0 <=? exp10 n
       then nearest (mantissa n <? 0) (Z.abs (mantissa n) * 10 ^ exp10 n) 1
       else nearest (mantissa n <? 0) (Z.abs (mantissa n)) (10 ^ (- exp10 n)).

Definition double_eqb (x y : double) : bool :=
  match x, y with
  | Zero, Zero => true
  | Finite s m e, Finite s' m' e' => Bool.eqb s s' && (m =? m') && (e =? e')
  | Infinite s, Infinite s' => Bool.eqb s s'
  | _, _ => false
  end.

(** *** [Number::toString], radix 10 *)

(** The decimal digits of an integer that is not negative. *)
Fixpoint digits_from (fuel : nat) (n : Z) (acc : jsstring) : jsstring :=
  match fuel with
  | O => acc
  | S f =>
      let acc' := (48 + Z.to_N (n mod 10))%N :: acc in
      if n <? 10 then acc' else digits_from f (n / 10) acc'
  end.

Definition decimal (n : Z) : jsstring :=
  digits_from (S (Z.to_nat (Z.log2 n))) n [].

(** [m * 2 ^ e / 10 ^ t] as a fraction of two integers. *)
Definition scaled (m e t : Z) : Z * Z :=
  (m * 2 ^ Z.max e 0 * 10 ^ Z.max (- t) 0, 2 ^ Z.max (- e) 0 * 10 ^ Z.max t 0).

(** [m * 2 ^ e < 10 ^ c] *)
Definition below_pow10 (m e c : Z) : bool :=
  let (a, b) := scaled m e c in a <? b.

(** The [n] with [10 ^ (n - 1) <= m * 2 ^ e < 10 ^ n]; [c0] is within one
    of it. *)
Definition magnitude (m e : Z) : Z :=
  let c0 := (Z.log2 m + e) * 1233 / 4096 in
  if below_pow10 m e (c0 - 1) then c0 - 1
  else if below_pow10 m e c0 then c0
  else if below_pow10 m e (c0 + 1) then c0 + 1
  else c0 + 2.

(** The integers [s] and [n] of [Number::toString]: [s] has [k] digits,
    [s * 10 ^ (n - k)] is read back as the double [m * 2 ^ e], and [k] is
    as small as can be; of two such [s], the one nearer the double.  For
    a given [k] only the two multiples of [10 ^ (n - k)] around the
    double need be tried; 17 digits always suffice. *)
Fixpoint shortest (fuel : nat) (k m e n : Z) : Z * Z :=
  let t := n - k in
  let (a, b) := scaled m e t in
  let lo := a / b in
  let hi := lo + 1 in
  let ok s :=
    double_eqb (nearest false (s * 10 ^ Z.max t 0) (10 ^ Z.max (- t) 0))
               (Finite false m e) in
  let lo_nearer :=
    (2 * (a mod b) <? b) || ((2 * (a mod b) =? b) && Z.even lo) in
  let found :=
    if ok lo && ok hi then Some (if lo_nearer then lo else hi)
    else if ok lo then Some lo
    else if ok hi then Some hi
    else None in
  match found, fuel with
  | Some s, _ => if s =? 10 ^ k then (10 ^ (k - 1), n + 1) else (s, n)
  | None, S f => shortest f (k + 1) m e n
  | None, O => (lo, n)
  end.

Definition zeros (n : Z) : jsstring := repeat 48%N (Z.to_nat n).

(** The digits laid out: as an integer, with a decimal point, after
    "0.", or with an exponent. *)
Definition positive_toString (m e : Z) : jsstring :=
  let (s, n) := shortest 20 1 m e (magnitude m e) in
  let ds := decimal s in
  let k := Z.of_nat (List.length ds) in
  if (k <=? n) && (n <=? 21) then ds ++ zeros (n - k)
  else if (0 <? n) && (n <=? 21)
       then firstn (Z.to_nat n) ds ++ 46%N :: skipn (Z.to_nat n) ds
  else if (-6 <? n) && (n <=? 0) then 48%N :: 46%N :: zeros (- n) ++ ds
  else
    let ex := n - 1 in
    let sign := if ex <? 0 then 45%N else 43%N in
    match ds with
    | [d] => d :: 101%N :: sign :: decimal (Z.abs ex)
    | d :: rest => d :: 46%N :: rest ++ 101%N :: sign :: decimal (Z.abs ex)
    | [] => []
    end.

Definition Number_toString (x : double) : jsstring :=
  match x with
  | Zero => [48%N]
  | Finite negative m e =>
      (if negative then [45%N] else []) ++ positive_toString m e
  | Infinite negative =>
      (if negative then [45%N] else []) ++ lit "Infinity"
  end.

(** *** [ToString]

    [None] is the TypeError of an object that cannot be converted.  An
    object built by [JSON.parse] is converted by the [toString] of
    [Object.prototype], unless a member of its own is named "toString":
    that member is no function, the [valueOf] that is tried next gives no
    primitive value either, and the conversion throws.  An array is
    converted by [join]: its elements converted in turn, [null] to the
    empty string, with commas between them. *)
Definition s_toString : jsstring := Eval cbv in lit "toString".
Definition s_object : jsstring := Eval cbv in lit "[object Object]".
Fixpoint ToString (v : value) : option jsstring :=
  match v with
  | JUndefined => Some (lit "undefined")
  | JNull => Some (lit "null")
  | JBool true => Some (lit "true")
  | JBool false => Some (lit "false")
  | JNum n => Some (Number_toString (to_double n))
  | JStr s => Some s
  | JArr items =>
      (fix join (l : list value) : option jsstring :=
         let element x :=
           match x with
           | JUndefined | JNull => Some []
           | _ => ToString x
           end in
         match l with
         | [] => Some []
         | [x] => element x
         | x :: l' =>
             match element x, join l' with
             | Some a, Some b => Some (a ++ 44%N :: b)
             | _, _ => None
             end
         end) items
  | JObj members =>
      match lookup s_toString members with
      | Some _ => None
      | None => Some s_object
      end
  end.

End Conversion.

(* ================================================================== *)
(** ** The response sanitizer: the cleaning of the model's output *)
(* ================================================================== *)

Module Sanitizer.

Import JsString.
Local Open Scope N_scope.

(** [s.replace(/pat/g, "")] for a pattern [pat] of literal characters,
    not empty: the occurrences of [pat] found from left to right, each
    search starting where the last occurrence ended, are left out.
    [skip] is the number of characters of the current occurrence still to
    leave out. *)
Fixpoint removeAll_from (pat : jsstring) (skip : nat) (s : jsstring)
  : jsstring :=
  match s with
  | [] => []
  | c :: s' =>
      match skip with
      | S k => removeAll_from pat k s'
      | O =>
          if startsWith s pat
          then removeAll_from pat (List.length pat - 1) s'
          else c :: removeAll_from pat 0 s'
      end
  end.

Definition removeAll (pat s : jsstring) : jsstring := removeAll_from pat 0 s.

Definition fence_json : jsstring := Eval cbv in lit "```json".
Definition fence : jsstring := Eval cbv in lit "```".

(** What [String.prototype.trim] removes: WhiteSpace and LineTerminator
    code points. *)
Definition is_space (c : char) : bool :=
  (c =? 9) || (c =? 10) || (c =? 11) || (c =? 12) || (c =? 13) || (c =? 32)
  || (c =? 160) || (c =? 5760) || ((8192 <=? c) && (c <=? 8202))
  || (c =? 8232) || (c =? 8233) || (c =? 8239) || (c =? 8287)
  || (c =? 12288) || (c =? 65279).

Fixpoint trimStart (s : jsstring) : jsstring :=
  match s with
  | c :: s' => if is_space c then trimStart s' else s
  | [] => []
  end.

Definition trim (s : jsstring) : jsstring :=
  rev (trimStart (rev (trimStart s))).

(** [inlineResponse.replace(/```json/g, "").replace(/```/g, "").trim()] *)
Definition clean (s : jsstring) : jsstring :=
  trim (removeAll fence (removeAll fence_json s)).

(** Model output [s] between fenced-code markers, the opening one with
    its language tag, with white space [ws1] and [ws2] (a newline, as a
    rule) between the markers and [s]. *)
Definition fenced (ws1 s ws2 : jsstring) : jsstring :=
  fence_json ++ ws1 ++ s ++ ws2 ++ fence.

End Sanitizer.

(* ================================================================== *)
(** ** The review orchestrator: [main] and the top level of the script *)
(* ================================================================== *)

Module Orchestrator.

Import JsString Json Conversion Sanitizer.
Local Open Scope N_scope.

(** A thrown value: the rejection of an awaited request (a network
    failure, an error status, a response of another shape), or an error
    of the language. *)
Inductive error :=
| RequestFailed (detail : jsstring)
| TypeError
| SyntaxError.

Inductive result (A : Type) :=
| Ok (a : A)
| Throw (e : error).
Arguments Ok {A} a.
Arguments Throw {A} e.

(** The two output formats appended to the review prompt, and the two
    credentials of the text-generation calls. *)
Inductive format := inlineFormat | summaryFormat.
Inductive key := GEMINI_API_KEY | GEMINI_API_KEY_2.

(** An entry of [pulls.listFiles]; [patch] is absent for a binary file. *)
Record file := { filename : jsstring; patch : option jsstring }.

(** A comment of the review that is created: [path] is [c.file],
    [position] is [c.line], and [body] is the text of the template: a
    light-bulb sign, a space and [c.comment] converted to a string. *)
Record review_comment := { path : value; position : value; body : jsstring }.

Inductive request :=
| ListFiles
| Generate (f : format) (fileDiffs : jsstring) (k : key)
| GetPull
| CreateReview (commit_id : jsstring) (comments : list review_comment)
| CreateComment (body : jsstring).

(** What the script writes to the console, by line of the source. *)
Inductive message :=
| FetchingFiles
| NoFilesChanged
| SendingDiff
| GeneratingInline
| GeneratedInline (inlineComments : value)
| InvalidJson
| RawResponse (inlineResponse : option jsstring)
| CreateReviewFailed (err : error)
| AddedInline (n : value)
| NoInlineIssues
| GeneratingSummary
| SummaryPosted
| NoSummary
| SummaryResponse (summaryResponse : option jsstring)
| Completed
| NoPullRequest
| Fatal (err : error).

(** What a run does that can be seen from outside, in order. *)
Inductive event :=
| Log (m : message)        (* console.log *)
| LogError (m : message)   (* console.error *)
| Call (r : request).      (* a request sent to a collaborator *)

(** The surroundings of a run: the event payload, the environment, and
    what each collaborator answers.  The script sends each request at
    most once per run. *)
Record world := {
  prNumber : option Z;
  env_REVIEW_MODE : option jsstring;
  listFiles : result (list file);
  generate : format -> jsstring -> key -> result (option jsstring);
  getPull : result jsstring;
  createReview : jsstring -> list review_comment -> result unit;
  createComment : jsstring -> result unit
}.

(** Computations that log, send requests and may throw. *)
Definition M (A : Type) : Type := (list event * result A)%type.

Definition ret {A} (a : A) : M A := ([], Ok a).

Definition bind {A B} (m : M A) (k : A -> M B) : M B :=
  match m with
  | (t, Ok a) => (t ++ fst (k a), snd (k a))
  | (t, Throw e) => (t, Throw e)
  end.

Definition emit (e : event) : M unit := ([e], Ok tt).

Definition lift {A} (r : result A) : M A := ([], r).

(** [try { m } catch (err) { h err }] *)
Definition try_catch {A} (m : M A) (h : error -> M A) : M A :=
  match m with
  | (t, Throw e) => (t ++ fst (h e), snd (h e))
  | (t, Ok a) => (t, Ok a)
  end.

Notation "x <- m ;; k" := (bind m (fun x => k))
  (at level 61, m at next level, right associativity).
Notation "m ;; k" := (bind m (fun _ => k))
  (at level 61, right associativity).

(** [await] of a request: the request goes out, and its answer comes
    back or is thrown. *)
Definition await {A} (r : request) (answer : result A) : M A :=
  emit (Call r) ;; lift answer.

(** [callGemini(promptText, apiKey)]; the prompt is the fixed review
    prompt, the format [f] and [fileDiffs]. *)
Definition callGemini (w : world) (f : format) (fileDiffs : jsstring) (k : key)
  : M (option jsstring) :=
  await (Generate f fileDiffs k) (generate w f fileDiffs k).

Definition s_File : jsstring := Eval cbv in LF :: lit "File: ".

(** One round of the loop that builds [fileDiffs]. *)
Definition add_diff (fileDiffs : jsstring) (f : file) : jsstring :=
  match patch f with
  | Some ((_ :: _) as p) => fileDiffs ++ s_File ++ filename f ++ LF :: p ++ [LF]
  | _ => fileDiffs
  end.

Definition s_full : jsstring := Eval cbv in lit "full".
Definition s_inline : jsstring := Eval cbv in lit "inline".
Definition s_summary : jsstring := Eval cbv in lit "summary".

(** [process.env.REVIEW_MODE || "full"] *)
Definition REVIEW_MODE (w : world) : jsstring :=
  match env_REVIEW_MODE w with
  | Some ((_ :: _) as m) => m
  | _ => s_full
  end.

Definition inline_requested (w : world) : bool :=
  jseqb (REVIEW_MODE w) s_inline || jseqb (REVIEW_MODE w) s_full.

Definition summary_requested (w : world) : bool :=
  jseqb (REVIEW_MODE w) s_summary || jseqb (REVIEW_MODE w) s_full.

(** [JSON.parse] of the cleaned response; an absent response is cleaned
    to [undefined], which [JSON.parse] refuses. *)
Definition parse_response (inlineResponse : option jsstring) : result value :=
  match inlineResponse with
  | None => Throw SyntaxError
  | Some s =>
      match JSON_parse (clean s) with
      | Some v => Ok v
      | None => Throw SyntaxError
      end
  end.

(** The sanitizer: the [try ... catch] around the parse.  Its value is
    [inlineComments]. *)
Definition sanitize (inlineResponse : option jsstring) : M value :=
  try_catch
    (v <- lift (parse_response inlineResponse) ;;
     emit (Log (GeneratedInline v)) ;;
     ret v)
    (fun _ =>
       emit (LogError InvalidJson) ;;
       emit (Log (RawResponse inlineResponse)) ;;
       ret (JArr [])).

Definition property (v : value) (k : jsstring) : result value :=
  match get v k with
  | Some x => Ok x
  | None => Throw TypeError
  end.

Definition s_file : jsstring := Eval cbv in lit "file".
Definition s_line : jsstring := Eval cbv in lit "line".
Definition s_comment : jsstring := Eval cbv in lit "comment".

(** A value put into a template literal. *)
Definition template (v : value) : result jsstring :=
  match ToString v with
  | Some s => Ok s
  | None => Throw TypeError
  end.

(** The light-bulb sign and a space. *)
Definition s_bulb : jsstring := [55357; 56481; 32].

(** The function mapped over [inlineComments]. *)
Definition to_comment (c : value) : result review_comment :=
  match property c s_file, property c s_line, property c s_comment with
  | Ok f, Ok l, Ok b =>
      match template b with
      | Ok text => Ok {| path := f; position := l; body := s_bulb ++ text |}
      | Throw e => Throw e
      end
  | _, _, _ => Throw TypeError
  end.

Fixpoint map_result {A B} (f : A -> result B) (l : list A) : result (list B) :=
  match l with
  | [] => Ok []
  | x :: l' =>
      match f x with
      | Throw e => Throw e
      | Ok y => match map_result f l' with
                | Throw e => Throw e
                | Ok ys => Ok (y :: ys)
                end
      end
  end.

(** [inlineComments.map(...)]: only an array has a [map] to call. *)
Definition map_comments (inlineComments : value)
  : result (list review_comment) :=
  match inlineComments with
  | JArr items => map_result to_comment items
  | _ => Throw TypeError
  end.

(** The [try ... catch] around the posting of the inline review. *)
Definition post_inline (w : world) (inlineComments : value) : M unit :=
  try_catch
    (commitSha <- await GetPull (getPull w) ;;
     comments <- lift (map_comments inlineComments) ;;
     await (CreateReview commitSha comments) (createReview w commitSha comments))
    (fun err =>
       emit (LogError (CreateReviewFailed err)) ;;
       emit (Log (GeneratedInline inlineComments))).

(** The inline review block of [main].  The notice of the comments
    added is a template literal with [inlineComments.length] in it, which
    is converted to a string after the [try ... catch]. *)
Definition inline_review (w : world) (fileDiffs : jsstring) : M unit :=
  emit (Log GeneratingInline) ;;
  inlineResponse <- callGemini w inlineFormat fileDiffs GEMINI_API_KEY ;;
  inlineComments <- sanitize inlineResponse ;;
  n <- lift (property inlineComments s_length) ;;
  if truthy n
  then post_inline w inlineComments ;;
       lift (template n) ;;
       emit (Log (AddedInline n))
  else emit (Log NoInlineIssues).

(** The heading of the summary comment: a robot sign, the title in bold
    and an empty line. *)
Definition summary_heading : jsstring :=
  Eval cbv in [55358; 56598] ++ lit " **Gemini Summary Review**" ++ [LF; LF].

(** The summary review block of [main]; a response is truthy when it is
    there and not empty. *)
Definition summary_review (w : world) (fileDiffs : jsstring) : M unit :=
  emit (Log GeneratingSummary) ;;
  summaryResponse <- callGemini w summaryFormat fileDiffs GEMINI_API_KEY_2 ;;
  match summaryResponse with
  | Some ((_ :: _) as text) =>
      await (CreateComment (summary_heading ++ text))
            (createComment w (summary_heading ++ text)) ;;
      emit (Log SummaryPosted)
  | _ =>
      emit (Log NoSummary) ;;
      emit (Log (SummaryResponse summaryResponse))
  end.

(** [main()] *)
Definition main (w : world) : M unit :=
  emit (Log FetchingFiles) ;;
  files <- await ListFiles (listFiles w) ;;
  (match files with
   | [] => emit (Log NoFilesChanged)
   | _ :: _ => ret tt
   end) ;;
  let fileDiffs := fold_left add_diff files [] in
  emit (Log SendingDiff) ;;
  (if inline_requested w then inline_review w fileDiffs else ret tt) ;;
  (if summary_requested w then summary_review w fileDiffs else ret tt) ;;
  emit (Log Completed).

(** [!prNumber]: no number in the event payload, or 0. *)
Definition no_prNumber (w : world) : bool :=
  match prNumber w with
  | None => true
  | Some n => (n =? 0)%Z
  end.

(** A run of the script: what it does and its exit status.  Without a
    pull request number the script exits before [main] is called; an
    error that leaves [main] is logged by the handler at the end of the
    script, which exits with status 1. *)
Definition run (w : world) : list event * Z :=
  if no_prNumber w then ([LogError NoPullRequest], 1%Z)
  else
    match main w with
    | (t, Ok _) => (t, 0%Z)
    | (t, Throw e) => (t ++ [LogError (Fatal e)], 1%Z)
    end.

(** *** What the specification says of a run *)

Definition is_post (e : event) : bool :=
  match e with
  | Call (CreateReview _ _) | Call (CreateComment _) => true
  | _ => false
  end.

Definition is_inline_post (e : event) : bool :=
  match e with
  | Call GetPull | Call (CreateReview _ _) => true
  | _ => false
  end.

Definition is_generate (f : format) (e : event) : bool :=
  match e, f with
  | Call (Generate inlineFormat _ _), inlineFormat => true
  | Call (Generate summaryFormat _ _), summaryFormat => true
  | _, _ => false
  end.

Definition is_call (e : event) : bool :=
  match e with Call _ => true | _ => false end.

(** The text that a run of [w] sends with its prompts. *)
Definition fileDiffs_of (w : world) : jsstring :=
  match listFiles w with
  | Ok files => fold_left add_diff files []
  | Throw _ => []
  end.

(** Specification, sections 4.3 and 5, for the inline generation call: its
    failure stays with inline mode; the process goes on to the summary
    mode that was asked for and ends with status 0. *)
Definition inline_generation_failure_is_local (w : world) : Prop :=
  no_prNumber w = false ->
  (exists files, listFiles w = Ok files) ->
  inline_requested w = true -> summary_requested w = true ->
  (exists e, generate w inlineFormat (fileDiffs_of w) GEMINI_API_KEY = Throw e) ->
  existsb (is_generate summaryFormat) (fst (run w)) = true
  /\ snd (run w) <> 1%Z.

(** Specification, scenario C: with no changed file the run posts
    nothing, logs the notice and exits with status 0. *)
Definition empty_files_no_op (w : world) : Prop :=
  no_prNumber w = false ->
  listFiles w = Ok [] ->
  existsb is_post (fst (run w)) = false
  /\ In (Log NoFilesChanged) (fst (run w))
  /\ snd (run w) = 0%Z.

(** Specification, section 4.2: the sanitizer returns a list, the parsed
    one or the empty one. *)
Definition sanitizer_returns_list (inlineResponse : option jsstring) : Prop :=
  exists items, snd (sanitize inlineResponse) = Ok (JArr items).

(** *** The blocks of [main], in closed form *)

(** The value and the log of the sanitizer. *)
Definition sanitized (inlineResponse : option jsstring) : value :=
  match parse_response inlineResponse with
  | Ok v => v
  | Throw _ => JArr []
  end.

Definition sanitize_log (inlineResponse : option jsstring) : list event :=
  match parse_response inlineResponse with
  | Ok v => [Log (GeneratedInline v)]
  | Throw _ => [LogError InvalidJson; Log (RawResponse inlineResponse)]
  end.

(** What each review block does first. *)
Definition inline_head (fd : jsstring) : list event :=
  [Log GeneratingInline; Call (Generate inlineFormat fd GEMINI_API_KEY)].

Definition summary_head (fd : jsstring) : list event :=
  [Log GeneratingSummary; Call (Generate summaryFormat fd GEMINI_API_KEY_2)].

(** What [main] logs before the first review block. *)
Definition preamble (files : list file) : list event :=
  Log FetchingFiles :: Call ListFiles
  :: match files with [] => [Log NoFilesChanged] | _ :: _ => [] end
  ++ [Log SendingDiff].

(** *** Worlds of the examples *)

Definition a_file : file :=
  {| filename := lit "a.ts"; patch := Some (lit "@@ -1 +1 @@") |}.

Definition quiet_world : world :=
  {| prNumber := Some 7%Z;
     env_REVIEW_MODE := None;
     listFiles := Ok [a_file];
     generate := fun f _ _ =>
       match f with
       | inlineFormat => Ok (Some (lit "[]"))
       | summaryFormat => Ok None
       end;
     getPull := Ok (lit "c0ffee");
     createReview := fun _ _ => Ok tt;
     createComment := fun _ => Ok tt |}.

(** The inline generation call fails. *)
Definition inline_generation_down : world :=
  {| prNumber := Some 7%Z;
     env_REVIEW_MODE := None;
     listFiles := Ok [a_file];
     generate := fun f _ _ =>
       match f with
       | inlineFormat => Throw (RequestFailed (lit "503"))
       | summaryFormat => Ok (Some (lit "Fine."))
       end;
     getPull := Ok (lit "c0ffee");
     createReview := fun _ _ => Ok tt;
     createComment := fun _ => Ok tt |}.

(** No changed file, and a model that answers all the same. *)
Definition no_files_world : world :=
  {| prNumber := Some 7%Z;
     env_REVIEW_MODE := None;
     listFiles := Ok [];
     generate := fun f _ _ =>
       match f with
       | inlineFormat => Ok (Some (lit "[]"))
       | summaryFormat => Ok (Some (lit "Nothing to review."))
       end;
     getPull := Ok (lit "c0ffee");
     createReview := fun _ _ => Ok tt;
     createComment := fun _ => Ok tt |}.

(** The model's inline output is [response]; posting the review fails. *)
Definition inline_world (response : option jsstring) : world :=
  {| prNumber := Some 7%Z;
     env_REVIEW_MODE := None;
     listFiles := Ok [a_file];
     generate := fun f _ _ =>
       match f with
       | inlineFormat => Ok response
       | summaryFormat => Ok (Some (lit "Fine."))
       end;
     getPull := Ok (lit "c0ffee");
     createReview := fun _ _ => Throw (RequestFailed (lit "422"));
     createComment := fun _ => Ok tt |}.

(** The truncated output of scenario D: an opening bracket and a string,
    the closing bracket missing. *)
Definition truncated_output : jsstring :=
  Eval cbv in 91 :: 34 :: lit "not json" ++ [34].

(** An array of one comment. *)
Definition one_comment : jsstring :=
  Eval cbv in
    lit "[{" ++ 34 :: lit "file" ++ 34 :: lit ":" ++ 34 :: lit "a.ts" ++ 34
    :: lit "," ++ 34 :: lit "line" ++ 34 :: lit ":2," ++ 34 :: lit "comment"
    ++ 34 :: lit ":" ++ 34 :: lit "ok" ++ 34 :: lit "}]".

End Orchestrator.

(* ================================================================== *)
(** ** Further notions about patches *)
(* ================================================================== *)

Module PatchSpec.

Import JsString Resolver ResolverSpec.

(** A line holds no newline. *)
Definition no_newline (line : jsstring) : Prop := ~ In LF line.

(** Number of newlines of a text. *)
Definition newlines (s : jsstring) : nat := count_occ N.eq_dec s LF.

(** A patch of one hunk: a hunk header first, and no other hunk header
    that declares a start. *)
Definition single_hunk (lines : list jsstring) : Prop :=
  match lines with
  | h :: rest => (exists s, kind_of h = KHeader (Some s)) /\ headerless rest
  | [] => False
  end.

(** A hunk with two added lines and a removed line between them. *)
Definition two_added : jsstring :=
  unlines [lit "@@ -1 +1,3 @@"; lit " a"; lit "+b"; lit "-x"; lit "+c"].

End PatchSpec.

(* ================================================================== *)
(** ** Further notions about texts *)
(* ================================================================== *)

Module TextSpec.

Import JsString.
Local Open Scope N_scope.

(** [pat] occurs in [s]. *)
Definition occurs (pat s : jsstring) : Prop :=
  exists pre post, s = pre ++ pat ++ post.

(** Number of characters [c] at the head of [s]. *)
Fixpoint leading (c : char) (s : jsstring) : nat :=
  match s with
  | x :: s' => if x =? c then S (leading c s') else O
  | [] => O
  end.

Definition backquote : char := 96.

End TextSpec.

(* ================================================================== *)
(** ** Further notions about a run *)
(* ================================================================== *)

Module RunSpec.

Import JsString Json Conversion Sanitizer Orchestrator.
Local Open Scope N_scope.

(** The six requests of the script. *)
Inductive call_kind :=
| KListFiles
| KGenerateInline
| KGetPull
| KCreateReview
| KGenerateSummary
| KCreateComment.

Definition kind_of_request (r : request) : call_kind :=
  match r with
  | ListFiles => KListFiles
  | Generate inlineFormat _ _ => KGenerateInline
  | Generate summaryFormat _ _ => KGenerateSummary
  | GetPull => KGetPull
  | CreateReview _ _ => KCreateReview
  | CreateComment _ => KCreateComment
  end.

(** The requests of a run, in order, by kind. *)
Definition call_kinds (t : list event) : list call_kind :=
  flat_map (fun e => match e with
                     | Call r => [kind_of_request r]
                     | _ => []
                     end) t.

(** What the inline block and the summary block can request. *)
Definition inline_calls : list (list call_kind) :=
  [[]; [KGenerateInline]; [KGenerateInline; KGetPull];
   [KGenerateInline; KGetPull; KCreateReview]].

Definition summary_calls : list (list call_kind) :=
  [[]; [KGenerateSummary]; [KGenerateSummary; KCreateComment]].

(** Events that only the inline block makes, and events that only the
    summary block makes. *)
Definition of_inline (e : event) : bool :=
  match e with
  | Call (Generate inlineFormat _ _) | Call GetPull | Call (CreateReview _ _)
  | Log GeneratingInline | Log (GeneratedInline _) | Log (RawResponse _)
  | Log (AddedInline _) | Log NoInlineIssues
  | LogError InvalidJson | LogError (CreateReviewFailed _) => true
  | _ => false
  end.

Definition of_summary (e : event) : bool :=
  match e with
  | Call (Generate summaryFormat _ _) | Call (CreateComment _)
  | Log GeneratingSummary | Log SummaryPosted | Log NoSummary
  | Log (SummaryResponse _) => true
  | _ => false
  end.

(** The two review blocks as [main] runs them. *)
Definition inline_block (w : world) (fd : jsstring) : M unit :=
  if inline_requested w then inline_review w fd else ret tt.

Definition summary_block (w : world) (fd : jsstring) : M unit :=
  if summary_requested w then summary_review w fd else ret tt.

(** The posting of the inline review fails with [e]: the pull request
    cannot be fetched, or the comments cannot be built, or the review is
    refused. *)
Definition posting_fails (w : world) (inlineComments : value) (e : error)
  : Prop :=
  getPull w = Throw e
  \/ (exists sha, getPull w = Ok sha /\ map_comments inlineComments = Throw e)
  \/ (exists sha cs, getPull w = Ok sha /\ map_comments inlineComments = Ok cs
                     /\ createReview w sha cs = Throw e).

(** Nothing fails in a run that sends the diff text [fd]: in each mode
    that is asked for the generation call answers; the length of the
    value parsed from the inline answer can be read and, when it is
    truthy, written into the notice; and the summary comment, when there
    is a summary text, is created. *)
Definition inline_unfailing (w : world) (fd : jsstring) : Prop :=
  exists resp n,
    generate w inlineFormat fd GEMINI_API_KEY = Ok resp
    /\ property (sanitized resp) s_length = Ok n
    /\ (truthy n = true -> exists text, template n = Ok text).

Definition summary_unfailing (w : world) (fd : jsstring) : Prop :=
  exists r,
    generate w summaryFormat fd GEMINI_API_KEY_2 = Ok r
    /\ forall text, r = Some text -> text <> [] ->
                    createComment w (summary_heading ++ text) = Ok tt.

Definition unfailing (w : world) (fd : jsstring) : Prop :=
  (inline_requested w = true -> inline_unfailing w fd)
  /\ (summary_requested w = true -> summary_unfailing w fd).

(** [file.patch] is truthy. *)
Definition has_patch (f : file) : bool :=
  match patch f with
  | Some (_ :: _) => true
  | _ => false
  end.

(** What one file adds to [fileDiffs]. *)
Definition diff_of (f : file) : jsstring := add_diff [] f.

(** [c.k] for an element [c] that is not [null]; a member that is not
    there reads as [undefined]. *)
Definition field (c : value) (k : jsstring) : value :=
  match get c k with
  | Some x => x
  | None => JUndefined
  end.

Definition nullish (v : value) : bool :=
  match v with
  | JUndefined | JNull => true
  | _ => false
  end.

(** The review comment made of an element [c] of the model's list:
    [c.file] and [c.line] as they are, and [c.comment], converted to a
    string, after the light-bulb sign. *)
Definition made_of (c : value) (rc : review_comment) : Prop :=
  nullish c = false
  /\ path rc = field c s_file
  /\ position rc = field c s_line
  /\ exists text, ToString (field c s_comment) = Some text
                  /\ body rc = s_bulb ++ text.

(** *** What [callGemini] returns for a response body

    [res.data.candidates?.[0]?.content?.parts?.[0]?.text]: reading
    [candidates] of a body that is [null] or [undefined] throws; every
    later link is optional and gives [undefined] when its object is
    [null] or [undefined].  (None of the names read is a property of the
    prototypes of strings, arrays, numbers or booleans.) *)

Definition s_candidates : jsstring := Eval cbv in lit "candidates".
Definition s_content : jsstring := Eval cbv in lit "content".
Definition s_parts : jsstring := Eval cbv in lit "parts".
Definition s_text : jsstring := Eval cbv in lit "text".
Definition s_0 : jsstring := Eval cbv in lit "0".

(** [v?.[0]] *)
Definition first_of (v : value) : value :=
  match v with
  | JArr (x :: _) => x
  | JStr (c :: _) => JStr [c]
  | JObj ms => match lookup s_0 ms with Some x => x | None => JUndefined end
  | _ => JUndefined
  end.

Definition response_text (data : value) : result value :=
  match get data s_candidates with
  | None => Throw TypeError
  | Some candidates =>
      Ok (field (first_of (field (field (first_of candidates) s_content)
                             s_parts))
            s_text)
  end.

(** A response body with one candidate of one part, of text [t]. *)
Definition body_with_text (t : value) : value :=
  JObj [(s_candidates,
         JArr [JObj [(s_content,
                      JObj [(s_parts, JArr [JObj [(s_text, t)]])])]])].

(** *** More worlds *)

(** The list of changed files cannot be fetched. *)
Definition files_down : world :=
  {| prNumber := Some 7%Z;
     env_REVIEW_MODE := None;
     listFiles := Throw (RequestFailed (lit "404"));
     generate := fun _ _ _ => Ok None;
     getPull := Ok [];
     createReview := fun _ _ => Ok tt;
     createComment := fun _ => Ok tt |}.

(** A mode written with a capital letter. *)
Definition odd_mode_world : world :=
  {| prNumber := Some 7%Z;
     env_REVIEW_MODE := Some (lit "Inline");
     listFiles := Ok [a_file];
     generate := fun _ _ _ => Ok (Some (lit "[]"));
     getPull := Ok [];
     createReview := fun _ _ => Ok tt;
     createComment := fun _ => Ok tt |}.

(** The summary comment is refused. *)
Definition comment_refused : world :=
  {| prNumber := Some 7%Z;
     env_REVIEW_MODE := Some (lit "summary");
     listFiles := Ok [a_file];
     generate := fun _ _ _ => Ok (Some (lit "Fine."));
     getPull := Ok [];
     createReview := fun _ _ => Ok tt;
     createComment := fun _ => Throw (RequestFailed (lit "403")) |}.

(** The pull request cannot be fetched; the model has one comment. *)
Definition pull_down : world :=
  {| prNumber := Some 7%Z;
     env_REVIEW_MODE := Some (lit "inline");
     listFiles := Ok [a_file];
     generate := fun _ _ _ => Ok (Some one_comment);
     getPull := Throw (RequestFailed (lit "500"));
     createReview := fun _ _ => Ok tt;
     createComment := fun _ => Ok tt |}.

(** All goes well; the model has one comment. *)
Definition review_world : world :=
  {| prNumber := Some 7%Z;
     env_REVIEW_MODE := Some (lit "inline");
     listFiles := Ok [a_file];
     generate := fun _ _ _ => Ok (Some one_comment);
     getPull := Ok (lit "c0ffee");
     createReview := fun _ _ => Ok tt;
     createComment := fun _ => Ok tt |}.

(** An object whose "length" is an object with a member "toString" of
    its own: the length is truthy and cannot be converted to a string. *)
Definition odd_length : jsstring :=
  Eval cbv in
    lit "{" ++ 34 :: lit "length" ++ 34 :: lit ":{" ++ 34 :: lit "toString"
    ++ 34 :: lit ":1}}".

Definition odd_length_world : world :=
  {| prNumber := Some 7%Z;
     env_REVIEW_MODE := None;
     listFiles := Ok [a_file];
     generate := fun f _ _ =>
       match f with
       | inlineFormat => Ok (Some odd_length)
       | summaryFormat => Ok (Some (lit "Fine."))
       end;
     getPull := Ok (lit "c0ffee");
     createReview := fun _ _ => Ok tt;
     createComment := fun _ => Ok tt |}.

End RunSpec.

(* ================================================================== *)
(** ** Properties of prefixes and digit runs *)
(* ================================================================== *)

Module JsStringProofs.

Import JsString.
Local Open Scope N_scope.

Lemma strip_prefix_app pat : forall x, strip_prefix pat (pat ++ x) = Some x.
Proof.
  induction pat as [|p pat IH]; intros x; simpl; [reflexivity|].
  now rewrite N.eqb_refl.
Qed.

Lemma strip_prefix_Some pat : forall s r,
  strip_prefix pat s = Some r -> s = pat ++ r.
Proof.
  induction pat as [|p pat IH]; intros s r H; simpl in *.
  - now injection H as ->.
  - destruct s as [|c s]; [discriminate|].
    destruct (N.eqb_spec p c) as [<-|]; [|discriminate].
    f_equal. now apply IH.
Qed.

(** A prefix found in [s ++ x] lies within [s], or [s] is a part of the
    pattern and [x] begins with the rest of it. *)
Lemma strip_prefix_app_inv pat : forall s x r,
  strip_prefix pat (s ++ x) = Some r ->
  (exists r', strip_prefix pat s = Some r' /\ r = r' ++ x)
  \/ (exists pat2, pat = s ++ pat2 /\ pat2 <> []
                   /\ strip_prefix pat2 x = Some r).
Proof.
  induction pat as [|p pat IH]; intros s x r H.
  - simpl in H. injection H as <-. left. exists s. auto.
  - destruct s as [|c s].
    + right. exists (p :: pat). repeat split; [discriminate|exact H].
    + simpl in H |- *. destruct (N.eqb_spec p c) as [<-|]; [|discriminate].
      destruct (IH _ _ _ H) as [(r' & E & ->)|(pat2 & -> & N & E)].
      * left. eauto.
      * right. exists pat2. auto.
Qed.

Lemma strip_prefix_incl pat s r :
  strip_prefix pat s = Some r -> incl pat s.
Proof.
  intros H. rewrite (strip_prefix_Some _ _ _ H). apply incl_appl, incl_refl.
Qed.

Lemma span_digits_app d : forall r,
  forallb is_digit d = true ->
  match r with c :: _ => is_digit c = false | [] => True end ->
  span_digits (d ++ r) = (d, r).
Proof.
  induction d as [|c d IH]; intros r Hd Hr; simpl in *.
  - destruct r as [|x r]; [reflexivity|]. simpl in *. now rewrite Hr.
  - apply andb_prop in Hd as [Hc Hd]. rewrite Hc, IH by assumption.
    reflexivity.
Qed.

Lemma span_digits_spec s : forall d r,
  span_digits s = (d, r) ->
  s = d ++ r /\ forallb is_digit d = true
  /\ match r with c :: _ => is_digit c = false | [] => True end.
Proof.
  induction s as [|c s IH]; intros d r H; simpl in H.
  - injection H as <- <-. auto.
  - destruct (is_digit c) eqn:E.
    + destruct (span_digits s) as [d' r'] eqn:E'. injection H as <- <-.
      destruct (IH _ _ eq_refl) as (-> & Hd & Hr).
      simpl. rewrite E. auto.
    + injection H as <- <-. simpl. auto.
Qed.

End JsStringProofs.

(* ================================================================== *)
(** ** The fuel of the JSON parser *)
(* ================================================================== *)

Module JsonProofs.

Import JsString Json JsStringProofs.
Local Open Scope nat_scope.

Lemma skip_ws_length s : List.length (skip_ws s) <= List.length s.
Proof.
  induction s as [|c s IH]; simpl; [lia|].
  destruct (is_json_ws c); simpl; lia.
Qed.

Lemma skip_ws_cons s c r :
  skip_ws s = c :: r -> List.length r < List.length s.
Proof.
  intros H. pose proof (skip_ws_length s) as L. rewrite H in L.
  simpl in L. lia.
Qed.

Lemma push_length c r str rest :
  push c r = Some (str, rest) ->
  exists str', r = Some (str', rest).
Proof.
  destruct r as [[str' rest']|]; simpl; [|discriminate].
  intros H. injection H as <- <-. eauto.
Qed.

Lemma parse_string_length s : forall str rest,
  parse_string s = Some (str, rest) -> List.length rest < List.length s.
Proof.
  remember (List.length s) as n eqn:Hn. revert s Hn.
  induction n as [n IH] using lt_wf_ind. intros s Hn str rest H.
  destruct s as [|c r]; [discriminate|]. cbn [parse_string] in H.
  destruct (c =? 34)%N.
  { injection H as <- <-. subst n. simpl. lia. }
  destruct (c =? 92)%N.
  - destruct r as [|e r1]; [discriminate|].
    destruct (e =? 117)%N.
    + destruct r1 as [|h1 [|h2 [|h3 [|h4 r2]]]]; try discriminate.
      destruct (hex4 h1 h2 h3 h4); [|discriminate].
      apply push_length in H as [str' H].
      apply (IH (List.length r2)) in H; [|subst n; simpl; lia|reflexivity].
      subst n. simpl. lia.
    + destruct (simple_escape e); [|discriminate].
      apply push_length in H as [str' H].
      apply (IH (List.length r1)) in H; [|subst n; simpl; lia|reflexivity].
      subst n. simpl. lia.
  - destruct (c <? 32)%N; [discriminate|].
    apply push_length in H as [str' H].
    apply (IH (List.length r)) in H; [|subst n; simpl; lia|reflexivity].
    subst n. simpl. lia.
Qed.

Lemma span_digits_length s d r :
  span_digits s = (d, r) ->
  List.length s = List.length d + List.length r.
Proof.
  intros H. destruct (span_digits_spec _ _ _ H) as (-> & _).
  apply length_app.
Qed.

Lemma parse_number_length s n rest :
  parse_number s = Some (n, rest) -> List.length rest < List.length s.
Proof.
  unfold parse_number.
  set (sg := match s with
             | c :: r => if (c =? 45)%N then (true, r) else (false, s)
             | [] => (false, s)
             end).
  assert (Hsg : List.length (snd sg) <= List.length s).
  { subst sg. destruct s as [|c r]; simpl; [lia|].
    destruct (c =? 45)%N; simpl; lia. }
  destruct sg as [neg s1]. simpl in Hsg.
  destruct (span_digits s1) as [[|d ds] s2] eqn:E1; [discriminate|].
  apply span_digits_length in E1. simpl in E1.
  destruct ((d =? 48)%N && _); [discriminate|].
  match goal with
  | |- match ?x with Some _ => _ | None => _ end = _ -> _ => set (frac := x)
  end.
  assert (Hfrac : forall fd s3,
             frac = Some (fd, s3) -> List.length s3 <= List.length s2).
  { subst frac. intros fd s3 H.
    destruct s2 as [|c r]; [injection H as <- <-; lia|].
    destruct (c =? 46)%N; [|injection H as <- <-; lia].
    destruct (span_digits r) as [[|f0 fd'] s3'] eqn:E; [discriminate|].
    injection H as <- <-. apply span_digits_length in E. simpl in *. lia. }
  clearbody frac. destruct frac as [[fd s3]|]; [|discriminate].
  specialize (Hfrac _ _ eq_refl).
  match goal with
  | |- match ?x with Some _ => _ | None => _ end = _ -> _ => set (expo := x)
  end.
  assert (Hexp : forall e s4,
             expo = Some (e, s4) -> List.length s4 <= List.length s3).
  { subst expo. intros e s4 H.
    destruct s3 as [|c r]; [injection H as <- <-; lia|].
    destruct ((c =? 101) || (c =? 69))%N; [|injection H as <- <-; lia].
    match type of H with
    | (let (_, _) := ?x in _) = _ => set (sg2 := x) in H
    end.
    assert (Hr1 : List.length (snd sg2) <= List.length r).
    { subst sg2. destruct r as [|sg r']; simpl; [lia|].
      destruct (sg =? 45)%N; simpl; [lia|].
      destruct (sg =? 43)%N; simpl; lia. }
    clearbody sg2. destruct sg2 as [eneg r1]. simpl in Hr1.
    destruct (span_digits r1) as [[|e0 ed] s4'] eqn:E; [discriminate|].
    injection H as <- <-. apply span_digits_length in E. simpl in *. lia. }
  clearbody expo. destruct expo as [[e s4]|]; [|discriminate].
  specialize (Hexp _ _ eq_refl).
  intros H. injection H as <- <-. lia.
Qed.

Lemma strip_prefix_length pat s r :
  strip_prefix pat s = Some r ->
  List.length s = List.length pat + List.length r.
Proof.
  intros H. rewrite (strip_prefix_Some _ _ _ H). apply length_app.
Qed.

(** Each of the three parsers uses up at least one character. *)
Lemma parse_consumes fuel :
  (forall s v rest, parse_value fuel s = Some (v, rest) ->
                    List.length rest < List.length s)
  /\ (forall s vs rest, parse_elements fuel s = Some (vs, rest) ->
                        List.length rest < List.length s)
  /\ (forall s ms rest, parse_members fuel s = Some (ms, rest) ->
                        List.length rest < List.length s).
Proof.
  induction fuel as [|f (IHv & IHe & IHm)];
    [repeat split; intros; discriminate|].
  split; [|split].
  - intros s v rest H. cbn [parse_value] in H.
    destruct (skip_ws s) as [|c r] eqn:Es; [discriminate|].
    apply skip_ws_cons in Es.
    destruct (c =? 34)%N.
    { destruct (parse_string r) as [[str rest']|] eqn:E; [|discriminate].
      injection H as <- <-. apply parse_string_length in E. lia. }
    destruct (c =? 91)%N.
    { destruct (skip_ws r) as [|c' r'] eqn:Er; [discriminate|].
      apply skip_ws_cons in Er.
      destruct (c' =? 93)%N; [injection H as <- <-; lia|].
      destruct (parse_elements f r) as [[items rest']|] eqn:E; [|discriminate].
      injection H as <- <-. apply IHe in E. lia. }
    destruct (c =? 123)%N.
    { destruct (skip_ws r) as [|c' r'] eqn:Er; [discriminate|].
      apply skip_ws_cons in Er.
      destruct (c' =? 125)%N; [injection H as <- <-; lia|].
      destruct (parse_members f r) as [[ms rest']|] eqn:E; [|discriminate].
      injection H as <- <-. apply IHm in E. lia. }
    destruct (c =? 116)%N.
    { destruct (strip_prefix s_true (c :: r)) as [rest'|] eqn:E; [|discriminate].
      injection H as <- <-. apply strip_prefix_length in E. simpl in E. lia. }
    destruct (c =? 102)%N.
    { destruct (strip_prefix s_false (c :: r)) as [rest'|] eqn:E; [|discriminate].
      injection H as <- <-. apply strip_prefix_length in E. simpl in E. lia. }
    destruct (c =? 110)%N.
    { destruct (strip_prefix s_null (c :: r)) as [rest'|] eqn:E; [|discriminate].
      injection H as <- <-. apply strip_prefix_length in E. simpl in E. lia. }
    destruct (parse_number (c :: r)) as [[n rest']|] eqn:E; [|discriminate].
    injection H as <- <-. apply parse_number_length in E. simpl in E. lia.
  - intros s vs rest H. cbn [parse_elements] in H.
    destruct (parse_value f s) as [[v rest']|] eqn:Ev; [|discriminate].
    apply IHv in Ev.
    destruct (skip_ws rest') as [|c r] eqn:Er; [discriminate|].
    apply skip_ws_cons in Er.
    destruct (c =? 93)%N; [injection H as <- <-; lia|].
    destruct (c =? 44)%N; [|discriminate].
    destruct (parse_elements f r) as [[vs' rest'']|] eqn:E; [|discriminate].
    injection H as <- <-. apply IHe in E. lia.
  - intros s ms rest H. cbn [parse_members] in H.
    destruct (skip_ws s) as [|q r0] eqn:Es; [discriminate|].
    apply skip_ws_cons in Es.
    destruct (q =? 34)%N; [|discriminate].
    destruct (parse_string r0) as [[key r1]|] eqn:Ek; [|discriminate].
    apply parse_string_length in Ek.
    destruct (skip_ws r1) as [|col r2] eqn:E1; [discriminate|].
    apply skip_ws_cons in E1.
    destruct (col =? 58)%N; [|discriminate].
    destruct (parse_value f r2) as [[v rest']|] eqn:Ev; [|discriminate].
    apply IHv in Ev.
    destruct (skip_ws rest') as [|c r] eqn:Er; [discriminate|].
    apply skip_ws_cons in Er.
    destruct (c =? 125)%N; [injection H as <- <-; lia|].
    destruct (c =? 44)%N; [|discriminate].
    destruct (parse_members f r) as [[ms' rest'']|] eqn:E; [|discriminate].
    injection H as <- <-. apply IHm in E. lia.
Qed.

(** With fuel beyond twice the length of the text, more fuel changes
    nothing: no refusal of [JSON_parse] is for want of fuel. *)
Lemma parse_fuel_stable fuel :
  (forall s, 2 * List.length s + 1 <= fuel ->
             forall fuel', fuel <= fuel' ->
                           parse_value fuel' s = parse_value fuel s)
  /\ (forall s, 2 * List.length s + 2 <= fuel ->
                forall fuel', fuel <= fuel' ->
                              parse_elements fuel' s = parse_elements fuel s)
  /\ (forall s, 2 * List.length s + 2 <= fuel ->
                forall fuel', fuel <= fuel' ->
                              parse_members fuel' s = parse_members fuel s).
Proof.
  induction fuel as [|f (IHv & IHe & IHm)];
    [repeat split; intros; lia|].
  split; [|split].
  - intros s Hs [|f'] Hf; [lia|]. cbn [parse_value].
    destruct (skip_ws s) as [|c r] eqn:Es; [reflexivity|].
    apply skip_ws_cons in Es.
    destruct (c =? 34)%N; [reflexivity|].
    destruct (c =? 91)%N.
    { destruct (skip_ws r) as [|c' r'] eqn:Er; [reflexivity|].
      destruct (c' =? 93)%N; [reflexivity|].
      rewrite (IHe r) by lia. reflexivity. }
    destruct (c =? 123)%N; [|reflexivity].
    destruct (skip_ws r) as [|c' r'] eqn:Er; [reflexivity|].
    destruct (c' =? 125)%N; [reflexivity|].
    rewrite (IHm r) by lia. reflexivity.
  - intros s Hs [|f'] Hf; [lia|]. cbn [parse_elements].
    rewrite (IHv s) by lia.
    destruct (parse_value f s) as [[v rest']|] eqn:Ev; [|reflexivity].
    apply (proj1 (parse_consumes f)) in Ev.
    destruct (skip_ws rest') as [|c r] eqn:Er; [reflexivity|].
    apply skip_ws_cons in Er.
    destruct (c =? 93)%N; [reflexivity|].
    destruct (c =? 44)%N; [|reflexivity].
    rewrite (IHe r) by lia. reflexivity.
  - intros s Hs [|f'] Hf; [lia|]. cbn [parse_members].
    destruct (skip_ws s) as [|q r0] eqn:Es; [reflexivity|].
    apply skip_ws_cons in Es.
    destruct (q =? 34)%N; [|reflexivity].
    destruct (parse_string r0) as [[key r1]|] eqn:Ek; [|reflexivity].
    apply parse_string_length in Ek.
    destruct (skip_ws r1) as [|col r2] eqn:E1; [reflexivity|].
    apply skip_ws_cons in E1.
    destruct (col =? 58)%N; [|reflexivity].
    rewrite (IHv r2) by lia.
    destruct (parse_value f r2) as [[v rest']|] eqn:Ev; [|reflexivity].
    apply (proj1 (parse_consumes f)) in Ev.
    destruct (skip_ws rest') as [|c r] eqn:Er; [reflexivity|].
    apply skip_ws_cons in Er.
    destruct (c =? 125)%N; [reflexivity|].
    destruct (c =? 44)%N; [|reflexivity].
    rewrite (IHm r) by lia. reflexivity.
Qed.

(** [JSON_parse] is what the grammar gives with any amount of fuel from
    its own upwards. *)
Lemma JSON_parse_fuel text fuel :
  2 * List.length text + 2 <= fuel ->
  parse_value fuel text = parse_value (2 * List.length text + 2) text.
Proof.
  intros H. apply (proj1 (parse_fuel_stable _)); lia.
Qed.

End JsonProofs.

(* ================================================================== *)
(** ** Properties of the resolver *)
(* ================================================================== *)

Module ResolverProofs.

Import JsString Resolver ResolverSpec JsStringProofs.
Local Open Scope Z_scope.

(** *** The loop, line by line *)

Lemma step_kind (L : Z) (st : state) (line : jsstring) :
  step L st line =
  match kind_of line with
  | KAdded =>
      if fileLine st + 1 =? L then Return (S (position st))
      else Continue {| fileLine := fileLine st + 1;
                       position := S (position st) |}
  | k => Continue {| fileLine := advance (fileLine st) k;
                     position := S (position st) |}
  end.
Proof.
  unfold step, kind_of.
  destruct (startsWith line s_atat).
  - destruct (exec line); reflexivity.
  - destruct (startsWith line s_plus); [reflexivity|].
    destruct (startsWith line s_minus); reflexivity.
Qed.

Lemma hit_0 L fl0 l rest :
  hit L fl0 (l :: rest) 0 <-> kind_of l = KAdded /\ fl0 + 1 = L.
Proof.
  unfold hit, fl_before; simpl. split.
  - intros (l' & E & K & F). injection E as <-. auto.
  - intros [K F]. exists l. auto.
Qed.

Lemma hit_S L fl0 l rest i :
  hit L fl0 (l :: rest) (S i) <-> hit L (advance fl0 (kind_of l)) rest i.
Proof. unfold hit, fl_before; simpl. reflexivity. Qed.

Lemma scan_Some lines : forall L st p,
  scan L st lines = Some p ->
  exists i, p = (position st + S i)%nat
            /\ hit L (fileLine st) lines i
            /\ forall j, (j < i)%nat -> ~ hit L (fileLine st) lines j.
Proof.
  induction lines as [|l rest IH]; intros L st p H; simpl in H; [discriminate|].
  rewrite step_kind in H.
  assert (Hgo : forall st',
             fileLine st' = advance (fileLine st) (kind_of l) ->
             position st' = S (position st) ->
             (kind_of l = KAdded -> fileLine st + 1 <> L) ->
             scan L st' rest = Some p ->
             exists i, p = (position st + S i)%nat
                       /\ hit L (fileLine st) (l :: rest) i
                       /\ forall j, (j < i)%nat ->
                                    ~ hit L (fileLine st) (l :: rest) j).
  { intros st' Hf Hp Hn Hs.
    destruct (IH _ _ _ Hs) as (i & -> & Hi & Hmin).
    exists (S i). rewrite Hp, Hf in *. split; [lia|]. split.
    - apply hit_S. exact Hi.
    - intros [|j] Hj.
      + rewrite hit_0. intros [K F]. exact (Hn K F).
      + rewrite hit_S. apply Hmin. lia. }
  destruct (kind_of l) as [[s|]| | |] eqn:K;
    try (eapply Hgo; [ | | | exact H]; simpl; try reflexivity; discriminate).
  destruct (fileLine st + 1 =? L) eqn:E.
  - injection H as <-. exists O. split; [lia|]. split.
    + apply hit_0. split; [exact K|]. now apply Z.eqb_eq.
    + intros j Hj. lia.
  - eapply Hgo; [ | | | exact H]; simpl; try reflexivity.
    intros _. now apply Z.eqb_neq.
Qed.

Lemma scan_None lines : forall L st,
  scan L st lines = None -> forall i, ~ hit L (fileLine st) lines i.
Proof.
  induction lines as [|l rest IH]; intros L st H i.
  - intros (l & E & _). destruct i; discriminate.
  - simpl in H. rewrite step_kind in H.
    assert (Hgo : forall st',
               fileLine st' = advance (fileLine st) (kind_of l) ->
               (kind_of l = KAdded -> fileLine st + 1 <> L) ->
               scan L st' rest = None ->
               ~ hit L (fileLine st) (l :: rest) i).
    { intros st' Hf Hn Hs. destruct i as [|i].
      - rewrite hit_0. intros [K F]. exact (Hn K F).
      - rewrite hit_S, <- Hf. now apply IH. }
    destruct (kind_of l) as [[s|]| | |] eqn:K;
      try (eapply Hgo; [ | | exact H]; simpl; try reflexivity; discriminate).
    destruct (fileLine st + 1 =? L) eqn:E; [discriminate|].
    eapply Hgo; [ | | exact H]; simpl; try reflexivity.
    intros _. now apply Z.eqb_neq.
Qed.

(** The loop, characterised: it returns the position of the first index
    that is a hit, and null when there is none. *)
Lemma scan_first_hit lines L st i :
  hit L (fileLine st) lines i ->
  (forall j, (j < i)%nat -> ~ hit L (fileLine st) lines j) ->
  scan L st lines = Some (position st + S i)%nat.
Proof.
  intros Hi Hmin. destruct (scan L st lines) as [p|] eqn:E.
  - destruct (scan_Some _ _ _ _ E) as (k & -> & Hk & Hkmin).
    destruct (Nat.lt_trichotomy i k) as [Hlt|[->|Hgt]].
    + exfalso. exact (Hkmin _ Hlt Hi).
    + reflexivity.
    + exfalso. exact (Hmin _ Hgt Hk).
  - exfalso. exact (scan_None _ _ _ E i Hi).
Qed.

Lemma hit_bound L fl0 lines i : hit L fl0 lines i -> (i < List.length lines)%nat.
Proof.
  intros (l & E & _). apply nth_error_Some. congruence.
Qed.

(** *** [fileLine] against the numbering of the new file *)

Lemma fl_last_header pre : forall fl0,
  fold_left advance (map kind_of pre) fl0 =
  match last_header pre with
  | Some (h, s) => s - 1 + Z.of_nat (count_new (skipn (S h) pre))
  | None => fl0 + Z.of_nat (count_new pre)
  end.
Proof.
  induction pre as [|l r IH]; intros fl0; simpl.
  - unfold count_new; simpl; lia.
  - rewrite IH. destruct (last_header r) as [[h s]|]; [reflexivity|].
    unfold count_new, in_new_file; simpl.
    destruct (kind_of l) as [[s|]| | |]; simpl; lia.
Qed.


Lemma last_header_headerless ls :
  headerless ls -> last_header ls = None.
Proof.
  induction ls as [|l r IH]; intros H; [reflexivity|]; simpl.
  rewrite IH by (intros x Hx; apply H; now right).
  destruct (kind_of l) as [[s|]| | |] eqn:K; try reflexivity.
  exfalso. apply (H l (or_introl eq_refl) s). exact K.
Qed.

Lemma headerless_firstn ls i : headerless ls -> headerless (firstn i ls).
Proof.
  intros H l Hl. apply H. rewrite <- (firstn_skipn i ls).
  apply in_or_app. now left.
Qed.

Lemma firstn_snoc (ls : list jsstring) : forall i l,
  nth_error ls i = Some l -> firstn (S i) ls = firstn i ls ++ [l].
Proof.
  induction ls as [|x r IH]; intros [|i] l H; simpl in *; try discriminate.
  - now injection H as ->.
  - f_equal. now apply IH.
Qed.

Lemma getDiffPosition_scan c P L :
  getDiffPosition (Some (c :: P)) L = scan L init (split LF (c :: P)).
Proof. reflexivity. Qed.

(** *** The entries of the specification against the kinds of the loop *)









(** The value of [fileLine] at a line is the number of the line under
    the last header above it. *)
Lemma hit_found lines L i : hit L 0 lines i <-> found_at lines L i.
Proof.
  unfold hit, found_at, numbered, fl_before. rewrite fl_last_header.
  destruct (last_header (firstn i lines)) as [[h s]|];
    split; intros (l & E & K & F); exists l; (split; [exact E|]);
    (split; [exact K|]); set (z := Z.of_nat _) in *; clearbody z; lia.
Qed.



Lemma kind_added_plus l :
  kind_of l = KAdded ->
  startsWith l s_plus = true /\ startsWith l s_atat = false
  /\ startsWith l s_minus = false.
Proof.
  unfold kind_of. destruct (startsWith l s_atat) eqn:A; [discriminate|].
  destruct (startsWith l s_plus) eqn:B.
  - intros _. split; [reflexivity|]. split; [reflexivity|].
    destruct l as [|x l]; [reflexivity|].
    unfold startsWith, s_plus, s_minus in *. cbn [strip_prefix] in *.
    destruct (N.eqb_spec 43 x) as [<-|N]; [reflexivity|].
    simpl in B. discriminate B.
  - destruct (startsWith l s_minus); discriminate.
Qed.

(** The four kinds partition the lines. *)
Lemma count_kinds ls :
  List.length ls =
  (count is_header ls + count is_added ls + count is_context ls
   + count is_removed ls)%nat.
Proof.
  unfold count, is_header, is_added, is_context, is_removed.
  induction ls as [|l r IH]; [reflexivity|]; simpl.
  destruct (kind_of l); simpl; lia.
Qed.

Lemma steps_position pre : forall L st st',
  steps L st pre = Continue st' ->
  position st' = (position st + List.length pre)%nat.
Proof.
  induction pre as [|l r IH]; intros L st st' H; simpl in H.
  - injection H as <-. simpl; lia.
  - destruct (step L st l) as [st1|p] eqn:E; [|discriminate].
    rewrite (IH _ _ _ H). simpl.
    assert (position st1 = S (position st)).
    { rewrite step_kind in E.
      destruct (kind_of l) as [[s|]| | |];
        try (injection E as <-; reflexivity).
      destruct (fileLine st + 1 =? L); [discriminate|].
      injection E as <-; reflexivity. }
    lia.
Qed.

Lemma step_position L st line :
  outcome_position (step L st line) = S (position st).
Proof.
  rewrite step_kind.
  destruct (kind_of line) as [[s|]| | |]; try reflexivity.
  destruct (fileLine st + 1 =? L); reflexivity.
Qed.

(** *** The header pattern on the text of a hunk header *)

Lemma exec_match_here s d : match_here s = Some d -> exec s = Some d.
Proof. intros H. destruct s; cbn [exec]; rewrite H; reflexivity. Qed.

Lemma match_here_header a b c rest :
  all_digits a -> (forall b', b = Some b' -> all_digits b') ->
  all_digits c -> no_digit_ahead rest ->
  match_here (header_text a b c rest) = Some c.
Proof.
  intros [Ha Da] Hb [Hc Dc] Hr.
  unfold match_here, header_text.
  change (strip_prefix s_hdr_open (s_hdr_open ++ ?x)) with (Some x).
  cbv beta iota.
  assert (Hc' : span_digits (c ++ rest) = (c, rest))
    by now apply span_digits_app.
  destruct b as [b'|].
  - destruct (Hb b' eq_refl) as [Hb' Db].
    rewrite (span_digits_app a) by (assumption || reflexivity).
    destruct a as [|a0 a]; [congruence|].
    cbn [app]. change ((c_comma =? c_comma)%N) with true. cbv iota.
    rewrite (span_digits_app b') by (assumption || reflexivity).
    destruct b' as [|b0 b']; [congruence|].
    change (strip_prefix s_sp_plus (s_sp_plus ++ ?x)) with (Some x).
    cbv beta iota. rewrite Hc'.
    destruct c; [congruence|reflexivity].
  - rewrite (span_digits_app a) by (assumption || reflexivity).
    destruct a as [|a0 a]; [congruence|].
    change (strip_prefix s_sp_plus ([] ++ s_sp_plus ++ ?x)) with (Some x).
    cbv beta iota. simpl. rewrite Hc'.
    destruct c; [congruence|reflexivity].
Qed.

(** Conversely, what one attempt of the pattern accepts is the text of a
    hunk header, and the group it captures is the start of the new
    range: [match_here] accepts the language of the pattern, no more. *)
Lemma match_here_sound s d :
  match_here s = Some d ->
  exists a b rest,
    s = header_text a b d rest
    /\ all_digits a /\ (forall b', b = Some b' -> all_digits b')
    /\ all_digits d /\ no_digit_ahead rest.
Proof.
  unfold match_here, header_text, all_digits, no_digit_ahead.
  destruct (strip_prefix s_hdr_open s) as [s1|] eqn:E1; [|discriminate].
  apply strip_prefix_Some in E1. subst s.
  destruct (span_digits s1) as [a s2] eqn:Ea.
  destruct (span_digits_spec _ _ _ Ea) as (-> & Da & Ra).
  destruct a as [|a0 a]; [discriminate|].
  assert (Hfin : forall s3,
             match strip_prefix s_sp_plus s3 with
             | Some s4 =>
                 match span_digits s4 with
                 | ([], _) => None
                 | (d1, _) => Some d1
                 end
             | None => None
             end = Some d ->
             exists rest, s3 = s_sp_plus ++ d ++ rest
                          /\ (d <> [] /\ forallb is_digit d = true)
                          /\ match rest with
                             | c :: _ => is_digit c = false
                             | [] => True
                             end).
  { intros s3 H.
    destruct (strip_prefix s_sp_plus s3) as [s4|] eqn:E4; [|discriminate].
    apply strip_prefix_Some in E4. subst s3.
    destruct (span_digits s4) as [d' rest] eqn:Ed.
    destruct (span_digits_spec _ _ _ Ed) as (-> & Dd & Rd).
    destruct d' as [|d0 d']; [discriminate|]. injection H as <-.
    exists rest. repeat split; [discriminate|exact Dd|exact Rd]. }
  intros H.
  destruct s2 as [|c t].
  - apply Hfin in H. destruct H as (rest & E & _). discriminate E.
  - destruct (N.eqb_spec c c_comma) as [->|Hc].
    + destruct (span_digits t) as [b t'] eqn:Eb.
      destruct (span_digits_spec _ _ _ Eb) as (-> & Db & Rb).
      destruct b as [|b0 b].
      * apply Hfin in H. destruct H as (rest & E & _). discriminate E.
      * apply Hfin in H. destruct H as (rest & -> & Hd & Hr).
        exists (a0 :: a), (Some (b0 :: b)), rest.
        split; [reflexivity|].
        split; [split; [discriminate|exact Da]|].
        split; [|split; assumption].
        intros b' E. injection E as <-. split; [discriminate|exact Db].
    + apply Hfin in H. destruct H as (rest & -> & Hd & Hr).
      exists (a0 :: a), None, rest.
      split; [reflexivity|].
      split; [split; [discriminate|exact Da]|].
      split; [discriminate|]. split; assumption.
Qed.

(** [exec] finds the leftmost place where the pattern matches. *)
Lemma exec_leftmost s d :
  exec s = Some d ->
  exists pre s',
    s = pre ++ s' /\ match_here s' = Some d
    /\ forall pre1 x, pre = pre1 ++ x -> x <> [] ->
                      match_here (x ++ s') = None.
Proof.
  induction s as [|c s IH]; cbn [exec].
  - destruct (match_here []) eqn:E; [|discriminate].
    intros H. injection H as ->. exists [], [].
    split; [reflexivity|]. split; [exact E|].
    intros pre1 x Ex Nx. destruct pre1; destruct x; try discriminate;
      congruence.
  - destruct (match_here (c :: s)) as [d0|] eqn:E.
    + intros H. injection H as ->. exists [], (c :: s).
      split; [reflexivity|]. split; [exact E|].
      intros pre1 x Ex Nx. destruct pre1; destruct x; try discriminate;
        congruence.
    + intros H. destruct (IH H) as (pre & s' & -> & Hm & Hmin).
      exists (c :: pre), s'. split; [reflexivity|]. split; [exact Hm|].
      intros [|c1 pre1] x Ex Nx.
      * simpl in Ex. subst x. exact E.
      * injection Ex as <- Ex. exact (Hmin _ _ Ex Nx).
Qed.

Lemma kind_of_header a b c rest :
  all_digits a -> (forall b', b = Some b' -> all_digits b') ->
  all_digits c -> no_digit_ahead rest ->
  kind_of (header_text a b c rest) = KHeader (Some (parseInt c)).
Proof.
  intros Ha Hb Hc Hr. unfold kind_of.
  rewrite (exec_match_here _ _ (match_here_header _ _ _ _ Ha Hb Hc Hr)).
  reflexivity.
Qed.

(** *** The start of a new range *)

Lemma parseInt_from acc d :
  forallb is_digit d = true -> 0 <= acc ->
  0 <= fold_left (fun a c => 10 * a + (Z.of_N c - 48)) d acc.
Proof.
  revert acc. induction d as [|c d IH]; intros acc Hd Ha; [exact Ha|].
  cbn [forallb] in Hd. apply andb_prop in Hd as [Hc Hd].
  cbn [fold_left]. apply IH; [exact Hd|].
  unfold is_digit in Hc. apply andb_prop in Hc as [H1 H2].
  apply N.leb_le in H1. lia.
Qed.

Lemma exec_digits s d : exec s = Some d -> forallb is_digit d = true.
Proof.
  intros H. destruct (exec_leftmost _ _ H) as (pre & s' & _ & Hm & _).
  destruct (match_here_sound _ _ Hm) as (a & b & rest & _ & _ & _ & Hd & _).
  exact (proj2 Hd).
Qed.

Lemma header_start_nonneg l s : kind_of l = KHeader (Some s) -> 0 <= s.
Proof.
  unfold kind_of. destruct (startsWith l s_atat); [|
    destruct (startsWith l s_plus); [discriminate|];
    destruct (startsWith l s_minus); discriminate].
  destruct (exec l) as [d|] eqn:E; [|discriminate].
  intros H. injection H as <-. apply parseInt_from; [|lia].
  exact (exec_digits _ _ E).
Qed.

(** *** The loop on the numbers of the script *)

Lemma round_exact z : Z.abs z <= 2 ^ 53 -> Doubles.round z = Doubles.Finite z.
Proof.
  intros H. unfold Doubles.round.
  destruct (Z.abs z <? 2 ^ 53) eqn:E; [reflexivity|].
  apply Z.ltb_ge in E.
  assert (Hz : z = 2 ^ 53 \/ z = - 2 ^ 53) by lia.
  destruct Hz as [-> | ->]; reflexivity.
Qed.

(** The two loops go the same way from a state whose [fileLine] is
    exact and stays so over the lines ahead. *)
Lemma scan_agree lines : forall L st,
  -1 <= fileLine st ->
  fileLine st + Z.of_nat (List.length lines) <= 2 ^ 53 ->
  (forall l s, In l lines -> kind_of l = KHeader (Some s) ->
               s + Z.of_nat (List.length lines) <= 2 ^ 53) ->
  Doubles.scan (Doubles.Finite L)
    {| Doubles.fileLine := Doubles.Finite (fileLine st);
       Doubles.position := position st |} lines
  = scan L st lines.
Proof.
  induction lines as [|l lines IH]; intros L st Hlo Hhi Hh; [reflexivity|].
  cbn [List.length] in Hhi.
  assert (Hh' : forall l' s, In l' lines -> kind_of l' = KHeader (Some s) ->
                             s + Z.of_nat (List.length lines) <= 2 ^ 53).
  { intros l' s Hin K. specialize (Hh l' s (or_intror Hin) K).
    cbn [List.length] in Hh. lia. }
  assert (Hadd : Doubles.add1 (Doubles.Finite (fileLine st))
                 = Doubles.Finite (fileLine st + 1)).
  { cbn [Doubles.add1]. apply round_exact. lia. }
  cbn [scan Doubles.scan]. unfold step, Doubles.step.
  cbn [Doubles.fileLine Doubles.position].
  destruct (startsWith l s_atat) eqn:A.
  - destruct (exec l) as [d|] eqn:E.
    + assert (K : kind_of l = KHeader (Some (parseInt d)))
        by (unfold kind_of; now rewrite A, E).
      pose proof (header_start_nonneg _ _ K) as H0.
      pose proof (Hh l _ (or_introl eq_refl) K) as H1.
      cbn [List.length] in H1.
      unfold Doubles.parseInt. rewrite round_exact by lia.
      cbn [Doubles.sub1]. rewrite round_exact by lia.
      apply (IH L {| fileLine := parseInt d - 1;
                     position := S (position st) |});
        cbn [fileLine]; [lia|lia|exact Hh'].
    + apply (IH L {| fileLine := fileLine st; position := S (position st) |});
        cbn [fileLine]; [lia|lia|exact Hh'].
  - destruct (startsWith l s_plus).
    + rewrite Hadd. cbn [Doubles.strict_eq].
      destruct (fileLine st + 1 =? L); [reflexivity|].
      apply (IH L {| fileLine := fileLine st + 1;
                     position := S (position st) |});
        cbn [fileLine]; [lia|lia|exact Hh'].
    + destruct (startsWith l s_minus); cbn [negb].
      * apply (IH L {| fileLine := fileLine st;
                       position := S (position st) |});
          cbn [fileLine]; [lia|lia|exact Hh'].
      * rewrite Hadd.
        apply (IH L {| fileLine := fileLine st + 1;
                       position := S (position st) |});
          cbn [fileLine]; [lia|lia|exact Hh'].
Qed.

(** On a patch whose line numbers stay within 2^53 the loop on integers
    returns what the loop on the numbers of the script returns. *)
Lemma integers_agree (P : jsstring) (L : Z) :
  exact_numbers (split LF P) ->
  Doubles.getDiffPosition (Some P) (Doubles.Finite L)
  = getDiffPosition (Some P) L.
Proof.
  intros [Hl Hh]. destruct P as [|c P']; [reflexivity|].
  exact (scan_agree (split LF (c :: P')) L init ltac:(simpl; lia)
           ltac:(simpl fileLine; lia) Hh).
Qed.

Lemma doubles_step_position L st line :
  match Doubles.step L st line with
  | Doubles.Continue st' =>
      Doubles.position st' = S (Doubles.position st)
  | Doubles.Return p => p = S (Doubles.position st)
  end.
Proof.
  unfold Doubles.step.
  destruct (startsWith line s_atat); [destruct (exec line); reflexivity|].
  destruct (startsWith line s_plus).
  - destruct (Doubles.strict_eq _ L); reflexivity.
  - destruct (startsWith line s_minus); reflexivity.
Qed.

Lemma doubles_scan_prefix pre : forall L st rest,
  Doubles.scan L st pre = None ->
  exists fl,
    Doubles.scan L st (pre ++ rest)
    = Doubles.scan L
        {| Doubles.fileLine := fl;
           Doubles.position := (Doubles.position st + List.length pre)%nat |}
        rest.
Proof.
  induction pre as [|l pre IH]; intros L st rest H.
  - exists (Doubles.fileLine st). cbn [app List.length].
    rewrite Nat.add_0_r. now destruct st.
  - cbn [Doubles.scan app] in *.
    pose proof (doubles_step_position L st l) as Hp.
    destruct (Doubles.step L st l) as [st1|p]; [|discriminate].
    destruct (IH L st1 rest H) as [fl Hfl]. exists fl. rewrite Hfl, Hp.
    cbn [List.length]. now rewrite Nat.add_succ_r.
Qed.

Lemma doubles_step_header L st a b c tail :
  all_digits a -> (forall b', b = Some b' -> all_digits b') ->
  all_digits c -> no_digit_ahead tail ->
  Doubles.step L st (header_text a b c tail)
  = Doubles.Continue
      {| Doubles.fileLine := Doubles.sub1 (Doubles.parseInt c);
         Doubles.position := S (Doubles.position st) |}.
Proof.
  intros Ha Hb Hc Hr. unfold Doubles.step.
  rewrite (exec_match_here _ _ (match_here_header _ _ _ _ Ha Hb Hc Hr)).
  reflexivity.
Qed.

(** *** The claims about the resolver *)


(** It fails as well on a patch that begins with its hunk header and has
    the marker of a file without a final newline: in [patch_with_marker]
    target line 1 corresponds to the added line "+b", and the resolver,
    which takes the marker for a context line, returns null. *)
Lemma resolver_contract_fails_with_marker :
  corresponds (split LF patch_with_marker) 1 3
  /\ Doubles.getDiffPosition (Some patch_with_marker) (Doubles.Finite 1)
     = None
  /\ ~ resolver_contract patch_with_marker 1.
Proof.
  assert (C : corresponds (split LF patch_with_marker) 1 3)
    by (exists (lit "+b"); repeat split).
  split; [exact C|]. split; [reflexivity|].
  intros [H _]. destruct H as (p & Hp & _); [now exists 3%nat|].
  vm_compute in Hp. discriminate Hp.
Qed.

(** And it fails beyond 2^53, where the numbers of the script are not
    the integers: in [patch_beyond_2_53] the added line is line 2^53 + 1
    of the new file; the resolver does not find that target, and finds
    target 2^53, the number of no line of the patch. *)
Lemma resolver_contract_fails_beyond_2_53 :
  well_formed (split LF Doubles.patch_beyond_2_53)
  /\ Doubles.getDiffPosition (Some Doubles.patch_beyond_2_53)
       (Doubles.Finite (2 ^ 53)) = Some 2%nat
  /\ getDiffPosition (Some Doubles.patch_beyond_2_53) (2 ^ 53) = None
  /\ ~ resolver_contract Doubles.patch_beyond_2_53 (2 ^ 53 + 1).
Proof.
  split; [|split; [|split]].
  - split; [eexists; reflexivity|].
    repeat (constructor; [discriminate|]). constructor.
  - vm_compute. reflexivity.
  - vm_compute. reflexivity.
  - intros [H _]. destruct H as (p & Hp & _).
    + exists 1%nat. exists (lit "+x"). repeat split.
    + vm_compute in Hp. discriminate Hp.
Qed.



(** Scenario B: in the patch of scenario A, new-file line 1 is a context
    line, and the resolver returns null. *)
Example scenarioB : getDiffPosition (Some scenarioA) 1 = None.
Proof. reflexivity. Qed.

(** C2: on the patch of scenario A and target line 2 the resolver
    returns 3, not 2: the hunk header itself is counted as position 1, so
    the added line, two lines below the header, gets position 3. *)
Theorem scenarioA_position :
  getDiffPosition (Some scenarioA) 2 = Some 3%nat
  /\ nth_error (split LF scenarioA) 0 = Some (lit "@@ -1,2 +1,3 @@")
  /\ nth_error (split LF scenarioA) 2 = Some (lit "+line2").
Proof. repeat split. Qed.

(** C6, as stated, fails: the added line of [patch_with_removal] is
    returned as position 4, the removed line above it counted; without
    the removed line its offset would be 3. *)
Lemma removed_line_advances_position :
  getDiffPosition (Some patch_with_removal) 2 = Some 4%nat
  /\ DiffPosition_excluding_removed (split LF patch_with_removal) 3 = 3%nat
  /\ ~ position_excludes_removed patch_with_removal 2.
Proof.
  split; [reflexivity|]. split; [reflexivity|].
  intros H. specialize (H 4%nat eq_refl). vm_compute in H. discriminate H.
Qed.

(** The position returned is the index, from 1, of the line found. *)
Lemma getDiffPosition_index (P : jsstring) (L : Z) (p : nat) :
  getDiffPosition (Some P) L = Some p ->
  (1 <= p <= List.length (split LF P))%nat
  /\ exists l, nth_error (split LF P) (p - 1) = Some l /\ kind_of l = KAdded.
Proof.
  destruct P as [|c P']; [discriminate|]. rewrite getDiffPosition_scan.
  intros H. destruct (scan_Some _ _ _ _ H) as (i & -> & Hi & _).
  pose proof (hit_bound _ _ _ _ Hi) as Hb. simpl Nat.add.
  replace (S i - 1)%nat with i by lia. split; [lia|].
  destruct Hi as (l & E & K & _). eauto.
Qed.

(** C6 (amended): every position returned by the resolver is a 1-based
    offset counted from the first line of the patch (its first hunk
    header, when the patch begins with one) in which every line counts:
    hunk headers, added, context and removed lines alike.  The position
    is the number of lines of the four kinds up to and including the line
    it names, and that line is an added line. *)
Theorem position_counts_every_line (P : jsstring) (L : Z) (p : nat) :
  getDiffPosition (Some P) L = Some p ->
  let upto := firstn p (split LF P) in
  p = (count is_header upto + count is_added upto + count is_context upto
       + count is_removed upto)%nat
  /\ (1 <= p)%nat
  /\ exists l, nth_error (split LF P) (p - 1) = Some l /\ is_added l = true.
Proof.
  intros H upto. destruct (getDiffPosition_index _ _ _ H) as [Hb (l & E & K)].
  split; [|split; [lia|]].
  - rewrite <- count_kinds. unfold upto. rewrite length_firstn. lia.
  - exists l. split; [exact E|]. unfold is_added. now rewrite K.
Qed.

(** In [patch_with_removal] position 4 is the number of all its lines. *)
Lemma position_counts_every_line_witness :
  getDiffPosition (Some patch_with_removal) 2 = Some 4%nat
  /\ 4%nat = (count is_header (split LF patch_with_removal)
              + count is_added (split LF patch_with_removal)
              + count is_context (split LF patch_with_removal)
              + count is_removed (split LF patch_with_removal))%nat.
Proof.
  split; [reflexivity|].
  exact (proj1 (position_counts_every_line patch_with_removal 2 4 eq_refl)).
Defined.

(** C7, as stated, fails in its last part: the script reads the start
    of a new range with [parseInt], as a double.  A header whose new
    range starts at 2^53 + 1 sets [fileLine] to 2^53 - 1, not to 2^53:
    the start is rounded to 2^53 first. *)
Lemma header_start_rounded :
  Doubles.step (Doubles.Finite 1) Doubles.init
    (lit "@@ -1 +9007199254740993 @@")
  = Doubles.Continue {| Doubles.fileLine := Doubles.Finite (2 ^ 53 - 1);
                        Doubles.position := 1 |}
  /\ parseInt (lit "9007199254740993") - 1 = 2 ^ 53
  /\ ~ header_seeds_start_minus_1.
Proof.
  split; [vm_compute; reflexivity|]. split; [reflexivity|].
  intros H.
  specialize (H (Doubles.Finite 1) Doubles.init (lit "1") None
                (lit "9007199254740993") (lit " @@")).
  assert (D : forall d, d <> [] -> forallb is_digit d = true -> all_digits d)
    by (intros d H1 H2; split; assumption).
  vm_compute in H.
  assert (E : Doubles.Continue
                {| Doubles.fileLine := Doubles.Finite 9007199254740991;
                   Doubles.position := 1 |}
              = Doubles.Continue
                {| Doubles.fileLine := Doubles.Finite 9007199254740992;
                   Doubles.position := 1 |}).
  { apply H.
    - split; [discriminate|reflexivity].
    - discriminate.
    - split; [discriminate|reflexivity].
    - reflexivity. }
  discriminate E.
Qed.

(** C7 (amended): every line of the patch, of whatever kind, increments
    [position] by exactly 1: at each line the loop either returns the
    position it had plus 1 or goes on with it; so [position] is
    cumulative, the number of lines taken so far whatever hunk headers
    are among them; and a hunk header sets [fileLine], whatever it was,
    to the start of its new range as [parseInt] reads it, minus 1, on
    the numbers of the script: the start minus 1 for every start up to
    2^53.  Hence, for a patch whose line numbers stay within 2^53, the
    resolver returns [p] exactly when line [p] of the whole patch is the
    first added line whose number, counted on from the start of the last
    hunk header above it, is the target. *)
Theorem position_cumulative_fileLine_reseeded (L : Doubles.num) :
  (forall st line rest,
      Doubles.scan L st (line :: rest) = Some (S (Doubles.position st))
      \/ exists fl,
          Doubles.scan L st (line :: rest)
          = Doubles.scan L
              {| Doubles.fileLine := fl;
                 Doubles.position := S (Doubles.position st) |} rest)
  /\ (forall st pre rest,
      Doubles.scan L st pre = None ->
      exists fl,
        Doubles.scan L st (pre ++ rest)
        = Doubles.scan L
            {| Doubles.fileLine := fl;
               Doubles.position :=
                 (Doubles.position st + List.length pre)%nat |} rest)
  /\ (forall st a b c tail rest,
      all_digits a -> (forall b', b = Some b' -> all_digits b') ->
      all_digits c -> no_digit_ahead tail ->
      Doubles.scan L st (header_text a b c tail :: rest)
      = Doubles.scan L
          {| Doubles.fileLine := Doubles.sub1 (Doubles.parseInt c);
             Doubles.position := S (Doubles.position st) |} rest
      /\ (parseInt c <= 2 ^ 53 ->
          Doubles.sub1 (Doubles.parseInt c) = Doubles.Finite (parseInt c - 1)))
  /\ (forall (P : jsstring) z p,
      P <> [] -> L = Doubles.Finite z -> exact_numbers (split LF P) ->
      (Doubles.getDiffPosition (Some P) L = Some p <->
       (1 <= p)%nat
       /\ found_at (split LF P) z (p - 1)
       /\ forall j, (j < p - 1)%nat -> ~ found_at (split LF P) z j)).
Proof.
  split; [|split; [|split]].
  - intros st line rest. cbn [Doubles.scan].
    pose proof (doubles_step_position L st line) as Hp.
    destruct (Doubles.step L st line) as [[fl pos]|p].
    + right. exists fl. cbn [Doubles.position] in Hp. now rewrite Hp.
    + left. now rewrite Hp.
  - intros st pre rest. apply doubles_scan_prefix.
  - intros st a b c tail rest Ha Hb Hc Hr. split.
    + cbn [Doubles.scan].
      now rewrite (doubles_step_header L st a b c tail Ha Hb Hc Hr).
    + intros Hle.
      assert (H0 : 0 <= parseInt c)
        by (apply parseInt_from; [exact (proj2 Hc)|lia]).
      unfold Doubles.parseInt. rewrite round_exact by lia.
      cbn [Doubles.sub1]. apply round_exact. lia.
  - intros P z p HP -> Hx. rewrite (integers_agree P z Hx).
    destruct P as [|c P']; [congruence|].
    rewrite getDiffPosition_scan. set (lines := split LF (c :: P')).
    split.
    + intros H. destruct (scan_Some _ _ _ _ H) as (i & -> & Hi & Hmin).
      simpl Nat.add. replace (S i - 1)%nat with i by lia.
      split; [lia|]. split; [now apply hit_found|].
      intros j Hj Hf. apply hit_found in Hf. exact (Hmin j Hj Hf).
    + intros (Hp & Hf & Hmin).
      rewrite (scan_first_hit lines z init (p - 1)).
      * simpl. f_equal. lia.
      * now apply hit_found.
      * intros j Hj Hf'. apply hit_found in Hf'. exact (Hmin j Hj Hf').
Qed.

(** In the patch of two hunks the added line under the second header is
    line 6 of the patch and line 12 of the new file: target 12 is found
    at position 6; and a header met at position 9 with [fileLine] at 40
    sets [fileLine] to 11, one less than its start 12. *)
Lemma position_cumulative_fileLine_reseeded_witness :
  Doubles.getDiffPosition (Some two_hunks) (Doubles.Finite 12) = Some 6%nat
  /\ Doubles.sub1 (Doubles.parseInt (lit "12")) = Doubles.Finite 11.
Proof.
  assert (D : forall d, d <> [] -> forallb is_digit d = true -> all_digits d)
    by (intros d H1 H2; split; assumption).
  split.
  - apply (proj2 (proj2 (proj2
             (position_cumulative_fileLine_reseeded (Doubles.Finite 12))))
             two_hunks 12 6%nat).
    + discriminate.
    + reflexivity.
    + split; [vm_compute; discriminate|].
      intros l s Hin K. simpl in Hin.
      repeat (destruct Hin as [<-|Hin];
              [try discriminate K; vm_compute in K; injection K as <-;
               vm_compute; discriminate|]).
      destruct Hin.
    + split; [lia|]. split.
      * exists (lit "+d"). repeat split.
      * intros j Hj (l & E & K & F).
        do 5 (destruct j as [|j];
              [vm_compute in E; injection E as <-; vm_compute in K, F;
               first [discriminate K|discriminate F]|]).
        lia.
  - refine (proj2 (proj1 (proj2 (proj2
              (position_cumulative_fileLine_reseeded (Doubles.Finite 3))))
              {| Doubles.fileLine := Doubles.Finite 40;
                 Doubles.position := 9 |}
              (lit "10") (Some (lit "7")) (lit "12") (lit ",8 @@ f()")
              [lit "+x"] _ _ _ _) _).
    + apply D; [discriminate|reflexivity].
    + intros b' E. injection E as <-. apply D; [discriminate|reflexivity].
    + apply D; [discriminate|reflexivity].
    + reflexivity.
    + vm_compute. discriminate.
Defined.

(** C8, as stated, fails: a patch of one added line has no hunk header,
    and target line 1 is found in it. *)
Lemma headerless_patch_found :
  headerless (lines_of (Some (lit "+a")))
  /\ getDiffPosition (Some (lit "+a")) 1 = Some 1%nat.
Proof.
  split; [|reflexivity].
  intros l [<-|[]] s. discriminate.
Qed.

(** C8 (amended): for every patch without a hunk-header line, the absent
    and the empty patch included, and every target line [L], the resolver
    returns null if and only if no added line of the patch is the [L]-th
    of its added and context lines (no header seeds [fileLine], which
    counts these lines from 0); so it returns null whenever such a patch
    has no added line, as the absent and the empty patch. *)
Theorem headerless_patch (patch : option jsstring) (L : Z) :
  headerless (lines_of patch) ->
  (getDiffPosition patch L = None <->
   forall i l, nth_error (lines_of patch) i = Some l -> kind_of l = KAdded ->
               Z.of_nat (count_new (firstn (S i) (lines_of patch))) <> L)
  /\ ((forall l, In l (lines_of patch) -> kind_of l <> KAdded) ->
      getDiffPosition patch L = None).
Proof.
  intros Hh.
  assert (Hhit : forall i,
             hit L 0 (lines_of patch) i <->
             exists l, nth_error (lines_of patch) i = Some l
                       /\ kind_of l = KAdded
                       /\ Z.of_nat (count_new (firstn (S i) (lines_of patch)))
                          = L).
  { intros i. unfold hit, fl_before. rewrite fl_last_header.
    rewrite (last_header_headerless _ (headerless_firstn _ i Hh)).
    assert (Hc : forall l, nth_error (lines_of patch) i = Some l ->
                 kind_of l = KAdded ->
                 Z.of_nat (count_new (firstn (S i) (lines_of patch)))
                 = 0 + Z.of_nat (count_new (firstn i (lines_of patch))) + 1).
    { intros l E K. rewrite (firstn_snoc _ _ _ E).
      unfold count_new, in_new_file. rewrite filter_app, length_app.
      simpl. rewrite K. simpl. lia. }
    split; intros (l & E & K & F); exists l; (split; [exact E|]);
      (split; [exact K|]); rewrite (Hc l E K) in *; exact F. }
  assert (Hiff : getDiffPosition patch L = None <->
                 forall i, ~ hit L 0 (lines_of patch) i).
  { destruct patch as [[|c P]|]; simpl lines_of.
    - split; [|reflexivity]. intros _ i (l & E & _). destruct i; discriminate.
    - rewrite getDiffPosition_scan. split.
      + intros E. exact (scan_None _ _ _ E).
      + intros Hno. destruct (scan L init (split LF (c :: P))) eqn:E;
          [|reflexivity].
        destruct (scan_Some _ _ _ _ E) as (i & _ & Hi & _).
        exfalso. exact (Hno i Hi).
    - split; [|reflexivity]. intros _ i (l & E & _). destruct i; discriminate. }
  split.
  - rewrite Hiff. split.
    + intros Hno i l E K F. apply (Hno i). apply Hhit. eauto.
    + intros Hno i Hi. apply Hhit in Hi. destruct Hi as (l & E & K & F).
      exact (Hno i l E K F).
  - intros Hna. apply Hiff. intros i (l & E & K & _).
    apply (Hna l); [|exact K]. eapply nth_error_In; eauto.
Qed.

(** A patch of one context line has no header and no added line. *)
Lemma headerless_patch_witness :
  headerless (lines_of (Some (lit " a")))
  /\ getDiffPosition (Some (lit " a")) 1 = None.
Proof.
  assert (H : headerless (lines_of (Some (lit " a"))))
    by (intros l [<-|[]] s; discriminate).
  split; [exact H|].
  apply (proj2 (headerless_patch (Some (lit " a")) 1 H)).
  intros l [<-|[]]. discriminate.
Defined.

(** C10: whenever [getDiffPosition] returns a position [p] for a patch
    [P], [p] lies between 1 and the number of lines of [P], and line [p]
    of [P] split at newlines begins with "+": it is an added line, not a
    hunk header, a context line or a removed line. *)
Theorem position_names_added_line (P : jsstring) (L : Z) (p : nat) :
  getDiffPosition (Some P) L = Some p ->
  (1 <= p <= List.length (split LF P))%nat
  /\ exists l, nth_error (split LF P) (p - 1) = Some l
               /\ startsWith l s_plus = true
               /\ startsWith l s_atat = false
               /\ startsWith l s_minus = false
               /\ kind_of l = KAdded.
Proof.
  intros H. destruct (getDiffPosition_index _ _ _ H) as [Hb (l & E & K)].
  split; [exact Hb|]. exists l. split; [exact E|].
  destruct (kind_added_plus _ K) as (A & B & C). auto.
Qed.

(** Position 3 of scenario A lies within its four lines. *)
Lemma position_names_added_line_witness :
  getDiffPosition (Some scenarioA) 2 = Some 3%nat
  /\ (1 <= 3 <= List.length (split LF scenarioA))%nat.
Proof.
  split; [reflexivity|].
  exact (proj1 (position_names_added_line scenarioA 2 3 eq_refl)).
Defined.

End ResolverProofs.

(* ================================================================== *)
(** ** Properties of the sanitizer *)
(* ================================================================== *)

Module SanitizerProofs.

Import JsString Json Sanitizer Orchestrator JsStringProofs.
Local Open Scope N_scope.

(** *** [removeAll], one step at a time *)

Lemma removeAll_from_skip pat s : forall k,
  removeAll_from pat k s = removeAll pat (skipn k s).
Proof.
  induction s as [|c s IH]; intros [|k]; try reflexivity.
  simpl. apply IH.
Qed.

Lemma removeAll_nil pat : removeAll pat [] = [].
Proof. reflexivity. Qed.

Lemma removeAll_match pat s r :
  pat <> [] -> strip_prefix pat s = Some r -> removeAll pat s = removeAll pat r.
Proof.
  intros Hp H. pose proof (strip_prefix_Some _ _ _ H) as ->.
  destruct pat as [|p pat]; [congruence|].
  unfold removeAll at 1. simpl app. cbn [removeAll_from].
  unfold startsWith. change (p :: pat ++ r) with ((p :: pat) ++ r).
  rewrite strip_prefix_app, removeAll_from_skip.
  replace (List.length (p :: pat) - 1)%nat with (List.length pat)
    by (simpl; lia).
  rewrite skipn_app, Nat.sub_diag, skipn_all. reflexivity.
Qed.

Lemma removeAll_no_match pat c s :
  strip_prefix pat (c :: s) = None ->
  removeAll pat (c :: s) = c :: removeAll pat s.
Proof.
  intros H. unfold removeAll. cbn [removeAll_from].
  unfold startsWith. now rewrite H.
Qed.

(** Characters that do not begin the pattern are kept. *)
Lemma removeAll_keep p pat ws : forall x,
  ~ In p ws ->
  removeAll (p :: pat) (ws ++ x) = ws ++ removeAll (p :: pat) x.
Proof.
  induction ws as [|c ws IH]; intros x H; [reflexivity|].
  simpl app. rewrite removeAll_no_match.
  - f_equal. apply IH. intros Hin. apply H. now right.
  - simpl. destruct (N.eqb_spec p c) as [->|]; [|reflexivity].
    exfalso. apply H. now left.
Qed.

(** A text without some character of the pattern has no occurrence of
    it. *)
Lemma removeAll_absent pat z x :
  In z pat -> ~ In z x -> removeAll pat x = x.
Proof.
  intros Hz. induction x as [|c x IH]; intros H; [reflexivity|].
  rewrite removeAll_no_match.
  - f_equal. apply IH. intros Hin. apply H. now right.
  - destruct (strip_prefix pat (c :: x)) eqn:E; [|reflexivity].
    exfalso. apply H. exact (strip_prefix_incl _ _ _ E z Hz).
Qed.

(** When [x] does not begin with the rest of a started occurrence, the
    occurrences in [s ++ x] are those of [s] and those of [x]. *)
Lemma removeAll_app pat x :
  pat <> [] ->
  (forall pat1 pat2 r, pat = pat1 ++ pat2 -> pat2 <> [] ->
                       strip_prefix pat2 x <> Some r) ->
  forall s, removeAll pat (s ++ x) = removeAll pat s ++ removeAll pat x.
Proof.
  intros Hp Hx s.
  remember (List.length s) as n eqn:Hn. revert s Hn.
  induction n as [n IH] using lt_wf_ind. intros s Hn.
  destruct s as [|c s]; [reflexivity|].
  destruct (strip_prefix pat (c :: s)) as [r'|] eqn:E.
  - pose proof (strip_prefix_Some _ _ _ E) as Es.
    rewrite (removeAll_match pat (c :: s) r' Hp E).
    rewrite Es, <- app_assoc.
    rewrite (removeAll_match pat (pat ++ r' ++ x) (r' ++ x) Hp
               (strip_prefix_app _ _)).
    apply (IH (List.length r')); [|reflexivity].
    subst n. rewrite Es, length_app.
    destruct pat; [congruence|simpl; lia].
  - rewrite (removeAll_no_match _ _ _ E). simpl app.
    rewrite removeAll_no_match.
    + f_equal. apply (IH (List.length s)); [subst n; simpl; lia|reflexivity].
    + destruct (strip_prefix pat (c :: s ++ x)) as [r|] eqn:E'; [|reflexivity].
      exfalso. change (c :: s ++ x) with ((c :: s) ++ x) in E'.
      destruct (strip_prefix_app_inv _ _ _ _ E')
        as [(r' & E1 & _)|(pat2 & E1 & N & E2)]; [congruence|].
      exact (Hx _ _ _ E1 N E2).
Qed.

(** *** The two fences *)

Lemma suffix_has_last (pat1 pat2 pre : jsstring) (z : char) :
  pre ++ [z] = pat1 ++ pat2 -> pat2 <> [] -> In z pat2.
Proof.
  intros E N. destruct (exists_last N) as (q & y & ->).
  rewrite app_assoc in E. apply app_inj_tail in E as [_ ->].
  apply in_or_app. right. now left.
Qed.

Lemma space_not_fence c : is_space c = true -> c <> 96 /\ c <> 110.
Proof. intros H. split; intros ->; discriminate H. Qed.

Lemma spaces_not_fence ws :
  forallb is_space ws = true -> ~ In 96 ws /\ ~ In 110 ws.
Proof.
  intros H. rewrite forallb_forall in H.
  split; intros Hin; apply H, space_not_fence in Hin; tauto.
Qed.

Lemma removeAll_keep_fence ws x :
  ~ In 96 ws -> removeAll fence (ws ++ x) = ws ++ removeAll fence x.
Proof. apply (removeAll_keep 96 [96; 96]). Qed.

Lemma removeAll_keep_fence_json ws x :
  ~ In 96 ws -> removeAll fence_json (ws ++ x) = ws ++ removeAll fence_json x.
Proof. apply (removeAll_keep 96 [96; 96; 106; 115; 111; 110]). Qed.

(** After the tagged fence is taken out of [s], white space and a bare
    fence that follow are still there. *)
Lemma removeAll_fence_json_tail s ws :
  forallb is_space ws = true ->
  removeAll fence_json (s ++ ws ++ fence)
  = removeAll fence_json s ++ ws ++ fence.
Proof.
  intros Hws. apply spaces_not_fence in Hws as [_ Hn].
  assert (Hx : ~ In 110 (ws ++ fence)).
  { intros Hin. apply in_app_or in Hin as [Hin|Hin]; [tauto|].
    simpl in Hin. repeat destruct Hin as [Hin|Hin]; try discriminate Hin.
    exact Hin. }
  rewrite removeAll_app.
  - f_equal. apply (removeAll_absent fence_json 110); [|exact Hx].
    simpl. tauto.
  - discriminate.
  - intros pat1 pat2 r E N E2. apply Hx.
    apply (strip_prefix_incl _ _ _ E2).
    apply (suffix_has_last pat1 pat2 [96; 96; 96; 106; 115; 111]); assumption.
Qed.

(** A bare fence right after [t] goes, and with it nothing of [t] that
    would otherwise stay. *)
Lemma removeAll_fence_end : forall t,
  removeAll fence (t ++ fence) = removeAll fence t.
Proof.
  intros t. remember (List.length t) as n eqn:Hn. revert t Hn.
  induction n as [n IH] using lt_wf_ind. intros t Hn.
  destruct t as [|c t]; [reflexivity|].
  assert (Hf : fence <> []) by discriminate.
  destruct (strip_prefix fence (c :: t)) as [r'|] eqn:E.
  - pose proof (strip_prefix_Some _ _ _ E) as Es.
    rewrite (removeAll_match fence (c :: t) r' Hf E).
    rewrite Es, <- app_assoc.
    rewrite (removeAll_match fence (fence ++ r' ++ fence) (r' ++ fence) Hf
               (strip_prefix_app _ _)).
    apply (IH (List.length r')); [|reflexivity].
    subst n. rewrite Es, length_app. simpl. lia.
  - rewrite (removeAll_no_match _ _ _ E).
    destruct (strip_prefix fence ((c :: t) ++ fence)) as [r|] eqn:E'.
    + destruct (strip_prefix_app_inv _ _ _ _ E')
        as [(r' & E1 & _)|(pat2 & E1 & N & E2)]; [congruence|].
      (* [c :: t] is one or two backquotes *)
      unfold fence in E1 at 1.
      destruct t as [|c2 [|c3 t]]; simpl in E1; inversion E1; subst.
      * reflexivity.
      * reflexivity.
      * destruct t; [|discriminate]. simpl in *. congruence.
    + change ((c :: t) ++ fence) with (c :: t ++ fence) in *.
      rewrite (removeAll_no_match _ _ _ E'). f_equal.
      apply (IH (List.length t)); [subst n; simpl; lia|reflexivity].
Qed.

Lemma removeAll_fence_tail t ws :
  forallb is_space ws = true ->
  removeAll fence (t ++ ws ++ fence) = removeAll fence t ++ ws.
Proof.
  intros Hws. destruct ws as [|w ws].
  - simpl app. rewrite removeAll_fence_end. now rewrite app_nil_r.
  - pose proof (spaces_not_fence _ Hws) as [Hq _].
    rewrite removeAll_app.
    + f_equal. rewrite removeAll_keep_fence by exact Hq.
      change (removeAll fence fence) with (@nil char). apply app_nil_r.
    + discriminate.
    + intros pat1 pat2 r E N E2.
      destruct pat2 as [|q pat2]; [congruence|].
      assert (q = 96).
      { assert (Hin : In q fence)
          by (rewrite E; apply in_or_app; right; now left).
        simpl in Hin. intuition congruence. }
      subst q. cbn [app strip_prefix] in E2.
      destruct (N.eqb_spec 96 w) as [<-|]; [|discriminate E2].
      apply Hq. now left.
Qed.

(** *** [trim] *)

Lemma trimStart_spaces ws : forall x,
  forallb is_space ws = true -> trimStart (ws ++ x) = trimStart x.
Proof.
  induction ws as [|c ws IH]; intros x H; [reflexivity|].
  simpl in *. apply andb_prop in H as [Hc H]. rewrite Hc. now apply IH.
Qed.

Lemma trimStart_app_spaces x ws :
  forallb is_space ws = true ->
  trimStart (x ++ ws) = match trimStart x with
                        | [] => []
                        | y => y ++ ws
                        end.
Proof.
  intros H. induction x as [|c x IH]; simpl.
  - rewrite <- (app_nil_r ws). now rewrite trimStart_spaces.
  - destruct (is_space c); [exact IH|reflexivity].
Qed.

Lemma trim_spaces ws1 x ws2 :
  forallb is_space ws1 = true -> forallb is_space ws2 = true ->
  trim (ws1 ++ x ++ ws2) = trim x.
Proof.
  intros H1 H2. unfold trim.
  rewrite trimStart_spaces, trimStart_app_spaces by assumption.
  destruct (trimStart x) as [|c y]; [reflexivity|].
  rewrite rev_app_distr, trimStart_spaces; [reflexivity|].
  rewrite forallb_forall in *. intros z Hz. apply H2. now apply in_rev.
Qed.

(** *** The claim about fenced output *)

Lemma clean_fenced ws1 s ws2 :
  forallb is_space ws1 = true -> forallb is_space ws2 = true ->
  clean (fenced ws1 s ws2) = clean s.
Proof.
  intros H1 H2. unfold clean, fenced.
  pose proof (spaces_not_fence _ H1) as [Hq _].
  rewrite (removeAll_match fence_json _ _ ltac:(discriminate)
             (strip_prefix_app _ _)).
  rewrite removeAll_keep_fence_json by exact Hq.
  rewrite removeAll_fence_json_tail by exact H2.
  rewrite removeAll_keep_fence by exact Hq.
  rewrite removeAll_fence_tail by exact H2.
  now apply trim_spaces.
Qed.

(** C9: for every model output [s], sanitizing and parsing [s] wrapped in
    fenced-code markers, the opening one with its language tag, yields
    the same result as sanitizing and parsing [s] itself: the cleaned
    texts are the same, hence the parse and the value of
    [inlineComments] are the same.  White space between the markers and
    [s], such as a newline, is allowed. *)
Theorem fenced_output_same_result (ws1 s ws2 : jsstring) :
  forallb is_space ws1 = true -> forallb is_space ws2 = true ->
  clean (fenced ws1 s ws2) = clean s
  /\ parse_response (Some (fenced ws1 s ws2)) = parse_response (Some s)
  /\ snd (sanitize (Some (fenced ws1 s ws2))) = snd (sanitize (Some s)).
Proof.
  intros H1 H2. pose proof (clean_fenced ws1 s ws2 H1 H2) as E.
  split; [exact E|].
  assert (E' : parse_response (Some (fenced ws1 s ws2))
               = parse_response (Some s))
    by (unfold parse_response; now rewrite E).
  split; [exact E'|].
  unfold sanitize. rewrite E'.
  destruct (parse_response (Some s)); reflexivity.
Qed.

(** One comment between fences, each on a line of its own. *)
Lemma fenced_output_same_result_witness :
  fenced [LF] one_comment [LF]
  = fence_json ++ LF :: one_comment ++ LF :: fence
  /\ parse_response (Some (fenced [LF] one_comment [LF]))
     = parse_response (Some one_comment).
Proof.
  split; [reflexivity|].
  exact (proj1 (proj2 (fenced_output_same_result [LF] one_comment [LF]
                         eq_refl eq_refl))).
Defined.

End SanitizerProofs.

(* ================================================================== *)
(** ** Properties of the orchestrator *)
(* ================================================================== *)

Module OrchestratorProofs.

Import JsString Json Conversion Sanitizer Orchestrator RunSpec.
Local Open Scope N_scope.

(** *** The blocks of [main], written out *)

(** The sanitizer never throws. *)
Lemma sanitize_eq inlineResponse :
  sanitize inlineResponse
  = (sanitize_log inlineResponse, Ok (sanitized inlineResponse)).
Proof.
  unfold sanitize, sanitize_log, sanitized.
  destruct (parse_response inlineResponse); reflexivity.
Qed.

(** The posting of the inline review never throws. *)
Lemma post_inline_caught w v : snd (post_inline w v) = Ok tt.
Proof.
  unfold post_inline, try_catch, await, bind, emit, lift; simpl.
  destruct (getPull w) as [sha|e]; simpl; [|reflexivity].
  destruct (map_comments v) as [cs|e]; simpl; [|reflexivity].
  destruct (createReview w sha cs) as [[]|e]; reflexivity.
Qed.

Lemma post_inline_logged w v e :
  getPull w = Throw e
  \/ (exists sha, getPull w = Ok sha /\ map_comments v = Throw e)
  \/ (exists sha cs, getPull w = Ok sha /\ map_comments v = Ok cs
                     /\ createReview w sha cs = Throw e) ->
  In (LogError (CreateReviewFailed e)) (fst (post_inline w v)).
Proof.
  unfold post_inline, try_catch, await, bind, emit, lift.
  intros [H|[(sha & H1 & H2)|(sha & cs & H1 & H2 & H3)]].
  - rewrite H. simpl. auto.
  - rewrite H1. simpl. rewrite H2. simpl. auto.
  - rewrite H1. simpl. rewrite H2. simpl. rewrite H3. simpl. auto.
Qed.

Lemma post_inline_no_summary w v :
  existsb (is_generate summaryFormat) (fst (post_inline w v)) = false.
Proof.
  unfold post_inline, try_catch, await, bind, emit, lift; simpl.
  destruct (getPull w) as [sha|e]; simpl; [|reflexivity].
  destruct (map_comments v) as [cs|e]; simpl; [|reflexivity].
  destruct (createReview w sha cs) as [[]|e]; reflexivity.
Qed.

Lemma inline_review_eq w fd :
  inline_review w fd =
  match generate w inlineFormat fd GEMINI_API_KEY with
  | Throw e => (inline_head fd, Throw e)
  | Ok resp =>
      match property (sanitized resp) s_length with
      | Throw e => (inline_head fd ++ sanitize_log resp, Throw e)
      | Ok n =>
          if truthy n
          then match template n with
               | Ok _ =>
                   (inline_head fd ++ sanitize_log resp
                      ++ fst (post_inline w (sanitized resp))
                      ++ [Log (AddedInline n)], Ok tt)
               | Throw e =>
                   (inline_head fd ++ sanitize_log resp
                      ++ fst (post_inline w (sanitized resp)), Throw e)
               end
          else (inline_head fd ++ sanitize_log resp ++ [Log NoInlineIssues],
                Ok tt)
      end
  end.
Proof.
  unfold inline_review, callGemini, await.
  unfold bind at 1 2 3. unfold emit at 1 2, lift at 1. simpl.
  destruct (generate w inlineFormat fd GEMINI_API_KEY) as [resp|e];
    [|reflexivity].
  simpl. rewrite sanitize_eq. unfold bind at 1. simpl.
  destruct (property (sanitized resp) s_length) as [n|e]; simpl;
    [|now rewrite app_nil_r].
  destruct (truthy n); simpl; [|reflexivity].
  pose proof (post_inline_caught w (sanitized resp)) as Hc.
  destruct (post_inline w (sanitized resp)) as [tp rp]. simpl in *.
  subst rp. unfold bind, lift, emit. simpl.
  destruct (template n) as [text|e]; simpl; [reflexivity|].
  now rewrite app_nil_r.
Qed.

Lemma summary_review_eq w fd :
  summary_review w fd =
  match generate w summaryFormat fd GEMINI_API_KEY_2 with
  | Throw e => (summary_head fd, Throw e)
  | Ok (Some ((_ :: _) as text)) =>
      match createComment w (summary_heading ++ text) with
      | Ok _ => (summary_head fd
                   ++ [Call (CreateComment (summary_heading ++ text));
                       Log SummaryPosted], Ok tt)
      | Throw e => (summary_head fd
                      ++ [Call (CreateComment (summary_heading ++ text))],
                    Throw e)
      end
  | Ok r => (summary_head fd ++ [Log NoSummary; Log (SummaryResponse r)],
             Ok tt)
  end.
Proof.
  unfold summary_review, callGemini, await, bind, emit, lift.
  cbn -[summary_heading].
  destruct (generate w summaryFormat fd GEMINI_API_KEY_2)
    as [[[|c text]|]|e]; try reflexivity.
  cbn -[summary_heading].
  destruct (createComment w (summary_heading ++ c :: text)) as [[]|e];
    reflexivity.
Qed.

Lemma run_eq w files :
  no_prNumber w = false -> listFiles w = Ok files ->
  let fd := fold_left add_diff files [] in
  run w =
  match (if inline_requested w then inline_review w fd else ret tt) with
  | (ti, Throw e) => (preamble files ++ ti ++ [LogError (Fatal e)], 1%Z)
  | (ti, Ok _) =>
      match (if summary_requested w then summary_review w fd else ret tt) with
      | (ts, Throw e) =>
          (preamble files ++ ti ++ ts ++ [LogError (Fatal e)], 1%Z)
      | (ts, Ok _) => (preamble files ++ ti ++ ts ++ [Log Completed], 0%Z)
      end
  end.
Proof.
  intros Hpr Hfiles fd. unfold run. rewrite Hpr.
  unfold main, await, bind, emit, lift, ret, preamble. rewrite Hfiles.
  cbn [fst snd app]. fold fd.
  set (I := if inline_requested w then inline_review w fd else ([], Ok tt)).
  set (S := if summary_requested w then summary_review w fd else ([], Ok tt)).
  destruct files as [|f files]; cbn [fst snd app];
    destruct I as [ti [[]|e]]; cbn [fst snd app]; try reflexivity;
    destruct S as [ts [[]|e']]; cbn [fst snd app];
    rewrite <- ?app_assoc; reflexivity.
Qed.

Lemma sanitized_value inlineResponse v :
  snd (sanitize inlineResponse) = Ok v -> sanitized inlineResponse = v.
Proof. rewrite sanitize_eq. simpl. congruence. Qed.

Lemma summary_review_generates w fd :
  existsb (is_generate summaryFormat) (fst (summary_review w fd)) = true.
Proof.
  rewrite summary_review_eq.
  destruct (generate w summaryFormat fd GEMINI_API_KEY_2)
    as [[[|c text]|]|e]; try reflexivity.
  destruct (createComment w (summary_heading ++ c :: text)) as [[]|e];
    reflexivity.
Qed.

Lemma summary_review_no_inline_post w fd :
  existsb is_inline_post (fst (summary_review w fd)) = false.
Proof.
  rewrite summary_review_eq.
  destruct (generate w summaryFormat fd GEMINI_API_KEY_2)
    as [[[|c text]|]|e]; try reflexivity.
  destruct (createComment w (summary_heading ++ c :: text)) as [[]|e];
    reflexivity.
Qed.

Lemma preamble_quiet files :
  existsb is_post (preamble files) = false
  /\ existsb is_inline_post (preamble files) = false
  /\ existsb (is_generate summaryFormat) (preamble files) = false.
Proof. destruct files; repeat split. Qed.

(** When the inline block ends without an error, the summary block that
    was asked for sends its generation request. *)
Lemma summary_reached w files ti :
  no_prNumber w = false -> listFiles w = Ok files ->
  summary_requested w = true ->
  (if inline_requested w
   then inline_review w (fold_left add_diff files []) else ret tt)
  = (ti, Ok tt) ->
  existsb (is_generate summaryFormat) (fst (run w)) = true.
Proof.
  intros Hpr Hfiles Hs Hi. rewrite (run_eq w files Hpr Hfiles). cbv zeta.
  rewrite Hi, Hs.
  pose proof (summary_review_generates w (fold_left add_diff files [])) as Hg.
  destruct (summary_review w (fold_left add_diff files [])) as [ts [[]|e]];
    simpl in *; rewrite !existsb_app, Hg;
    now rewrite !orb_true_r, ?orb_true_l.
Qed.

(** *** The two review blocks, by what the world answers *)

(** The inline block ends without an error exactly when nothing fails in
    it. *)
Lemma inline_block_Ok w fd :
  snd (inline_block w fd) = Ok tt <->
  (inline_requested w = true -> inline_unfailing w fd).
Proof.
  unfold inline_block, inline_unfailing.
  destruct (inline_requested w); [|split; [discriminate|reflexivity]].
  rewrite inline_review_eq.
  destruct (generate w inlineFormat fd GEMINI_API_KEY) as [resp|e].
  2:{ split; [discriminate|]. intros H.
      destruct (H eq_refl) as (r & n & E & _). discriminate E. }
  destruct (property (sanitized resp) s_length) as [n|e] eqn:Hn.
  2:{ split; [discriminate|]. intros H.
      destruct (H eq_refl) as (r & n & E & E' & _).
      injection E as <-. rewrite Hn in E'. discriminate E'. }
  destruct (truthy n) eqn:Ht.
  - destruct (template n) as [text|e] eqn:Et.
    + split; [|reflexivity]. intros _ _. exists resp, n.
      repeat split; eauto.
    + split; [discriminate|]. intros H.
      destruct (H eq_refl) as (r & n' & E & E' & Hc).
      injection E as <-. rewrite Hn in E'. injection E' as <-.
      destruct (Hc Ht) as [text Hx]. rewrite Et in Hx. discriminate Hx.
  - split; [|reflexivity]. intros _ _. exists resp, n.
    repeat split; [exact Hn|]. intros H. rewrite Ht in H. discriminate H.
Qed.

Lemma summary_block_Ok w fd :
  snd (summary_block w fd) = Ok tt <->
  (summary_requested w = true -> summary_unfailing w fd).
Proof.
  unfold summary_block, summary_unfailing.
  destruct (summary_requested w); [|split; [discriminate|reflexivity]].
  rewrite summary_review_eq.
  destruct (generate w summaryFormat fd GEMINI_API_KEY_2)
    as [[[|c text]|]|e].
  - split; [|reflexivity]. intros _ _. exists (Some []).
    split; [reflexivity|]. intros text E N. injection E as <-. congruence.
  - destruct (createComment w (summary_heading ++ c :: text)) as [[]|e] eqn:Ec.
    + split; [|reflexivity]. intros _ _. exists (Some (c :: text)).
      split; [reflexivity|]. intros text' E _. injection E as <-. exact Ec.
    + split; [discriminate|]. intros H.
      destruct (H eq_refl) as (r & E & Hc). injection E as <-.
      rewrite (Hc (c :: text) eq_refl) in Ec by discriminate.
      discriminate Ec.
  - split; [|reflexivity]. intros _ _. exists None.
    split; [reflexivity|]. discriminate.
  - split; [discriminate|]. intros H.
    destruct (H eq_refl) as (r & E & _). discriminate E.
Qed.

Lemma post_inline_no_generate w v f fd k :
  ~ In (Call (Generate f fd k)) (fst (post_inline w v)).
Proof.
  unfold post_inline, try_catch, await, bind, emit, lift; simpl.
  destruct (getPull w) as [sha|e]; simpl.
  2:{ intros H. repeat (destruct H as [H|H]; [discriminate H|]). exact H. }
  destruct (map_comments v) as [cs|e]; simpl.
  2:{ intros H. repeat (destruct H as [H|H]; [discriminate H|]). exact H. }
  destruct (createReview w sha cs) as [[]|e]; simpl;
    intros H; repeat (destruct H as [H|H]; [discriminate H|]); exact H.
Qed.

(** The generation request of a block carries the diff text of the run,
    and is sent whenever the block is run. *)
Lemma inline_block_calls w fd :
  (forall f fd' k, In (Call (Generate f fd' k)) (fst (inline_block w fd)) ->
                   fd' = fd)
  /\ (inline_requested w = true ->
      In (Call (Generate inlineFormat fd GEMINI_API_KEY))
         (fst (inline_block w fd))).
Proof.
  unfold inline_block. destruct (inline_requested w).
  2:{ split; [intros f fd' k []|discriminate]. }
  rewrite inline_review_eq.
  assert (Hs : forall resp f fd' k,
             ~ In (Call (Generate f fd' k)) (sanitize_log resp)).
  { intros resp f fd' k. unfold sanitize_log.
    destruct (parse_response resp); simpl; intros H;
      repeat (destruct H as [H|H]; [discriminate H|]); exact H. }
  assert (Hh : forall f fd' k, In (Call (Generate f fd' k)) (inline_head fd) ->
                               fd' = fd).
  { intros f fd' k [H|[H|[]]]; [discriminate H|]. now injection H. }
  split.
  - intros f fd' k H.
    destruct (generate w inlineFormat fd GEMINI_API_KEY) as [resp|e];
      [|exact (Hh _ _ _ H)].
    destruct (property (sanitized resp) s_length) as [n|e];
      [destruct (truthy n); [destruct (template n)|]|]; cbn [fst] in H;
      repeat (apply in_app_or in H as [H|H]);
      try exact (Hh _ _ _ H);
      try (exfalso; exact (Hs _ _ _ _ H));
      try (exfalso; exact (post_inline_no_generate _ _ _ _ _ H));
      destruct H as [H|[]]; discriminate H.
  - intros _.
    destruct (generate w inlineFormat fd GEMINI_API_KEY) as [resp|e];
      [|right; now left].
    destruct (property (sanitized resp) s_length) as [n|e];
      [destruct (truthy n); [destruct (template n)|]|]; cbn [fst];
      apply in_or_app; left; right; now left.
Qed.

Lemma summary_block_calls w fd :
  (forall f fd' k, In (Call (Generate f fd' k)) (fst (summary_block w fd)) ->
                   fd' = fd)
  /\ (summary_requested w = true ->
      In (Call (Generate summaryFormat fd GEMINI_API_KEY_2))
         (fst (summary_block w fd))
      /\ forall text,
           generate w summaryFormat fd GEMINI_API_KEY_2 = Ok (Some text) ->
           text <> [] ->
           In (Call (CreateComment (summary_heading ++ text)))
              (fst (summary_block w fd))).
Proof.
  unfold summary_block. destruct (summary_requested w).
  2:{ split; [intros f fd' k []|discriminate]. }
  rewrite summary_review_eq. split.
  - intros f fd' k H.
    destruct (generate w summaryFormat fd GEMINI_API_KEY_2)
      as [[[|c text]|]|e];
      [| destruct (createComment w (summary_heading ++ c :: text)) as [[]|e]
       | |]; cbn [fst summary_head app] in H;
      repeat (destruct H as [H|H];
              [try discriminate H; now injection H|]);
      destruct H.
  - intros _. split.
    + destruct (generate w summaryFormat fd GEMINI_API_KEY_2)
        as [[[|c text]|]|e];
        [| destruct (createComment w (summary_heading ++ c :: text)) as [[]|e]
         | |]; cbn [fst summary_head app]; right; now left.
    + intros text Hg Ht. rewrite Hg. destruct text as [|c text]; [congruence|].
      destruct (createComment w (summary_heading ++ c :: text)) as [[]|e];
        cbn [fst summary_head app]; right; right; now left.
Qed.

(** *** The claims about the orchestrator *)

(** C3, as stated, fails: when the inline generation call fails, the run
    ends with status 1 and the summary generation request is never
    sent. *)
Lemma inline_generation_failure_is_fatal :
  ~ inline_generation_failure_is_local inline_generation_down.
Proof.
  intros H. destruct H as [H _]; try reflexivity.
  - now exists [a_file].
  - now exists (RequestFailed (lit "503")).
  - vm_compute in H. discriminate H.
Qed.

(** C3 (amended): a failure while the inline review is posted (fetching
    the pull request, building the comments, creating the review) is
    caught where it occurs and logged; it does not end the process and
    does not keep summary mode from running: the run goes on to the
    notice of the comments added and, when that notice can be written
    (the length of the parsed value converts to a string, as every number
    does), to summary mode if it is asked for, and else to its end with
    status 0.  A failed text-generation call is not caught where it
    occurs: it reaches the handler at the end of the script, which logs
    it and exits with status 1, so that after a failed inline generation
    call summary mode does not run.  Without a pull request number the
    run ends with status 1 before any request. *)
Theorem failure_handling (w : world) :
  (forall files resp n e,
      no_prNumber w = false -> listFiles w = Ok files ->
      inline_requested w = true ->
      generate w inlineFormat (fold_left add_diff files []) GEMINI_API_KEY
      = Ok resp ->
      property (sanitized resp) s_length = Ok n -> truthy n = true ->
      posting_fails w (sanitized resp) e ->
      In (LogError (CreateReviewFailed e)) (fst (run w))
      /\ forall text, template n = Ok text ->
           In (Log (AddedInline n)) (fst (run w))
           /\ (summary_requested w = true ->
               existsb (is_generate summaryFormat) (fst (run w)) = true)
           /\ (summary_requested w = false ->
               snd (run w) = 0%Z /\ In (Log Completed) (fst (run w))))
  /\ (forall files e,
      no_prNumber w = false -> listFiles w = Ok files ->
      inline_requested w = true ->
      generate w inlineFormat (fold_left add_diff files []) GEMINI_API_KEY
      = Throw e ->
      snd (run w) = 1%Z
      /\ In (LogError (Fatal e)) (fst (run w))
      /\ existsb (is_generate summaryFormat) (fst (run w)) = false)
  /\ (forall files e,
      no_prNumber w = false -> listFiles w = Ok files ->
      summary_requested w = true ->
      snd (inline_block w (fold_left add_diff files [])) = Ok tt ->
      generate w summaryFormat (fold_left add_diff files []) GEMINI_API_KEY_2
      = Throw e ->
      snd (run w) = 1%Z /\ In (LogError (Fatal e)) (fst (run w)))
  /\ (no_prNumber w = true ->
      run w = ([LogError NoPullRequest], 1%Z)).
Proof.
  split; [|split; [|split]].
  - intros files resp n e Hpr Hfiles Hi Hg Hn Ht Hfail.
    set (fd := fold_left add_diff files []) in *.
    pose proof (post_inline_logged w (sanitized resp) e Hfail) as Hlog.
    pose proof (inline_review_eq w fd) as Er. rewrite Hg, Hn, Ht in Er.
    split.
    + rewrite (run_eq w files Hpr Hfiles). cbv zeta. fold fd.
      rewrite Hi, Er.
      assert (Hin : forall tl,
                 In (LogError (CreateReviewFailed e))
                    (preamble files
                       ++ (inline_head fd ++ sanitize_log resp
                             ++ fst (post_inline w (sanitized resp)) ++ tl)))
        by (intros tl; apply in_or_app; right; apply in_or_app; right;
            apply in_or_app; right; apply in_or_app; now left).
      destruct (template n) as [text|e'].
      * destruct (if summary_requested w then summary_review w fd else ret tt)
          as [ts [[]|e']]; cbn [fst];
          rewrite !app_assoc; apply in_or_app; left; apply in_or_app; left;
          rewrite <- !app_assoc; apply Hin.
      * cbn [fst]. rewrite app_assoc. apply in_or_app. left.
        specialize (Hin []). now rewrite !app_nil_r in Hin.
    + intros text Htext. rewrite Htext in Er. split; [|split].
      * rewrite (run_eq w files Hpr Hfiles). cbv zeta. fold fd.
        rewrite Hi, Er.
        assert (Hin : In (Log (AddedInline n))
                   (preamble files
                      ++ inline_head fd ++ sanitize_log resp
                      ++ fst (post_inline w (sanitized resp))
                      ++ [Log (AddedInline n)]))
          by (apply in_or_app; right; apply in_or_app; right;
              apply in_or_app; right; apply in_or_app; right; now left).
        destruct (if summary_requested w then summary_review w fd else ret tt)
          as [ts [[]|e']]; cbn [fst];
          rewrite !app_assoc; apply in_or_app; left; apply in_or_app; left;
          rewrite <- !app_assoc; exact Hin.
      * intros Hs. eapply (summary_reached w files _ Hpr Hfiles Hs).
        rewrite Hi. exact Er.
      * intros Hs. rewrite (run_eq w files Hpr Hfiles). cbv zeta. fold fd.
        rewrite Hi, Er, Hs. cbn [fst snd ret]. split; [reflexivity|].
        rewrite !app_assoc. apply in_or_app. right. now left.
  - intros files e Hpr Hfiles Hi Hg.
    rewrite (run_eq w files Hpr Hfiles). cbv zeta.
    rewrite Hi, inline_review_eq, Hg.
    destruct (preamble_quiet files) as (_ & _ & Hq).
    cbn [fst snd]. split; [reflexivity|]. split.
    + apply in_or_app. right. apply in_or_app. right. now left.
    + rewrite !existsb_app, Hq. reflexivity.
  - intros files e Hpr Hfiles Hs Hi Hg.
    rewrite (run_eq w files Hpr Hfiles). cbv zeta. unfold inline_block in Hi.
    destruct (if inline_requested w
              then inline_review w (fold_left add_diff files []) else ret tt)
      as [ti [[]|e']]; [|discriminate Hi].
    rewrite Hs, summary_review_eq, Hg.
    cbn [fst snd]. split; [reflexivity|].
    rewrite !app_assoc. apply in_or_app. right. now left.
  - intros Hpr. unfold run. now rewrite Hpr.
Qed.

(** A run whose review is refused by the hosting API and that goes on to
    its summary, and a run whose inline generation call fails. *)
Lemma failure_handling_witness :
  In (LogError (CreateReviewFailed (RequestFailed (lit "422"))))
     (fst (run (inline_world (Some one_comment))))
  /\ existsb (is_generate summaryFormat)
       (fst (run (inline_world (Some one_comment)))) = true
  /\ snd (run inline_generation_down) = 1%Z.
Proof.
  assert (F : posting_fails (inline_world (Some one_comment))
                (sanitized (Some one_comment)) (RequestFailed (lit "422"))).
  { right. right. eexists. eexists. repeat split. }
  pose proof (proj1 (failure_handling (inline_world (Some one_comment)))
                [a_file] (Some one_comment) (of_nat 1)
                (RequestFailed (lit "422"))
                eq_refl eq_refl eq_refl eq_refl eq_refl eq_refl F) as [H1 H2].
  split; [exact H1|]. split.
  - exact (proj1 (proj2 (H2 (lit "1") eq_refl)) eq_refl).
  - exact (proj1 (proj1 (proj2 (failure_handling inline_generation_down))
                    [a_file] (RequestFailed (lit "503"))
                    eq_refl eq_refl eq_refl eq_refl)).
Defined.

(** C4, as stated, fails: with no changed file the model is still asked
    for a summary, and the summary it gives is posted. *)
Lemma empty_files_summary_posted : ~ empty_files_no_op no_files_world.
Proof.
  intros H. destruct H as [H _]; try reflexivity.
  vm_compute in H. discriminate H.
Qed.

(** C4 (amended): if the changed-file set is empty, the orchestrator
    logs a no-op notice rather than raising an error, and goes on as for
    any other set, with an empty diff text: each mode that is asked for
    and reached still asks the model, with that empty text, and what the
    model answers is posted (the summary comment, whenever it gives a
    summary text).  The run exits with status 0 exactly when nothing
    fails in it: no generation call, not the reading and writing of the
    length of the parsed inline value, not the creation of the summary
    comment; whether comments are posted has no bearing on the status. *)
Theorem empty_file_set (w : world) :
  no_prNumber w = false -> listFiles w = Ok [] ->
  (exists rest,
      fst (run w) = Log FetchingFiles :: Call ListFiles :: Log NoFilesChanged
                    :: Log SendingDiff :: rest)
  /\ (forall f fd k, In (Call (Generate f fd k)) (fst (run w)) -> fd = [])
  /\ (inline_requested w = true ->
      In (Call (Generate inlineFormat [] GEMINI_API_KEY)) (fst (run w)))
  /\ (summary_requested w = true ->
      (inline_requested w = true -> inline_unfailing w []) ->
      In (Call (Generate summaryFormat [] GEMINI_API_KEY_2)) (fst (run w))
      /\ forall text,
           generate w summaryFormat [] GEMINI_API_KEY_2 = Ok (Some text) ->
           text <> [] ->
           In (Call (CreateComment (summary_heading ++ text))) (fst (run w)))
  /\ (snd (run w) = 0%Z <-> unfailing w []).
Proof.
  intros Hpr Hfiles. pose proof (run_eq w [] Hpr Hfiles) as Hrun.
  cbv zeta in Hrun. change (fold_left add_diff [] []) with (@nil char) in Hrun.
  fold (inline_block w []) in Hrun. fold (summary_block w []) in Hrun.
  change (preamble []) with [Log FetchingFiles; Call ListFiles;
                             Log NoFilesChanged; Log SendingDiff] in Hrun.
  pose proof (inline_block_Ok w []) as HI.
  pose proof (summary_block_Ok w []) as HS.
  pose proof (inline_block_calls w []) as CI.
  pose proof (summary_block_calls w []) as CS.
  split; [|split; [|split; [|split]]].
  - rewrite Hrun.
    destruct (inline_block w []) as [ti [[]|e]]; [|simpl; eauto].
    destruct (summary_block w []) as [ts [[]|e]]; simpl; eauto.
  - intros f fd k H. rewrite Hrun in H.
    assert (Hin : In (Call (Generate f fd k)) (fst (inline_block w []))
                  \/ In (Call (Generate f fd k)) (fst (summary_block w []))).
    { destruct (inline_block w []) as [ti [[]|e]];
        [destruct (summary_block w []) as [ts [[]|e]]|]; cbn [fst] in *;
        repeat (apply in_app_or in H as [H|H]); auto; simpl in H;
        repeat (destruct H as [H|H]; [discriminate H|]); destruct H. }
    destruct Hin as [Hin|Hin]; [exact (proj1 CI _ _ _ Hin)|
                                exact (proj1 CS _ _ _ Hin)].
  - intros Hi. rewrite Hrun.
    pose proof (proj2 CI Hi) as Hin.
    destruct (inline_block w []) as [ti [[]|e]];
      [destruct (summary_block w []) as [ts [[]|e]]|]; cbn [fst] in *;
      apply in_or_app; right; apply in_or_app; now left.
  - intros Hs Hu.
    assert (Hok : snd (inline_block w []) = Ok tt) by (apply HI; exact Hu).
    destruct (proj2 CS Hs) as [Hgen Hpost].
    assert (Hsub : forall e, In e (fst (summary_block w [])) ->
                             In e (fst (run w))).
    { intros e He. rewrite Hrun.
      destruct (inline_block w []) as [ti [[]|e']]; [|discriminate Hok].
      destruct (summary_block w []) as [ts [[]|e']]; cbn [fst] in *;
        apply in_or_app; right; apply in_or_app; right;
        apply in_or_app; now left. }
    split; [now apply Hsub|].
    intros text Hg Ht. apply Hsub. now apply Hpost.
  - unfold unfailing. rewrite <- HI, <- HS, Hrun.
    destruct (inline_block w []) as [ti [[]|e]];
      [destruct (summary_block w []) as [ts [[]|e]]|]; cbn [snd];
      split; try (intros H; discriminate H); try tauto;
      intros [H1 H2]; discriminate.
Qed.

(** A run with no changed file, in which the model gives a summary: the
    summary is posted and the status is 0. *)
Lemma empty_file_set_witness :
  In (Call (CreateComment (summary_heading ++ lit "Nothing to review.")))
     (fst (run no_files_world))
  /\ snd (run no_files_world) = 0%Z.
Proof.
  pose proof (empty_file_set no_files_world eq_refl eq_refl)
    as (_ & _ & _ & H4 & H5).
  split.
  - refine (proj2 (H4 eq_refl _) (lit "Nothing to review.") eq_refl _).
    + intros _. exists (Some (lit "[]")), (of_nat 0).
      split; [reflexivity|]. split; [reflexivity|]. discriminate.
    + discriminate.
  - apply H5. split; intros _.
    + exists (Some (lit "[]")), (of_nat 0).
      split; [reflexivity|]. split; [reflexivity|]. discriminate.
    + exists (Some (lit "Nothing to review.")).
      split; [reflexivity|]. intros text E _. now injection E as <-.
Defined.

(** C5, as stated, fails: the text "null" parses, and what the sanitizer
    returns for it is [null], not a list.  (The test of its length then
    throws outside any [try], and the run ends with status 1 before the
    summary block.) *)
Lemma sanitizer_returns_null :
  snd (sanitize (Some (lit "null"))) = Ok JNull
  /\ ~ sanitizer_returns_list (Some (lit "null"))
  /\ snd (run (inline_world (Some (lit "null")))) = 1%Z.
Proof.
  split; [reflexivity|]. split; [|reflexivity].
  intros [items H]. vm_compute in H. discriminate H.
Qed.

(** The truncated output is refused whatever the fuel of the parser: it
    is refused for its syntax. *)
Lemma truncated_output_refused fuel :
  parse_value fuel (clean truncated_output) = None.
Proof. destruct fuel as [|[|[|fuel]]]; reflexivity. Qed.

(** C5 (amended): for every raw model output, the sanitizer returns the
    value parsed from the cleaned text when the parse succeeds (a list of
    records when the text holds one, and any other value as it is), or
    an empty list when it fails; text that does not parse, such as the
    truncated output of scenario D, or no text at all, yields the empty
    list and the logged diagnostic, never a thrown error, so that inline
    mode posts nothing and a summary mode that was asked for still
    runs. *)
Theorem malformed_output_recovered
  (w : world) (files : list file) (inlineResponse : option jsstring) :
  no_prNumber w = false -> listFiles w = Ok files ->
  inline_requested w = true ->
  generate w inlineFormat (fold_left add_diff files []) GEMINI_API_KEY
  = Ok inlineResponse ->
  sanitize inlineResponse
  = match parse_response inlineResponse with
    | Ok v => ([Log (GeneratedInline v)], Ok v)
    | Throw _ => ([LogError InvalidJson; Log (RawResponse inlineResponse)],
                  Ok (JArr []))
    end
  /\ ((exists e, parse_response inlineResponse = Throw e) ->
      In (LogError InvalidJson) (fst (run w))
      /\ existsb is_inline_post (fst (run w)) = false
      /\ (summary_requested w = true ->
          existsb (is_generate summaryFormat) (fst (run w)) = true))
  /\ parse_response (Some truncated_output) = Throw SyntaxError
  /\ parse_response None = Throw SyntaxError.
Proof.
  intros Hpr Hfiles Hi Hg. set (fd := fold_left add_diff files []) in *.
  split; [|split; [|split; reflexivity]].
  - rewrite sanitize_eq. unfold sanitize_log, sanitized.
    destruct (parse_response inlineResponse); reflexivity.
  - intros [e He].
    assert (Hti : inline_review w fd
                  = (inline_head fd
                       ++ [LogError InvalidJson;
                           Log (RawResponse inlineResponse);
                           Log NoInlineIssues], Ok tt)).
    { rewrite inline_review_eq, Hg. unfold sanitized, sanitize_log.
      rewrite He. reflexivity. }
    split; [|split].
    + rewrite (run_eq w files Hpr Hfiles). cbv zeta. fold fd.
      rewrite Hi, Hti.
      destruct (if summary_requested w then summary_review w fd else ret tt)
        as [ts [[]|e']]; cbn [fst];
        apply in_or_app; right; simpl; auto.
    + rewrite (run_eq w files Hpr Hfiles). cbv zeta. fold fd.
      rewrite Hi, Hti.
      destruct (preamble_quiet files) as (_ & Hq & _).
      destruct (if summary_requested w then summary_review w fd else ret tt)
        as [ts r] eqn:ES.
      assert (Hs : existsb is_inline_post ts = false).
      { destruct (summary_requested w).
        - pose proof (summary_review_no_inline_post w fd) as H.
          rewrite ES in H. exact H.
        - injection ES as <- _. reflexivity. }
      destruct r as [[]|e']; cbn [fst];
        rewrite !existsb_app, Hq, Hs; reflexivity.
    + intros Hs.
      eapply (summary_reached w files _ Hpr Hfiles Hs).
      rewrite Hi. exact Hti.
Qed.

(** Scenario D: a run in which the model gives the truncated output. *)
Lemma malformed_output_recovered_witness :
  existsb is_inline_post (fst (run (inline_world (Some truncated_output))))
  = false
  /\ existsb (is_generate summaryFormat)
       (fst (run (inline_world (Some truncated_output)))) = true.
Proof.
  pose proof (proj1 (proj2
    (malformed_output_recovered (inline_world (Some truncated_output))
       [a_file] (Some truncated_output) eq_refl eq_refl eq_refl eq_refl))
    (ex_intro _ SyntaxError eq_refl)) as (_ & H1 & H2).
  split; [exact H1|exact (H2 eq_refl)].
Defined.

End OrchestratorProofs.

(* ================================================================== *)
(** ** Further properties of the resolver *)
(* ================================================================== *)

Module ResolverExtras.

Import JsString Resolver ResolverSpec PatchSpec JsStringProofs ResolverProofs.
Local Open Scope Z_scope.

(** *** Splitting at newlines *)

Lemma split_nonempty s : split LF s <> [].
Proof.
  destruct s as [|c s]; simpl; [discriminate|].
  destruct (c =? LF)%N; [discriminate|].
  destruct (split LF s); discriminate.
Qed.

Lemma split_app P : forall Q,
  split LF (P ++ LF :: Q) = split LF P ++ split LF Q.
Proof.
  induction P as [|c P IH]; intros Q; [reflexivity|].
  cbn [app split]. rewrite IH.
  destruct (c =? LF)%N; [reflexivity|].
  pose proof (split_nonempty P) as N.
  destruct (split LF P) as [|l ls]; [congruence|reflexivity].
Qed.

Lemma unlines_cons l l' ls :
  unlines (l :: l' :: ls) = l ++ LF :: unlines (l' :: ls).
Proof. reflexivity. Qed.

Lemma unlines_split s : unlines (split LF s) = s.
Proof.
  induction s as [|c s IH]; [reflexivity|]. cbn [split].
  pose proof (split_nonempty s) as N.
  destruct (split LF s) as [|l ls]; [congruence|].
  destruct (N.eqb_spec c LF) as [->|Hc].
  - rewrite unlines_cons, IH. reflexivity.
  - destruct ls as [|l' ls].
    + simpl in *. now f_equal.
    + rewrite unlines_cons in *. simpl. now f_equal.
Qed.

Lemma split_no_newline s : Forall no_newline (split LF s).
Proof.
  induction s as [|c s IH]; cbn [split].
  - constructor; [intros []|constructor].
  - destruct (N.eqb_spec c LF) as [->|Hc].
    + constructor; [intros []|exact IH].
    + destruct (split LF s) as [|l ls]; [repeat constructor|].
      * intros [E|[]]. congruence.
      * inversion IH as [|? ? Hl Hls]; subst. constructor; [|exact Hls].
        intros [E|Hin]; [congruence|exact (Hl Hin)].
Qed.

Lemma split_length s :
  List.length (split LF s) = S (newlines s).
Proof.
  unfold newlines. induction s as [|c s IH]; [reflexivity|].
  cbn [split count_occ].
  destruct (N.eqb_spec c LF) as [->|Hc].
  - destruct (N.eq_dec LF LF); [|congruence]. simpl. now rewrite IH.
  - destruct (N.eq_dec c LF); [congruence|].
    destruct (split LF s); simpl in *; [discriminate|exact IH].
Qed.

Lemma split_line l : no_newline l -> split LF l = [l].
Proof.
  induction l as [|c l IH]; intros H; [reflexivity|]. cbn [split].
  destruct (N.eqb_spec c LF) as [->|Hc]; [exfalso; apply H; now left|].
  rewrite IH; [reflexivity|]. intros Hin. apply H. now right.
Qed.

Lemma split_unlines ls :
  ls <> [] -> Forall no_newline ls -> split LF (unlines ls) = ls.
Proof.
  induction ls as [|l ls IH]; intros N H; [congruence|].
  inversion H as [|? ? Hl Hls]; subst.
  destruct ls as [|l' ls]; [now apply split_line|].
  rewrite unlines_cons, split_app, (split_line l Hl), IH;
    [reflexivity|discriminate|exact Hls].
Qed.

(** X1: splitting a text at its newlines loses nothing: the pieces,
    joined by newlines, are the text again; no piece holds a newline; and
    there is one piece more than there are newlines, so even the empty
    text gives one (empty) line. *)
Theorem split_partition (s : jsstring) :
  unlines (split LF s) = s
  /\ Forall no_newline (split LF s)
  /\ List.length (split LF s) = S (newlines s).
Proof.
  split; [apply unlines_split|]. split; [apply split_no_newline|].
  apply split_length.
Qed.

(** *** The loop over joined lines *)

Lemma getDiffPosition_unlines ls L :
  Forall no_newline ls ->
  getDiffPosition (Some (unlines ls)) L = scan L init ls.
Proof.
  intros H. destruct ls as [|l ls]; [reflexivity|].
  destruct (unlines (l :: ls)) as [|c P] eqn:E.
  - destruct ls as [|l' ls].
    + simpl in E. subst l. reflexivity.
    + rewrite unlines_cons in E. destruct l; discriminate E.
  - rewrite getDiffPosition_scan, <- E, split_unlines;
      [reflexivity|discriminate|exact H].
Qed.

Lemma scan_app l1 : forall L st l2,
  scan L st (l1 ++ l2) =
  match steps L st l1 with
  | Continue st' => scan L st' l2
  | Return p => Some p
  end.
Proof.
  induction l1 as [|l l1 IH]; intros L st l2; [reflexivity|].
  cbn [app scan steps]. destruct (step L st l); [apply IH|reflexivity].
Qed.

Lemma scan_steps l1 : forall L st,
  scan L st l1 =
  match steps L st l1 with
  | Continue _ => None
  | Return p => Some p
  end.
Proof.
  induction l1 as [|l l1 IH]; intros L st; [reflexivity|].
  cbn [scan steps]. destruct (step L st l); [apply IH|reflexivity].
Qed.

Lemma getDiffPosition_lines P L :
  getDiffPosition (Some P) L = scan L init (split LF P).
Proof. destruct P; reflexivity. Qed.

(** X2: what follows the line found does not matter, and what is found
    later lies later.  If target [L] is found in patch [P], it is found
    at the same position in [P] continued by a newline and any text [Q];
    if it is not found in [P], a position found in the continued patch
    lies beyond the lines of [P]. *)
Theorem continued_patch (P Q : jsstring) (L : Z) :
  match getDiffPosition (Some P) L with
  | Some p => getDiffPosition (Some (P ++ LF :: Q)) L = Some p
  | None =>
      forall q, getDiffPosition (Some (P ++ LF :: Q)) L = Some q ->
                (List.length (split LF P) < q)%nat
  end.
Proof.
  rewrite !getDiffPosition_lines, split_app, scan_app, scan_steps.
  destruct (steps L init (split LF P)) as [st'|p] eqn:E; [|reflexivity].
  intros q Hq. apply steps_position in E.
  destruct (scan_Some _ _ _ _ Hq) as (i & -> & _). simpl in E. lia.
Qed.

(** *** The header pattern *)

(** X3: one attempt of the header pattern succeeds on exactly the texts
    "@@ -a[,b] +c" followed by something that does not go on with a
    digit, where a, b and c are runs of one digit or more; the group
    captured is c, whole. *)
Theorem header_pattern_language (s d : jsstring) :
  match_here s = Some d <->
  exists a b rest,
    s = header_text a b d rest
    /\ all_digits a /\ (forall b', b = Some b' -> all_digits b')
    /\ all_digits d /\ no_digit_ahead rest.
Proof.
  split; [apply match_here_sound|].
  intros (a & b & rest & -> & Ha & Hb & Hd & Hr).
  now apply match_here_header.
Qed.

(** *** Bounds on [fileLine] *)

Lemma fl_before_lower lines : forall fl0 i,
  -1 <= fl0 -> -1 <= fl_before fl0 lines i.
Proof.
  unfold fl_before.
  induction lines as [|l lines IH]; intros fl0 [|i] H; simpl; try exact H.
  apply IH. destruct (kind_of l) as [[s|]| | |] eqn:K; simpl; try lia.
  pose proof (header_start_nonneg _ _ K). lia.
Qed.

Lemma fl_before_upper lines : forall fl0 i B,
  fl0 + Z.of_nat (List.length lines) <= B ->
  (forall l s, In l lines -> kind_of l = KHeader (Some s) ->
               s + Z.of_nat (List.length lines) <= B) ->
  fl_before fl0 lines i <= B.
Proof.
  unfold fl_before.
  induction lines as [|l lines IH]; intros fl0 [|i] B H0 Hh;
    cbn [firstn map fold_left List.length] in *; try lia.
  apply IH.
  - destruct (kind_of l) as [[s|]| | |] eqn:K; cbn [advance]; try lia.
    specialize (Hh l s (or_introl eq_refl) K). lia.
  - intros l' s' Hin K'. specialize (Hh l' s' (or_intror Hin) K'). lia.
Qed.

(** In a patch whose numbers are exact, every value that [fileLine]
    takes lies between -1 and 2^53: it is an integer that a double holds
    exactly, reached from the one before by a step that is exact too. *)
Lemma exact_numbers_fileLine lines i :
  exact_numbers lines -> -1 <= fl_before 0 lines i <= 2 ^ 53.
Proof.
  intros [Hl Hh]. split.
  - apply fl_before_lower. lia.
  - apply fl_before_upper; [lia|exact Hh].
Qed.

(** X4: [fileLine] never goes below -1 (a header that starts its new
    range at 0 sets it to -1), so a negative target line is never found,
    in any patch. *)
Theorem negative_target_not_found (patch : option jsstring) (L : Z) :
  L < 0 -> getDiffPosition patch L = None.
Proof.
  intros HL. destruct patch as [P|]; [|reflexivity].
  rewrite getDiffPosition_lines.
  destruct (scan L init (split LF P)) as [p|] eqn:E; [|reflexivity].
  destruct (scan_Some _ _ _ _ E) as (i & _ & (l & _ & _ & Hf) & _).
  pose proof (fl_before_lower (split LF P) 0 i ltac:(lia)). simpl in Hf. lia.
Qed.

(** The theorem at scenario A and target line -1. *)
Lemma negative_target_not_found_witness :
  getDiffPosition (Some scenarioA) (-1) = None.
Proof. apply negative_target_not_found. reflexivity. Defined.

(** *** Positions against targets *)

(** X5: a position is the position of one target line only: two targets
    that resolve to the same position in a patch are equal. *)
Theorem position_determines_target (P : jsstring) (L1 L2 : Z) (p : nat) :
  getDiffPosition (Some P) L1 = Some p ->
  getDiffPosition (Some P) L2 = Some p -> L1 = L2.
Proof.
  rewrite !getDiffPosition_lines. intros H1 H2.
  destruct (scan_Some _ _ _ _ H1) as (i1 & E1 & (l1 & _ & _ & F1) & _).
  destruct (scan_Some _ _ _ _ H2) as (i2 & E2 & (l2 & _ & _ & F2) & _).
  assert (i1 = i2) by lia. subst. reflexivity.
Qed.

(** Targets 2 and 2 at position 3 of scenario A. *)
Lemma position_determines_target_witness :
  getDiffPosition (Some scenarioA) 2 = Some 3%nat /\ (2 = 2)%Z.
Proof.
  split; [reflexivity|].
  exact (position_determines_target scenarioA 2 2 3 eq_refl eq_refl).
Defined.

Lemma count_new_firstn_mono (ls : list jsstring) : forall i j,
  (i <= j)%nat -> (count_new (firstn i ls) <= count_new (firstn j ls))%nat.
Proof.
  unfold count_new.
  induction ls as [|l ls IH]; intros [|i] [|j] H; simpl; try lia.
  specialize (IH i j ltac:(lia)). destruct (in_new_file l); simpl; lia.
Qed.

Lemma single_hunk_fl h rest s i :
  kind_of h = KHeader (Some s) -> headerless rest ->
  fl_before 0 (h :: rest) (S i) = s - 1 + Z.of_nat (count_new (firstn i rest)).
Proof.
  intros K Hr. unfold fl_before. rewrite fl_last_header.
  change (firstn (S i) (h :: rest)) with (h :: firstn i rest).
  cbn [last_header].
  rewrite (last_header_headerless _ (headerless_firstn _ i Hr)), K.
  reflexivity.
Qed.

(** X6: within one hunk the resolver keeps the order of lines: of two
    targets that are found, the greater is found at the greater
    position. *)
Theorem single_hunk_monotone (P : jsstring) (L1 L2 : Z) (p1 p2 : nat) :
  single_hunk (split LF P) ->
  getDiffPosition (Some P) L1 = Some p1 ->
  getDiffPosition (Some P) L2 = Some p2 ->
  L1 < L2 -> (p1 < p2)%nat.
Proof.
  rewrite !getDiffPosition_lines.
  destruct (split LF P) as [|h rest]; [intros []|].
  intros [[s K] Hr] H1 H2 HL.
  destruct (scan_Some _ _ _ _ H1) as (i1 & -> & (l1 & N1 & K1 & F1) & _).
  destruct (scan_Some _ _ _ _ H2) as (i2 & -> & (l2 & N2 & K2 & F2) & _).
  change (fileLine init) with 0 in F1, F2. change (position init) with O.
  destruct i1 as [|i1]; [simpl in N1; congruence|].
  destruct i2 as [|i2]; [simpl in N2; congruence|].
  rewrite (single_hunk_fl h rest s i1 K Hr) in F1.
  rewrite (single_hunk_fl h rest s i2 K Hr) in F2.
  destruct (Nat.lt_ge_cases i1 i2) as [Hlt|Hge]; [lia|].
  pose proof (count_new_firstn_mono rest _ _ Hge). lia.
Qed.

(** Lines 2 and 3 of a hunk with a removed line between them. *)
Lemma single_hunk_monotone_witness :
  getDiffPosition (Some two_added) 2 = Some 3%nat
  /\ getDiffPosition (Some two_added) 3 = Some 5%nat
  /\ (3 < 5)%nat.
Proof.
  split; [reflexivity|]. split; [reflexivity|].
  refine (single_hunk_monotone two_added 2 3 3 5 _ eq_refl eq_refl eq_refl).
  split; [exists 1; reflexivity|].
  intros l Hl s. simpl in Hl.
  repeat (destruct Hl as [<-|Hl]; [discriminate|]). destruct Hl.
Defined.

(** *** A removed line more *)

Lemma step_shift L fl pos line :
  step L {| fileLine := fl; position := S pos |} line =
  match step L {| fileLine := fl; position := pos |} line with
  | Continue st => Continue {| fileLine := fileLine st;
                               position := S (position st) |}
  | Return p => Return (S p)
  end.
Proof.
  rewrite !step_kind. simpl.
  destruct (kind_of line) as [[s|]| | |]; try reflexivity.
  destruct (fl + 1 =? L); reflexivity.
Qed.

Lemma scan_shift ls : forall L fl pos,
  scan L {| fileLine := fl; position := S pos |} ls =
  option_map S (scan L {| fileLine := fl; position := pos |} ls).
Proof.
  induction ls as [|l ls IH]; intros L fl pos; [reflexivity|].
  cbn [scan]. rewrite step_shift.
  destruct (step L {| fileLine := fl; position := pos |} l) as [[fl' pos']|p];
    [apply IH|reflexivity].
Qed.

Lemma removed_kind r : startsWith r s_minus = true -> kind_of r = KRemoved.
Proof.
  intros H. unfold kind_of.
  destruct r as [|c r]; [discriminate|].
  unfold startsWith, s_minus, s_atat, s_plus in *. cbn [strip_prefix] in *.
  destruct (N.eqb_spec 45 c) as [<-|]; [reflexivity|discriminate].
Qed.

Lemma scan_insert_removed l1 : forall L st r l2,
  kind_of r = KRemoved ->
  scan L st (l1 ++ r :: l2) =
  match scan L st (l1 ++ l2) with
  | Some p => Some (if (p <=? position st + List.length l1)%nat
                    then p else S p)
  | None => None
  end.
Proof.
  induction l1 as [|l l1 IH]; intros L st r l2 K.
  - cbn [app scan]. rewrite step_kind, K. destruct st as [fl pos]. simpl.
    rewrite scan_shift.
    destruct (scan L {| fileLine := fl; position := pos |} l2) as [p|] eqn:E;
      [|reflexivity].
    destruct (scan_Some _ _ _ _ E) as (i & -> & _). simpl.
    destruct (Nat.leb_spec (pos + S i) (pos + 0)); [lia|reflexivity].
  - cbn [app scan].
    destruct (step L st l) as [st'|p] eqn:E.
    + rewrite (IH L st' r l2 K).
      assert (position st' = S (position st)) as ->.
      { pose proof (step_position L st l) as Hp. rewrite E in Hp. exact Hp. }
      simpl List.length. now rewrite Nat.add_succ_r.
    + assert (p = S (position st)) as ->.
      { pose proof (step_position L st l) as Hp. rewrite E in Hp. exact Hp. }
      destruct (Nat.leb_spec (S (position st))
                  (position st + List.length (l :: l1)));
        [reflexivity|simpl in *; lia].
Qed.

(** X7: a removed line more in a patch changes no result but by its own
    place: put after the first [n] lines, it leaves a position up to [n]
    as it is, moves a later one by one, and makes no target found or
    lost. *)
Theorem removed_line_inserted
  (l1 l2 : list jsstring) (r : jsstring) (L : Z) :
  Forall no_newline (l1 ++ r :: l2) -> startsWith r s_minus = true ->
  getDiffPosition (Some (unlines (l1 ++ r :: l2))) L =
  match getDiffPosition (Some (unlines (l1 ++ l2))) L with
  | Some p => Some (if (p <=? List.length l1)%nat then p else S p)
  | None => None
  end.
Proof.
  intros H Hr.
  assert (H' : Forall no_newline (l1 ++ l2)).
  { apply Forall_app in H as [H1 H2]. apply Forall_app. split; [exact H1|].
    now inversion H2. }
  rewrite !getDiffPosition_unlines by assumption.
  apply (scan_insert_removed l1 L init r l2 (removed_kind r Hr)).
Qed.

(** Scenario A with a removed line after its first two lines. *)
Lemma removed_line_inserted_witness :
  getDiffPosition
    (Some (unlines [lit "@@ -1,2 +1,3 @@"; lit " line1"; lit "-gone";
                    lit "+line2"; lit " line3"])) 2
  = Some 4%nat.
Proof.
  refine (removed_line_inserted
            [lit "@@ -1,2 +1,3 @@"; lit " line1"]
            [lit "+line2"; lit " line3"] (lit "-gone") 2 _ eq_refl).
  repeat constructor; intros Hin; simpl in Hin;
    repeat (destruct Hin as [Hin|Hin]; [discriminate Hin|]); exact Hin.
Defined.

End ResolverExtras.

(* ================================================================== *)
(** ** Further properties of the sanitizer *)
(* ================================================================== *)

Module SanitizerExtras.

Import JsString Sanitizer TextSpec JsStringProofs SanitizerProofs.
Local Open Scope N_scope.

(** *** No fence is left *)

Lemma fence_has_leading s r :
  strip_prefix fence s = Some r ->
  leading backquote s = (3 + leading backquote r)%nat.
Proof. intros H. now rewrite (strip_prefix_Some _ _ _ H). Qed.

Lemma leading_fence s :
  strip_prefix fence s = None -> (leading backquote s < 3)%nat.
Proof.
  destruct s as [|a [|b [|c s]]]; cbn [leading]; intros H;
    repeat match goal with
           | |- context [(?x =? backquote)] =>
               destruct (N.eqb_spec x backquote); subst
           end; try lia.
  discriminate H.
Qed.

Lemma leading_removeAll s :
  leading backquote (removeAll fence s) = (leading backquote s mod 3)%nat.
Proof.
  remember (List.length s) as n eqn:Hn. revert s Hn.
  induction n as [n IH] using lt_wf_ind. intros s Hn.
  destruct s as [|c s]; [reflexivity|].
  destruct (strip_prefix fence (c :: s)) as [r|] eqn:E.
  - rewrite (removeAll_match fence _ _ ltac:(discriminate) E).
    rewrite (fence_has_leading _ _ E).
    rewrite (IH (List.length r)); [| |reflexivity].
    + change 3%nat with (1 * 3)%nat at 2.
      now rewrite Nat.add_comm, Nat.Div0.mod_add.
    + subst n. rewrite (strip_prefix_Some _ _ _ E), length_app. simpl. lia.
  - rewrite (removeAll_no_match _ _ _ E).
    pose proof (leading_fence _ E) as Hl. cbn [leading] in *.
    destruct (N.eqb_spec c backquote) as [->|Hc]; [|reflexivity].
    rewrite (IH (List.length s)); [|subst n; simpl; lia|reflexivity].
    rewrite !Nat.mod_small by lia. reflexivity.
Qed.

Lemma removeAll_fence_free s : ~ occurs fence (removeAll fence s).
Proof.
  remember (List.length s) as n eqn:Hn. revert s Hn.
  induction n as [n IH] using lt_wf_ind. intros s Hn.
  destruct s as [|c s].
  - intros (pre & post & E). destruct pre; discriminate E.
  - destruct (strip_prefix fence (c :: s)) as [r|] eqn:E.
    + rewrite (removeAll_match fence _ _ ltac:(discriminate) E).
      apply (IH (List.length r)); [|reflexivity].
      subst n. rewrite (strip_prefix_Some _ _ _ E), length_app. simpl. lia.
    + rewrite (removeAll_no_match _ _ _ E).
      intros ([|x pre] & post & Eo).
      * simpl in Eo. injection Eo as -> Eo.
        pose proof (leading_fence _ E) as Hl.
        pose proof (leading_removeAll s) as Hr.
        rewrite Eo in Hr. cbn [leading] in Hl, Hr.
        change (96 =? backquote) with true in *. cbv iota in Hl, Hr.
        rewrite Nat.mod_small in Hr by lia. lia.
      * injection Eo as _ Eo.
        apply (IH (List.length s) ltac:(subst n; simpl; lia) s eq_refl).
        now exists pre, post.
Qed.

(** *** What [trim] leaves *)

Lemma trimStart_suffix s : exists a, s = a ++ trimStart s.
Proof.
  induction s as [|c s (a & IH)]; [now exists []|]. simpl.
  destruct (is_space c); [|now exists []].
  exists (c :: a). simpl. now f_equal.
Qed.

Lemma trimStart_head s c r : trimStart s = c :: r -> is_space c = false.
Proof.
  induction s as [|x s IH]; simpl; [discriminate|].
  destruct (is_space x) eqn:E; [exact IH|].
  intros H. injection H as <- _. exact E.
Qed.

Lemma trimStart_fixed s :
  match s with c :: _ => is_space c = false | [] => True end ->
  trimStart s = s.
Proof. destruct s as [|c s]; [reflexivity|]. simpl. now intros ->. Qed.

Lemma trim_part s : exists a b, s = a ++ trim s ++ b.
Proof.
  unfold trim. destruct (trimStart_suffix s) as (a & Ea).
  destruct (trimStart_suffix (rev (trimStart s))) as (b & Eb).
  exists a, (rev b). rewrite Ea at 1. f_equal.
  rewrite <- rev_app_distr, <- Eb. now rewrite rev_involutive.
Qed.

(** The cleaned text neither begins nor ends with white space. *)
Lemma trim_ends s :
  match trim s with c :: _ => is_space c = false | [] => True end
  /\ match rev (trim s) with c :: _ => is_space c = false | [] => True end.
Proof.
  unfold trim. rewrite rev_involutive.
  set (u := trimStart (rev (trimStart s))). split.
  - destruct (trimStart_suffix (rev (trimStart s))) as (b & Eb). fold u in Eb.
    assert (Et : trimStart s = rev u ++ rev b)
      by (rewrite <- rev_app_distr, <- Eb; now rewrite rev_involutive).
    destruct (rev u) as [|c r] eqn:Er; [exact I|].
    simpl in Et. exact (trimStart_head _ _ _ Et).
  - destruct u as [|c r] eqn:Eu; [exact I|]. exact (trimStart_head _ _ _ Eu).
Qed.

Lemma trim_fixed s :
  match s with c :: _ => is_space c = false | [] => True end ->
  match rev s with c :: _ => is_space c = false | [] => True end ->
  trim s = s.
Proof.
  intros H1 H2. unfold trim.
  rewrite (trimStart_fixed s H1), (trimStart_fixed (rev s) H2).
  apply rev_involutive.
Qed.

Lemma occurs_part pat a s b : occurs pat s -> occurs pat (a ++ s ++ b).
Proof.
  intros (pre & post & ->). exists (a ++ pre), (post ++ b).
  now rewrite <- !app_assoc.
Qed.

Lemma removeAll_none pat s :
  pat <> [] -> ~ occurs pat s -> removeAll pat s = s.
Proof.
  intros Hp. induction s as [|c s IH]; intros H; [reflexivity|].
  rewrite removeAll_no_match.
  - f_equal. apply IH. intros Ho. apply H.
    apply (occurs_part pat [c] s []) in Ho. now rewrite app_nil_r in Ho.
  - destruct (strip_prefix pat (c :: s)) as [r|] eqn:E; [|reflexivity].
    exfalso. apply H. exists [], r. exact (strip_prefix_Some _ _ _ E).
Qed.

Lemma occurs_fence_json s : occurs fence_json s -> occurs fence s.
Proof.
  intros (pre & post & ->). exists pre, (lit "json" ++ post). reflexivity.
Qed.

Lemma clean_fence_free s : ~ occurs fence (clean s).
Proof.
  unfold clean. set (t := removeAll fence (removeAll fence_json s)).
  intros Ho. destruct (trim_part t) as (a & b & Et).
  apply (removeAll_fence_free (removeAll fence_json s)). fold t.
  rewrite Et. now apply occurs_part.
Qed.

(** X8: the cleaned text holds no fence and neither begins nor ends with
    white space. *)
Theorem clean_result (s : jsstring) :
  ~ occurs fence (clean s)
  /\ (forall c, hd_error (clean s) = Some c -> is_space c = false)
  /\ (forall c, hd_error (rev (clean s)) = Some c -> is_space c = false).
Proof.
  split; [apply clean_fence_free|].
  unfold clean. set (t := removeAll fence (removeAll fence_json s)).
  split.
  - intros c H. pose proof (proj1 (trim_ends t)) as Hh.
    destruct (trim t); [discriminate|]. injection H as <-. exact Hh.
  - intros c H. pose proof (proj2 (trim_ends t)) as Hh.
    destruct (rev (trim t)); [discriminate|]. injection H as <-. exact Hh.
Qed.

(** X9: cleaning is idempotent: a cleaned text is cleaned to itself. *)
Theorem clean_idempotent (s : jsstring) : clean (clean s) = clean s.
Proof.
  pose proof (clean_fence_free s) as Hf.
  pose proof (trim_ends (removeAll fence (removeAll fence_json s))) as [H1 H2].
  fold (clean s) in H1, H2.
  unfold clean at 1.
  rewrite (removeAll_none fence_json (clean s)); [|discriminate|].
  - rewrite (removeAll_none fence (clean s)); [|discriminate|exact Hf].
    now apply trim_fixed.
  - intros Ho. apply Hf. now apply occurs_fence_json.
Qed.

(** X10: a text without a backquote is only trimmed. *)
Theorem clean_without_backquote (s : jsstring) :
  ~ In backquote s -> clean s = trim s.
Proof.
  intros H. unfold clean.
  rewrite (removeAll_absent fence_json backquote s); [|simpl; tauto|exact H].
  rewrite (removeAll_absent fence backquote s); [|simpl; tauto|exact H].
  reflexivity.
Qed.

(** An empty list between blanks. *)
Lemma clean_without_backquote_witness :
  clean (lit "  [] ") = lit "[]".
Proof.
  refine (clean_without_backquote (lit "  [] ") _).
  intros Hin. simpl in Hin.
  repeat (destruct Hin as [Hin|Hin]; [discriminate Hin|]). exact Hin.
Defined.

End SanitizerExtras.

(* ================================================================== *)
(** ** Further properties of the orchestrator *)
(* ================================================================== *)

Module OrchestratorExtras.

Import JsString Json Conversion Sanitizer Orchestrator RunSpec
  OrchestratorProofs.
Local Open Scope N_scope.

(** *** The diff text *)

Lemma add_diff_app acc f : add_diff acc f = acc ++ diff_of f.
Proof.
  unfold diff_of, add_diff. destruct (patch f) as [[|c p]|];
    now rewrite ?app_nil_r.
Qed.

Lemma fileDiffs_concat files : forall acc,
  fold_left add_diff files acc = acc ++ List.concat (map diff_of files).
Proof.
  induction files as [|f files IH]; intros acc; simpl.
  - now rewrite app_nil_r.
  - now rewrite IH, add_diff_app, app_assoc.
Qed.

Lemma diff_of_empty f : diff_of f = [] <-> has_patch f = false.
Proof.
  unfold diff_of, add_diff, has_patch.
  destruct (patch f) as [[|c p]|]; simpl; split; intros H;
    try reflexivity; discriminate H.
Qed.

(** X11: the diff text of a list of files is made file by file, in
    order: the text of two lists one after the other is the two texts one
    after the other; files without a patch (binary files) or with an
    empty patch add nothing; and the text is empty exactly when no file
    has a patch, as for the empty list. *)
Theorem fileDiffs_structure (files1 files2 : list file) :
  fold_left add_diff (files1 ++ files2) []
  = fold_left add_diff files1 [] ++ fold_left add_diff files2 []
  /\ fold_left add_diff files1 []
     = fold_left add_diff (filter has_patch files1) []
  /\ (fold_left add_diff files1 [] = [] <->
      forall f, In f files1 -> has_patch f = false).
Proof.
  rewrite !fileDiffs_concat. simpl. split; [|split].
  - now rewrite map_app, concat_app.
  - induction files1 as [|f fs IH]; [reflexivity|]. simpl.
    destruct (has_patch f) eqn:E; simpl; rewrite IH; [reflexivity|].
    apply diff_of_empty in E. now rewrite E.
  - induction files1 as [|f fs IH]; simpl.
    + split; [intros _ f []|reflexivity].
    + split.
      * intros H. apply app_eq_nil in H as [H1 H2].
        intros g [<-|Hg]; [now apply diff_of_empty|]. now apply IH.
      * intros H. rewrite (proj2 (diff_of_empty f) (H f (or_introl eq_refl))).
        apply IH. intros g Hg. apply H. now right.
Qed.

(** *** Runs that stop early *)

Lemma run_without_files w e :
  no_prNumber w = false -> listFiles w = Throw e ->
  run w = ([Log FetchingFiles; Call ListFiles; LogError (Fatal e)], 1%Z).
Proof.
  intros Hpr H. unfold run, main, await, bind, emit, lift.
  rewrite Hpr, H. reflexivity.
Qed.

(** X12: when the list of changed files cannot be fetched, the run asks
    for nothing else: the error reaches the handler at the end of the
    script, and the exit status is 1. *)
Theorem listFiles_failure (w : world) (e : error) :
  no_prNumber w = false -> listFiles w = Throw e ->
  run w = ([Log FetchingFiles; Call ListFiles; LogError (Fatal e)], 1%Z).
Proof. apply run_without_files. Qed.

Lemma listFiles_failure_witness : snd (run files_down) = 1%Z.
Proof.
  exact (f_equal snd (listFiles_failure files_down
                        (RequestFailed (lit "404")) eq_refl eq_refl)).
Defined.

Lemma jseqb_eq a : forall b, jseqb a b = true <-> a = b.
Proof.
  induction a as [|x a IH]; intros [|y b]; simpl; split; intros H;
    try reflexivity; try discriminate H.
  - apply andb_prop in H as [H1 H2]. apply N.eqb_eq in H1.
    apply IH in H2. congruence.
  - injection H as -> ->. rewrite N.eqb_refl. now apply IH.
Qed.

Lemma jseqb_neq a b : a <> b -> jseqb a b = false.
Proof.
  intros H. destruct (jseqb a b) eqn:E; [|reflexivity].
  apply jseqb_eq in E. contradiction.
Qed.

(** X13: a review mode that is neither "inline" nor "summary" nor "full"
    runs neither review: the run lists the changed files, asks for
    nothing else, logs its completion and exits with status 0. *)
Theorem unknown_mode (w : world) (files : list file) :
  no_prNumber w = false -> listFiles w = Ok files ->
  REVIEW_MODE w <> s_inline -> REVIEW_MODE w <> s_summary ->
  REVIEW_MODE w <> s_full ->
  run w = (preamble files ++ [Log Completed], 0%Z)
  /\ call_kinds (fst (run w)) = [KListFiles].
Proof.
  intros Hpr Hf H1 H2 H3.
  assert (E : run w = (preamble files ++ [Log Completed], 0%Z)).
  { rewrite (run_eq w files Hpr Hf). cbv zeta.
    unfold inline_requested, summary_requested.
    rewrite !jseqb_neq by assumption. reflexivity. }
  split; [exact E|]. rewrite E. destruct files; reflexivity.
Qed.

(** The mode is compared as it is written: "Inline" is no mode. *)
Lemma unknown_mode_witness :
  call_kinds (fst (run odd_mode_world)) = [KListFiles].
Proof.
  refine (proj2 (unknown_mode odd_mode_world [a_file] eq_refl eq_refl _ _ _));
    discriminate.
Defined.

(** *** The blocks, event by event *)

Lemma post_inline_eq w v :
  post_inline w v =
  match getPull w with
  | Throw e => ([Call GetPull; LogError (CreateReviewFailed e);
                 Log (GeneratedInline v)], Ok tt)
  | Ok sha =>
      match map_comments v with
      | Throw e => ([Call GetPull; LogError (CreateReviewFailed e);
                     Log (GeneratedInline v)], Ok tt)
      | Ok cs =>
          match createReview w sha cs with
          | Ok _ => ([Call GetPull; Call (CreateReview sha cs)], Ok tt)
          | Throw e => ([Call GetPull; Call (CreateReview sha cs);
                         LogError (CreateReviewFailed e);
                         Log (GeneratedInline v)], Ok tt)
          end
      end
  end.
Proof.
  unfold post_inline, try_catch, await, bind, emit, lift; simpl.
  destruct (getPull w) as [sha|e]; simpl; [|reflexivity].
  destruct (map_comments v) as [cs|e]; simpl; [|reflexivity].
  destruct (createReview w sha cs) as [[]|e]; reflexivity.
Qed.

Lemma call_kinds_app t1 t2 :
  call_kinds (t1 ++ t2) = call_kinds t1 ++ call_kinds t2.
Proof. apply flat_map_app. Qed.

Lemma sanitize_log_facts resp :
  call_kinds (sanitize_log resp) = []
  /\ forallb of_inline (sanitize_log resp) = true.
Proof. unfold sanitize_log. destruct (parse_response resp); split; reflexivity. Qed.

Lemma post_inline_facts w v :
  (call_kinds (fst (post_inline w v)) = [KGetPull]
   \/ call_kinds (fst (post_inline w v)) = [KGetPull; KCreateReview])
  /\ forallb of_inline (fst (post_inline w v)) = true.
Proof.
  rewrite post_inline_eq.
  destruct (getPull w) as [sha|e]; [|split; [left|]; reflexivity].
  destruct (map_comments v) as [cs|e]; [|split; [left|]; reflexivity].
  destruct (createReview w sha cs) as [[]|e]; split; try reflexivity;
    right; reflexivity.
Qed.

Lemma inline_block_facts w fd :
  exists I, In I inline_calls
            /\ call_kinds (fst (inline_block w fd)) = I
            /\ (inline_requested w = false -> I = [])
            /\ forallb of_inline (fst (inline_block w fd)) = true.
Proof.
  unfold inline_block. destruct (inline_requested w).
  2:{ exists []. repeat split. now left. }
  rewrite inline_review_eq.
  destruct (sanitize_log_facts
              (match generate w inlineFormat fd GEMINI_API_KEY with
               | Ok r => r | Throw _ => None end)) as [Hs1 Hs2].
  destruct (generate w inlineFormat fd GEMINI_API_KEY) as [resp|e].
  2:{ exists [KGenerateInline]. repeat split; try discriminate.
      right; now left. }
  destruct (property (sanitized resp) s_length) as [n|e].
  2:{ exists [KGenerateInline]. cbn [fst].
      rewrite call_kinds_app, forallb_app, Hs1, Hs2.
      repeat split; try discriminate. right; now left. }
  destruct (post_inline_facts w (sanitized resp)) as [Hp1 Hp2].
  destruct (truthy n); [destruct (template n)|]; cbn [fst].
  - rewrite !call_kinds_app, !forallb_app, Hs1, Hs2, Hp2.
    destruct Hp1 as [-> | ->].
    + exists [KGenerateInline; KGetPull]. repeat split; try discriminate.
      right; right; now left.
    + exists [KGenerateInline; KGetPull; KCreateReview].
      repeat split; try discriminate. right; right; right; now left.
  - rewrite !call_kinds_app, !forallb_app, Hs1, Hs2, Hp2.
    destruct Hp1 as [-> | ->].
    + exists [KGenerateInline; KGetPull].
      repeat split; try discriminate. right; right; now left.
    + exists [KGenerateInline; KGetPull; KCreateReview].
      repeat split; try discriminate. right; right; right; now left.
  - rewrite !call_kinds_app, !forallb_app, Hs1, Hs2.
    exists [KGenerateInline]. repeat split; try discriminate.
    right; now left.
Qed.

Lemma summary_block_facts w fd :
  exists S, In S summary_calls
            /\ call_kinds (fst (summary_block w fd)) = S
            /\ (summary_requested w = false -> S = [])
            /\ forallb of_summary (fst (summary_block w fd)) = true.
Proof.
  unfold summary_block. destruct (summary_requested w).
  2:{ exists []. repeat split. now left. }
  rewrite summary_review_eq.
  destruct (generate w summaryFormat fd GEMINI_API_KEY_2)
    as [[[|c text]|]|e];
    try (exists [KGenerateSummary]; repeat split; try discriminate;
         right; now left).
  destruct (createComment w (summary_heading ++ c :: text)) as [[]|e];
    exists [KGenerateSummary; KCreateComment];
    repeat split; try discriminate; right; right; now left.
Qed.

(** A run that has a pull request number and its files, block by
    block. *)
Lemma run_blocks w files :
  no_prNumber w = false -> listFiles w = Ok files ->
  run w =
  match inline_block w (fold_left add_diff files []) with
  | (ti, Throw e) => (preamble files ++ ti ++ [LogError (Fatal e)], 1%Z)
  | (ti, Ok _) =>
      match summary_block w (fold_left add_diff files []) with
      | (ts, Throw e) =>
          (preamble files ++ ti ++ ts ++ [LogError (Fatal e)], 1%Z)
      | (ts, Ok _) => (preamble files ++ ti ++ ts ++ [Log Completed], 0%Z)
      end
  end.
Proof. intros Hpr Hf. exact (run_eq w files Hpr Hf). Qed.

Lemma preamble_facts files :
  call_kinds (preamble files) = [KListFiles]
  /\ forall e, In e (preamble files) ->
               of_inline e = false /\ of_summary e = false
               /\ e <> Log Completed.
Proof.
  split; [destruct files; reflexivity|].
  intros e H. destruct files; simpl in H;
    repeat (destruct H as [<-|H]; [repeat split; discriminate|]);
    destruct H.
Qed.

Lemma forallb_In {A} (f : A -> bool) l x :
  forallb f l = true -> In x l -> f x = true.
Proof. intros H. rewrite forallb_forall in H. apply H. Qed.

(** *** The requests of a run *)

(** X14: the requests of a run come in one fixed order, each at most
    once: the list of files; then, for inline mode, the generation, the
    pull request, the creation of the review; then, for summary mode, the
    generation and the creation of the comment; each part may stop
    early, never skip ahead.  So nothing is posted that was not
    generated in the same run, and a mode that was not asked for
    requests nothing. *)
Theorem run_requests (w : world) :
  no_prNumber w = false ->
  exists I S,
    In I inline_calls /\ In S summary_calls
    /\ call_kinds (fst (run w)) = KListFiles :: I ++ S
    /\ (inline_requested w = false -> I = [])
    /\ (summary_requested w = false -> S = []).
Proof.
  intros Hpr. destruct (listFiles w) as [files|e] eqn:Hf.
  2:{ rewrite (run_without_files w e Hpr Hf). exists [], [].
      repeat split; now left. }
  rewrite (run_blocks w files Hpr Hf).
  set (fd := fold_left add_diff files []).
  destruct (inline_block_facts w fd) as (I & HI & EI & NI & _).
  destruct (summary_block_facts w fd) as (S & HS & ES & NS & _).
  destruct (preamble_facts files) as [Hp _].
  destruct (inline_block w fd) as [ti [[]|e]]; cbn [fst] in *.
  - destruct (summary_block w fd) as [ts [[]|e]]; cbn [fst] in *;
      exists I, S; rewrite !call_kinds_app, Hp, EI, ES; simpl;
      rewrite app_nil_r; repeat split; assumption.
  - exists I, []. rewrite !call_kinds_app, Hp, EI. simpl.
    rewrite !app_nil_r. repeat split; try assumption. now left.
Qed.

(** In the quiet run: the list, and the two generations. *)
Lemma run_requests_witness :
  call_kinds (fst (run quiet_world))
  = [KListFiles; KGenerateInline; KGenerateSummary].
Proof.
  destruct (run_requests quiet_world eq_refl) as (I & S & _ & _ & _ & _ & _).
  reflexivity.
Defined.

(** X15: a run ends in one of two ways: with status 0, its last line of
    log being the completion notice; or with status 1, its last line of
    log being an error, and the completion notice not logged at all. *)
Theorem run_exit_status (w : world) :
  (snd (run w) = 0%Z /\ exists t, fst (run w) = t ++ [Log Completed])
  \/ (snd (run w) = 1%Z
      /\ (exists t m, fst (run w) = t ++ [LogError m])
      /\ ~ In (Log Completed) (fst (run w))).
Proof.
  destruct (no_prNumber w) eqn:Hpr.
  { right. unfold run. rewrite Hpr. split; [reflexivity|]. split.
    - now exists [], NoPullRequest.
    - intros [H|[]]. discriminate H. }
  destruct (listFiles w) as [files|e] eqn:Hf.
  2:{ right. rewrite (run_without_files w e Hpr Hf).
      split; [reflexivity|]. split.
      - now exists [Log FetchingFiles; Call ListFiles], (Fatal e).
      - intros H. simpl in H.
        repeat (destruct H as [H|H]; [discriminate H|]). exact H. }
  rewrite (run_blocks w files Hpr Hf).
  set (fd := fold_left add_diff files []).
  destruct (inline_block_facts w fd) as (_ & _ & _ & _ & FI).
  destruct (summary_block_facts w fd) as (_ & _ & _ & _ & FS).
  destruct (preamble_facts files) as [_ Hp].
  assert (NI : forall ti, forallb of_inline ti = true ->
                          ~ In (Log Completed) ti).
  { intros ti F H. apply (forallb_In _ _ _ F) in H. discriminate H. }
  assert (NS : forall ts, forallb of_summary ts = true ->
                          ~ In (Log Completed) ts).
  { intros ts F H. apply (forallb_In _ _ _ F) in H. discriminate H. }
  assert (NP : ~ In (Log Completed) (preamble files)).
  { intros H. now apply Hp in H. }
  destruct (inline_block w fd) as [ti [[]|e]]; cbn [fst snd] in *.
  - destruct (summary_block w fd) as [ts [[]|e]]; cbn [fst snd] in *.
    + left. split; [reflexivity|].
      exists (preamble files ++ ti ++ ts). now rewrite <- !app_assoc.
    + right. split; [reflexivity|]. split.
      * exists (preamble files ++ ti ++ ts), (Fatal e).
        now rewrite <- !app_assoc.
      * intros H. repeat (apply in_app_or in H as [H|H]);
          [now apply NP|now apply (NI ti)|now apply (NS ts)|].
        destruct H as [H|[]]. discriminate H.
  - right. split; [reflexivity|]. split.
    + exists (preamble files ++ ti), (Fatal e). now rewrite <- !app_assoc.
    + intros H. repeat (apply in_app_or in H as [H|H]);
        [now apply NP|now apply (NI ti)|].
      destruct H as [H|[]]. discriminate H.
Qed.

(** *** Where an event comes from *)

Lemma inline_event_origin w e :
  of_inline e = true -> In e (fst (run w)) ->
  exists files,
    no_prNumber w = false /\ listFiles w = Ok files
    /\ inline_requested w = true
    /\ In e (fst (inline_review w (fold_left add_diff files []))).
Proof.
  intros He H. destruct (no_prNumber w) eqn:Hpr.
  { unfold run in H. rewrite Hpr in H. destruct H as [<-|[]]. discriminate He. }
  destruct (listFiles w) as [files|err] eqn:Hf.
  2:{ rewrite (run_without_files w err Hpr Hf) in H. simpl in H.
      repeat (destruct H as [<-|H]; [discriminate He|]). destruct H. }
  exists files. rewrite (run_blocks w files Hpr Hf) in H.
  set (fd := fold_left add_diff files []) in *.
  destruct (summary_block_facts w fd) as (_ & _ & _ & _ & FS).
  destruct (preamble_facts files) as [_ Hp].
  assert (NS : forall ts, forallb of_summary ts = true -> ~ In e ts).
  { intros ts F Hin. apply (forallb_In _ _ _ F) in Hin.
    destruct e as [m|m|r];
      [destruct m|destruct m|destruct r as [|f ? ?| | |]; try destruct f];
      simpl in He, Hin; congruence. }
  assert (Hti : In e (fst (inline_block w fd))).
  { destruct (inline_block w fd) as [ti [[]|err]]; cbn [fst] in *.
    - destruct (summary_block w fd) as [ts [[]|err]]; cbn [fst] in *;
        repeat (apply in_app_or in H as [H|H]);
        try (apply Hp in H; destruct H as (H & _); congruence);
        try exact H; try (exfalso; now apply (NS ts));
        destruct H as [<-|[]]; discriminate He.
    - repeat (apply in_app_or in H as [H|H]);
        try (apply Hp in H; destruct H as (H & _); congruence);
        try exact H.
      destruct H as [<-|[]]; discriminate He. }
  unfold inline_block in Hti.
  destruct (inline_requested w); [auto|destruct Hti].
Qed.

Lemma summary_event_origin w e :
  of_summary e = true -> In e (fst (run w)) ->
  exists files,
    no_prNumber w = false /\ listFiles w = Ok files
    /\ summary_requested w = true
    /\ snd (inline_block w (fold_left add_diff files [])) = Ok tt
    /\ In e (fst (summary_review w (fold_left add_diff files []))).
Proof.
  intros He H. destruct (no_prNumber w) eqn:Hpr.
  { unfold run in H. rewrite Hpr in H. destruct H as [<-|[]]. discriminate He. }
  destruct (listFiles w) as [files|err] eqn:Hf.
  2:{ rewrite (run_without_files w err Hpr Hf) in H. simpl in H.
      repeat (destruct H as [<-|H]; [discriminate He|]). destruct H. }
  exists files. rewrite (run_blocks w files Hpr Hf) in H.
  set (fd := fold_left add_diff files []) in *.
  destruct (inline_block_facts w fd) as (_ & _ & _ & _ & FI).
  destruct (preamble_facts files) as [_ Hp].
  assert (NI : forall ti, forallb of_inline ti = true -> ~ In e ti).
  { intros ti F Hin. apply (forallb_In _ _ _ F) in Hin.
    destruct e as [m|m|r];
      [destruct m|destruct m|destruct r as [|f ? ?| | |]; try destruct f];
      simpl in He, Hin; congruence. }
  assert (Hts : snd (inline_block w fd) = Ok tt
                /\ In e (fst (summary_block w fd))).
  { destruct (inline_block w fd) as [ti [[]|err]]; cbn [fst snd] in *.
    - split; [reflexivity|].
      destruct (summary_block w fd) as [ts [[]|err]]; cbn [fst] in *;
        repeat (apply in_app_or in H as [H|H]);
        try (apply Hp in H; destruct H as (_ & H & _); congruence);
        try exact H; try (exfalso; now apply (NI ti));
        destruct H as [<-|[]]; discriminate He.
    - exfalso. repeat (apply in_app_or in H as [H|H]);
        try (apply Hp in H; destruct H as (_ & H & _); congruence);
        try (now apply (NI ti)).
      destruct H as [<-|[]]; discriminate He. }
  destruct Hts as [Hok Hts]. unfold summary_block in Hts.
  destruct (summary_requested w); [auto|destruct Hts].
Qed.

(** *** The summary comment *)

(** X16: a summary comment is requested only in summary mode, and only
    with a text that the model gave in this run and that is not empty;
    its body is the heading followed by that text, unchanged. *)
Theorem summary_comment_origin (w : world) (b : jsstring) :
  In (Call (CreateComment b)) (fst (run w)) ->
  summary_requested w = true
  /\ exists text,
      text <> []
      /\ generate w summaryFormat (fileDiffs_of w) GEMINI_API_KEY_2
         = Ok (Some text)
      /\ b = summary_heading ++ text.
Proof.
  intros H.
  destruct (summary_event_origin w (Call (CreateComment b)) eq_refl H)
    as (files & Hpr & Hf & Hs & _ & Hin).
  split; [exact Hs|]. unfold fileDiffs_of. rewrite Hf.
  rewrite summary_review_eq in Hin.
  destruct (generate w summaryFormat (fold_left add_diff files [])
              GEMINI_API_KEY_2) as [[[|c text]|]|e];
    try (simpl in Hin;
         repeat (destruct Hin as [Hin|Hin]; [discriminate Hin|]);
         now destruct Hin).
  exists (c :: text). split; [discriminate|]. split; [reflexivity|].
  destruct (createComment w (summary_heading ++ c :: text)) as [[]|e];
    cbn [fst app summary_head] in Hin;
    repeat (destruct Hin as [Hin|Hin];
            [try discriminate Hin; now injection Hin as <-|]);
    destruct Hin.
Qed.

Lemma summary_comment_origin_witness :
  summary_requested no_files_world = true.
Proof.
  refine (proj1 (summary_comment_origin no_files_world
                   (summary_heading ++ lit "Nothing to review.") _)).
  vm_compute. tauto.
Defined.

(** X17: a failure to create the summary comment is not caught: unlike a
    failure to create the inline review, it ends the run with status 1;
    the error is logged by the handler at the end of the script and the
    notice that the summary was posted is not logged. *)
Theorem summary_post_failure
  (w : world) (files : list file) (text : jsstring) (e : error) :
  no_prNumber w = false -> listFiles w = Ok files ->
  summary_requested w = true ->
  snd (inline_block w (fold_left add_diff files [])) = Ok tt ->
  generate w summaryFormat (fold_left add_diff files []) GEMINI_API_KEY_2
  = Ok (Some text) ->
  text <> [] ->
  createComment w (summary_heading ++ text) = Throw e ->
  snd (run w) = 1%Z
  /\ In (LogError (Fatal e)) (fst (run w))
  /\ ~ In (Log SummaryPosted) (fst (run w)).
Proof.
  intros Hpr Hf Hs Hi Hg Ht Hc.
  assert (Es : summary_review w (fold_left add_diff files [])
               = (summary_head (fold_left add_diff files [])
                    ++ [Call (CreateComment (summary_heading ++ text))],
                  Throw e)).
  { rewrite summary_review_eq, Hg. destruct text; [congruence|].
    now rewrite Hc. }
  split; [|split].
  - rewrite (run_blocks w files Hpr Hf). unfold summary_block.
    rewrite Hs, Es.
    destruct (inline_block w (fold_left add_diff files [])) as [ti [[]|e']];
      [reflexivity|discriminate Hi].
  - rewrite (run_blocks w files Hpr Hf). unfold summary_block.
    rewrite Hs, Es.
    destruct (inline_block w (fold_left add_diff files [])) as [ti [[]|e']];
      [|discriminate Hi].
    cbn [fst]. rewrite !app_assoc. apply in_or_app. right. now left.
  - intros H.
    destruct (summary_event_origin w (Log SummaryPosted) eq_refl H)
      as (files' & _ & Hf' & _ & _ & Hin).
    rewrite Hf in Hf'. injection Hf' as <-. rewrite Es in Hin.
    simpl in Hin.
    repeat (destruct Hin as [Hin|Hin]; [discriminate Hin|]). exact Hin.
Qed.

Lemma summary_post_failure_witness : snd (run comment_refused) = 1%Z.
Proof.
  refine (proj1 (summary_post_failure comment_refused [a_file] (lit "Fine.")
                   (RequestFailed (lit "403"))
                   eq_refl eq_refl eq_refl eq_refl eq_refl _ eq_refl)).
  discriminate.
Defined.

(** *** The inline review *)

Lemma property_field c k x :
  property c k = Ok x -> nullish c = false /\ field c k = x.
Proof.
  unfold property, field. destruct (get c k) as [y|] eqn:E; [|discriminate].
  intros H. injection H as <-. split; [|reflexivity].
  destruct c; try reflexivity; discriminate E.
Qed.

Lemma to_comment_made c rc : to_comment c = Ok rc -> made_of c rc.
Proof.
  unfold to_comment, made_of, template.
  destruct (property c s_file) as [f|] eqn:Ef; [|discriminate].
  destruct (property c s_line) as [l|] eqn:El; [|discriminate].
  destruct (property c s_comment) as [b|] eqn:Eb; [|discriminate].
  destruct (ToString b) as [text|] eqn:Et; [|discriminate].
  intros H. injection H as <-. cbn [path position body].
  destruct (property_field _ _ _ Ef) as [Hn ->].
  destruct (property_field _ _ _ El) as [_ ->].
  destruct (property_field _ _ _ Eb) as [_ ->].
  split; [exact Hn|]. split; [reflexivity|]. split; [reflexivity|].
  exists text. split; [exact Et|reflexivity].
Qed.

Lemma map_result_to_comment items : forall cs,
  map_result to_comment items = Ok cs -> Forall2 made_of items cs.
Proof.
  induction items as [|c items IH]; intros cs; cbn [map_result].
  - intros H. injection H as <-. constructor.
  - destruct (to_comment c) as [rc|e] eqn:Ec; [|discriminate].
    destruct (map_result to_comment items) as [rcs|e]; [|discriminate].
    intros H. injection H as <-. constructor.
    + now apply to_comment_made.
    + now apply IH.
Qed.

Lemma map_comments_Ok v cs :
  map_comments v = Ok cs ->
  exists items, v = JArr items /\ Forall2 made_of items cs.
Proof.
  destruct v as [| | | | |items|]; try discriminate. cbn [map_comments].
  intros H. exists items. split; [reflexivity|].
  now apply map_result_to_comment.
Qed.

Lemma truthy_of_nat n : truthy (of_nat n) = negb (Nat.eqb n 0).
Proof.
  unfold truthy, of_nat, is_zero. cbn [mantissa exp10].
  change (0 <? 0)%Z with false. rewrite andb_false_l, orb_false_r.
  destruct n; reflexivity.
Qed.

Lemma length_of_array items :
  property (JArr items) s_length = Ok (of_nat (List.length items)).
Proof. reflexivity. Qed.

Lemma sanitize_log_no_call resp r : ~ In (Call r) (sanitize_log resp).
Proof.
  unfold sanitize_log. destruct (parse_response resp); simpl;
    intros H; repeat (destruct H as [H|H]; [discriminate H|]); exact H.
Qed.

Lemma sanitized_parsed resp v :
  sanitized resp = v -> v <> JArr [] -> parse_response resp = Ok v.
Proof.
  unfold sanitized. destruct (parse_response resp); congruence.
Qed.

(** The inline block of a run whose files and inline response are
    known. *)
Lemma inline_block_eq w fd resp :
  inline_requested w = true ->
  generate w inlineFormat fd GEMINI_API_KEY = Ok resp ->
  inline_block w fd =
  match property (sanitized resp) s_length with
  | Throw e => (inline_head fd ++ sanitize_log resp, Throw e)
  | Ok n =>
      if truthy n
      then match template n with
           | Ok _ =>
               (inline_head fd ++ sanitize_log resp
                  ++ fst (post_inline w (sanitized resp))
                  ++ [Log (AddedInline n)], Ok tt)
           | Throw e =>
               (inline_head fd ++ sanitize_log resp
                  ++ fst (post_inline w (sanitized resp)), Throw e)
           end
      else (inline_head fd ++ sanitize_log resp ++ [Log NoInlineIssues],
            Ok tt)
  end.
Proof.
  intros Hi Hg. unfold inline_block. now rewrite Hi, inline_review_eq, Hg.
Qed.

Lemma in_run_inline w files e :
  no_prNumber w = false -> listFiles w = Ok files ->
  In e (fst (inline_block w (fold_left add_diff files []))) ->
  In e (fst (run w)).
Proof.
  intros Hpr Hf H. rewrite (run_blocks w files Hpr Hf).
  destruct (inline_block w (fold_left add_diff files [])) as [ti [[]|err]];
    cbn [fst] in *.
  - destruct (summary_block w (fold_left add_diff files [])) as [ts [[]|err]];
      cbn [fst]; apply in_or_app; right; apply in_or_app; now left.
  - apply in_or_app; right; apply in_or_app; now left.
Qed.

(** What the inline block does after the sanitizer, when the length of
    the value is truthy. *)
Lemma in_inline_posting w fd resp n e :
  inline_requested w = true ->
  generate w inlineFormat fd GEMINI_API_KEY = Ok resp ->
  property (sanitized resp) s_length = Ok n -> truthy n = true ->
  In (Call e) (fst (inline_block w fd)) ->
  Call e = Call (Generate inlineFormat fd GEMINI_API_KEY)
  \/ In (Call e) (fst (post_inline w (sanitized resp))).
Proof.
  intros Hi Hg Hn Ht H. rewrite (inline_block_eq w fd resp Hi Hg), Hn, Ht in H.
  assert (Hh : In (Call e) (inline_head fd) ->
               Call e = Call (Generate inlineFormat fd GEMINI_API_KEY)).
  { intros [Hh|[Hh|[]]]; [discriminate Hh|now symmetry]. }
  destruct (template n); cbn [fst] in H;
    repeat (apply in_app_or in H as [H|H]); auto;
    try (exfalso; exact (sanitize_log_no_call _ _ H));
    destruct H as [H|[]]; discriminate H.
Qed.

(** X18: a review is requested only in inline mode, for the commit that
    the pull request answered, and with the comments of the model: the
    cleaned response of this run parsed to an array that is not empty and
    has no [null] element, and the review has one comment for each
    element, in the same order: its path and its position are the
    element's [file] and [line] as the model gave them ([line] is passed
    on as the position; [getDiffPosition] is not applied), and its body is
    the light-bulb sign followed by the element's [comment] converted to
    a string, a conversion that succeeded for every element. *)
Theorem review_request_origin
  (w : world) (sha : jsstring) (cs : list review_comment) :
  In (Call (CreateReview sha cs)) (fst (run w)) ->
  inline_requested w = true
  /\ getPull w = Ok sha
  /\ exists resp items,
      generate w inlineFormat (fileDiffs_of w) GEMINI_API_KEY = Ok resp
      /\ parse_response resp = Ok (JArr items)
      /\ items <> []
      /\ Forall2 made_of items cs.
Proof.
  intros H.
  destruct (inline_event_origin w (Call (CreateReview sha cs)) eq_refl H)
    as (files & Hpr & Hf & Hi & Hin).
  split; [exact Hi|]. unfold fileDiffs_of. rewrite Hf.
  set (fd := fold_left add_diff files []) in *.
  assert (Hb : In (Call (CreateReview sha cs)) (fst (inline_block w fd)))
    by (unfold inline_block; now rewrite Hi).
  clear Hin. destruct (generate w inlineFormat fd GEMINI_API_KEY)
    as [resp|e] eqn:Hg.
  2:{ unfold inline_block in Hb. rewrite Hi, inline_review_eq, Hg in Hb.
      simpl in Hb.
      repeat (destruct Hb as [Hb|Hb]; [discriminate Hb|]). destruct Hb. }
  destruct (property (sanitized resp) s_length) as [n|e] eqn:Hn.
  2:{ rewrite (inline_block_eq w fd resp Hi Hg), Hn in Hb. cbn [fst] in Hb.
      apply in_app_or in Hb as [Hb|Hb].
      - simpl in Hb.
        repeat (destruct Hb as [Hb|Hb]; [discriminate Hb|]). destruct Hb.
      - now apply sanitize_log_no_call in Hb. }
  destruct (truthy n) eqn:Ht.
  2:{ rewrite (inline_block_eq w fd resp Hi Hg), Hn, Ht in Hb.
      cbn [fst] in Hb.
      repeat (apply in_app_or in Hb as [Hb|Hb]);
        try (now apply sanitize_log_no_call in Hb);
        simpl in Hb;
        repeat (destruct Hb as [Hb|Hb]; [discriminate Hb|]); destruct Hb. }
  destruct (in_inline_posting w fd resp n _ Hi Hg Hn Ht Hb) as [Hx|Hp];
    [discriminate Hx|].
  rewrite post_inline_eq in Hp.
  destruct (getPull w) as [sha'|e].
  2:{ simpl in Hp.
      repeat (destruct Hp as [Hp|Hp]; [discriminate Hp|]). destruct Hp. }
  destruct (map_comments (sanitized resp)) as [cs'|e] eqn:Hm.
  2:{ simpl in Hp.
      repeat (destruct Hp as [Hp|Hp]; [discriminate Hp|]). destruct Hp. }
  assert (E : sha' = sha /\ cs' = cs).
  { destruct (createReview w sha' cs') as [[]|e]; simpl in Hp;
      repeat (destruct Hp as [Hp|Hp];
              [try discriminate Hp; injection Hp as -> ->; now split|]);
      destruct Hp. }
  destruct E as [-> ->]. split; [reflexivity|].
  destruct (map_comments_Ok _ _ Hm) as (items & Hv & Hcs).
  assert (Hne : items <> []).
  { intros ->. rewrite Hv in Hn. rewrite length_of_array in Hn.
    injection Hn as <-. discriminate Ht. }
  exists resp, items. split; [reflexivity|]. split.
  - apply sanitized_parsed; [exact Hv|]. congruence.
  - now split.
Qed.

(** The review of one comment, on line 2 of a.ts. *)
Lemma review_request_origin_witness :
  inline_requested review_world = true
  /\ getPull review_world = Ok (lit "c0ffee").
Proof.
  refine (let H := review_request_origin review_world (lit "c0ffee")
                     [{| path := JStr (lit "a.ts");
                         position := of_nat 2;
                         body := s_bulb ++ lit "ok" |}] _ in
          conj (proj1 H) (proj1 (proj2 H))).
  vm_compute. tauto.
Defined.

(** X19: when the value of the sanitizer has a length that is truthy, the
    pull request is fetched, and after the posting, whether or not a
    review was created, the notice of the comments added is written with
    that length in it.  If the length converts to a string, as every
    number does, the notice is logged: also when the pull request could
    not be fetched or the comments could not be built (the value is not
    an array, an element of it is [null], or the [comment] of an element
    cannot be converted), in which case no review is requested.  If the
    length cannot be converted, the notice is not logged: the TypeError
    reaches the handler at the end of the script and the run ends with
    status 1, summary mode not run. *)
Theorem added_notice_after_posting
  (w : world) (files : list file) (resp : option jsstring) (n : value) :
  no_prNumber w = false -> listFiles w = Ok files ->
  inline_requested w = true ->
  generate w inlineFormat (fold_left add_diff files []) GEMINI_API_KEY
  = Ok resp ->
  property (sanitized resp) s_length = Ok n -> truthy n = true ->
  In (Call GetPull) (fst (run w))
  /\ (forall text, template n = Ok text ->
        In (Log (AddedInline n)) (fst (run w)))
  /\ (forall e, template n = Throw e ->
        ~ In (Log (AddedInline n)) (fst (run w))
        /\ snd (run w) = 1%Z
        /\ In (LogError (Fatal e)) (fst (run w))
        /\ existsb (is_generate summaryFormat) (fst (run w)) = false)
  /\ ((exists e, getPull w = Throw e)
      \/ (exists e, map_comments (sanitized resp) = Throw e) ->
      forall sha cs, ~ In (Call (CreateReview sha cs)) (fst (run w))).
Proof.
  intros Hpr Hf Hi Hg Hn Ht.
  set (fd := fold_left add_diff files []) in *.
  pose proof (inline_block_eq w fd resp Hi Hg) as Eb.
  rewrite Hn, Ht in Eb.
  split; [|split; [|split]].
  - apply (in_run_inline w files _ Hpr Hf). fold fd. rewrite Eb.
    assert (Hp : In (Call GetPull) (fst (post_inline w (sanitized resp)))).
    { rewrite post_inline_eq.
      destruct (getPull w) as [sha|e]; [|now left].
      destruct (map_comments (sanitized resp)) as [cs|e]; [|now left].
      destruct (createReview w sha cs) as [[]|e]; now left. }
    destruct (template n); cbn [fst];
      apply in_or_app; right; apply in_or_app; right;
      [apply in_or_app; now left|exact Hp].
  - intros text Hx. apply (in_run_inline w files _ Hpr Hf). fold fd.
    rewrite Eb, Hx. cbn [fst].
    apply in_or_app; right. apply in_or_app; right. apply in_or_app; right.
    now left.
  - intros e Hx. rewrite Hx in Eb.
    assert (Er : run w = (preamble files
                            ++ (inline_head fd ++ sanitize_log resp
                                  ++ fst (post_inline w (sanitized resp)))
                            ++ [LogError (Fatal e)], 1%Z)).
    { rewrite (run_blocks w files Hpr Hf). fold fd. now rewrite Eb. }
    split; [|split; [|split]].
    + intros H.
      destruct (inline_event_origin w (Log (AddedInline n)) eq_refl H)
        as (files' & _ & Hf' & _ & Hin).
      rewrite Hf in Hf'. injection Hf' as <-. fold fd in Hin.
      unfold inline_block in Eb. rewrite Hi in Eb. rewrite Eb in Hin.
      cbn [fst] in Hin.
      apply in_app_or in Hin as [Hin|Hin].
      { simpl in Hin.
        repeat (destruct Hin as [Hin|Hin]; [discriminate Hin|]).
        destruct Hin. }
      apply in_app_or in Hin as [Hin|Hin].
      { unfold sanitize_log in Hin.
        destruct (parse_response resp); simpl in Hin;
          repeat (destruct Hin as [Hin|Hin]; [discriminate Hin|]);
          destruct Hin. }
      rewrite post_inline_eq in Hin.
      destruct (getPull w) as [sha|e1];
        [destruct (map_comments (sanitized resp)) as [cs|e1];
         [destruct (createReview w sha cs) as [[]|e1]|]|];
        simpl in Hin;
        repeat (destruct Hin as [Hin|Hin]; [discriminate Hin|]);
        destruct Hin.
    + now rewrite Er.
    + rewrite Er. cbn [fst]. rewrite !app_assoc. apply in_or_app. right.
      now left.
    + rewrite Er. cbn [fst].
      destruct (preamble_quiet files) as (_ & _ & Hq).
      rewrite !existsb_app, Hq, post_inline_no_summary.
      unfold sanitize_log. destruct (parse_response resp); reflexivity.
  - intros Hfail sha cs H.
    destruct (inline_event_origin w (Call (CreateReview sha cs)) eq_refl H)
      as (files' & _ & Hf' & _ & Hin).
    rewrite Hf in Hf'. injection Hf' as <-. fold fd in Hin.
    assert (Hb : In (Call (CreateReview sha cs)) (fst (inline_block w fd)))
      by (unfold inline_block; now rewrite Hi).
    destruct (in_inline_posting w fd resp n _ Hi Hg Hn Ht Hb) as [Hx|Hp];
      [discriminate Hx|].
    rewrite post_inline_eq in Hp.
    destruct Hfail as [[e He]|[e He]].
    + rewrite He in Hp. simpl in Hp.
      repeat (destruct Hp as [Hp|Hp]; [discriminate Hp|]).
      destruct Hp.
    + rewrite He in Hp.
      destruct (getPull w) as [sha'|e']; simpl in Hp;
        repeat (destruct Hp as [Hp|Hp]; [discriminate Hp|]);
        destruct Hp.
Qed.

(** The pull request cannot be fetched, and the notice says that one
    comment was added; with a length that cannot be converted, the run
    ends with status 1. *)
Lemma added_notice_after_posting_witness :
  In (Log (AddedInline (of_nat 1))) (fst (run pull_down))
  /\ snd (run odd_length_world) = 1%Z.
Proof.
  split.
  - refine (proj1 (proj2 (added_notice_after_posting pull_down [a_file]
                            (Some one_comment) (of_nat 1)
                            eq_refl eq_refl eq_refl eq_refl _ eq_refl))
              (lit "1") eq_refl).
    vm_compute. reflexivity.
  - refine (proj1 (proj2 (proj1 (proj2 (proj2
              (added_notice_after_posting odd_length_world [a_file]
                 (Some odd_length) (JObj [(s_toString, of_nat 1)])
                 eq_refl eq_refl eq_refl eq_refl _ eq_refl)))
              TypeError eq_refl))).
    vm_compute. reflexivity.
Defined.

(** X20: when the cleaned response parses to [null], the test of its
    length throws outside the two [try] blocks: the run ends with status
    1, the TypeError is logged by the handler at the end of the script,
    and after the inline generation nothing is requested: no review, and
    no summary even in full mode. *)
Theorem null_response_fatal
  (w : world) (files : list file) (resp : option jsstring) :
  no_prNumber w = false -> listFiles w = Ok files ->
  inline_requested w = true ->
  generate w inlineFormat (fold_left add_diff files []) GEMINI_API_KEY
  = Ok resp ->
  parse_response resp = Ok JNull ->
  run w = (preamble files
             ++ inline_head (fold_left add_diff files [])
             ++ [Log (GeneratedInline JNull); LogError (Fatal TypeError)],
           1%Z)
  /\ call_kinds (fst (run w)) = [KListFiles; KGenerateInline].
Proof.
  intros Hpr Hf Hi Hg Hp.
  assert (E : run w = (preamble files
             ++ inline_head (fold_left add_diff files [])
             ++ [Log (GeneratedInline JNull); LogError (Fatal TypeError)],
           1%Z)).
  { rewrite (run_blocks w files Hpr Hf), (inline_block_eq w _ resp Hi Hg).
    unfold sanitized, sanitize_log. rewrite Hp. reflexivity. }
  split; [exact E|]. rewrite E. cbn [fst].
  rewrite call_kinds_app. destruct (preamble_facts files) as [-> _].
  reflexivity.
Qed.

Lemma null_response_fatal_witness :
  snd (run (inline_world (Some (lit "null")))) = 1%Z.
Proof.
  refine (f_equal snd
            (proj1 (null_response_fatal (inline_world (Some (lit "null")))
                      [a_file] (Some (lit "null"))
                      eq_refl eq_refl eq_refl eq_refl _))).
  vm_compute. reflexivity.
Defined.

(** *** The text of a response *)

(** X21: the text that [callGemini] takes from a response body.  Reading
    it throws exactly when the body is [null] or [undefined]; a body
    whose first candidate has a first part gives the text of that part,
    whatever follows them; a body without candidates, or with an empty
    list of them, gives [undefined] and no error. *)
Theorem response_text_cases (data t : value) (more parts : list value) :
  (response_text data = Throw TypeError <-> nullish data = true)
  /\ (nullish data = false -> exists v, response_text data = Ok v)
  /\ response_text (body_with_text t) = Ok t
  /\ response_text
       (JObj [(s_candidates,
               JArr (JObj [(s_content,
                            JObj [(s_parts,
                                   JArr (JObj [(s_text, t)] :: parts))])]
                       :: more))]) = Ok t
  /\ response_text (JObj []) = Ok JUndefined
  /\ response_text (JObj [(s_candidates, JArr [])]) = Ok JUndefined.
Proof.
  split; [|split; [|split; [|split; [|split]]]]; try reflexivity.
  - destruct data; unfold response_text; cbn [get nullish]; split;
      intros H; try reflexivity; discriminate H.
  - destruct data; try discriminate; intros _; unfold response_text;
      cbn [get]; eauto.
Qed.

End OrchestratorExtras.
